(** * gradcafe_data: the Collector (fetch_data.py) and the Analyzer
      (analyze_gradcafe.py), embedded and verified.

    Conventions of the embedding.
    - Text is [string]; a character is one of the 256 code points
      U+0000..U+00FF, so Python's [str.isspace], the regex classes [\s]
      and [\d] and case-insensitive matching are the restrictions of
      the Unicode ones to that range.
    - Python numbers held in the table (the [float] and [int] values
      that [parse_stats] produces, and the statistics pandas derives
      from them) are exact rationals [Qc]; binary rounding is outside
      the model.  A missing value ([None], [NaN]) is [None].
    - The interpreter is CPython with its default settings: [int] of
      a text of more than 4300 digits raises [ValueError].
    - The browser is an oracle from page numbers to what the page turns
      out to be; what the script does to the outside world (requests,
      sleeps, snapshot files, the CSV file) is recorded in a trace
      threaded through a small state monad.  Log lines are left out. *)

From Stdlib Require Import ZArith QArith Qcanon Ascii String List Lia.
From Stdlib Require Import Decimal DecimalString DecimalZ Qround.
From Stdlib Require Import Lqa.
From stdpp Require Import base option list sorting gmap strings.

Local Open Scope Z_scope.

(** ** Python text primitives *)

Module Py.

Definition code (c : ascii) : N := N_of_ascii c.

(** [str.isspace] on U+0000..U+00FF; also the regex class [\s]. *)
Definition isspace (c : ascii) : bool :=
  let n := code c in
  ((9 <=? n) && (n <=? 13) || (28 <=? n) && (n <=? 32)
   || (n =? 133) || (n =? 160))%N.

(** The regex class [\d] on U+0000..U+00FF. *)
Definition isdigit (c : ascii) : bool :=
  let n := code c in ((48 <=? n) && (n <=? 57))%N.

Definition digit_value (c : ascii) : Z := Z.of_N (code c) - 48.

(** Lower-casing; within U+0000..U+00FF only A-Z can meet an ASCII
    letter of a pattern after case folding. *)
Definition lower (c : ascii) : ascii :=
  let n := code c in
  if ((65 <=? n) && (n <=? 90))%N then ascii_of_N (n + 32) else c.

Fixpoint lstrip (s : string) : string :=
  match s with
  | String c s' => if isspace c then lstrip s' else s
  | EmptyString => EmptyString
  end.

Fixpoint rstrip (s : string) : string :=
  match s with
  | String c s' =>
      match rstrip s' with
      | EmptyString => if isspace c then EmptyString else String c EmptyString
      | r => String c r
      end
  | EmptyString => EmptyString
  end.

(** [s.strip()] *)
Definition strip (s : string) : string := rstrip (lstrip s).

Fixpoint startswith (p s : string) : bool :=
  match p, s with
  | EmptyString, _ => true
  | String a p', String c s' => if Ascii.eqb a c then startswith p' s' else false
  | String _ _, EmptyString => false
  end.

(** [sub in s] *)
Fixpoint contains (sub s : string) : bool :=
  startswith sub s ||
  match s with
  | String _ s' => contains sub s'
  | EmptyString => false
  end.

(** Errors: [Raised] stands for a Python exception leaving the
    expression. *)
Inductive result (A : Type) : Type :=
| Ok (a : A)
| Raised.
Arguments Ok {A} a.
Arguments Raised {A}.

Definition rbind {A B} (r : result A) (k : A -> result B) : result B :=
  match r with
  | Ok a => k a
  | Raised => Raised
  end.

(** Value of a run of decimal digits read after the accumulator
    [acc]; [None] at the first character that is not a digit. *)
Fixpoint digits_from (acc : Z) (s : string) : option Z :=
  match s with
  | EmptyString => Some acc
  | String c s' =>
      if isdigit c then digits_from (10 * acc + digit_value c) s' else None
  end.

(** [sys.get_int_max_str_digits()], as CPython sets it by default. *)
Definition INT_MAX_STR_DIGITS : Z := 4300.

(** [int(s)] on the texts the script passes: a non-empty run of
    digits.  A run of more than [INT_MAX_STR_DIGITS] characters,
    leading zeros counted, is refused with a [ValueError], like any
    text that is not a run of digits. *)
Definition int (s : string) : result Z :=
  match s with
  | EmptyString => Raised
  | _ =>
      if INT_MAX_STR_DIGITS <? Z.of_nat (String.length s) then Raised
      else match digits_from 0 s with Some n => Ok n | None => Raised end
  end.

Fixpoint split_dot (s : string) : option (string * string) :=
  match s with
  | EmptyString => None
  | String c s' =>
      if Ascii.eqb c "."
      then Some (EmptyString, s')
      else match split_dot s' with
           | Some (a, b) => Some (String c a, b)
           | None => None
           end
  end.

(** [float(s)] on the texts the script passes: digits, a dot,
    digits; the value is the exact decimal. *)
Definition float (s : string) : result Qc :=
  match split_dot s with
  | Some (ip, fp) =>
      match ip, fp with
      | String _ _, String _ _ =>
          match digits_from 0 ip, digits_from 0 fp with
          | Some i, Some f =>
              Ok (Q2Qc (inject_Z i + inject_Z f / inject_Z (10 ^ Z.of_nat (String.length fp))))
          | _, _ => Raised
          end
      | _, _ => Raised
      end
  | None => Raised
  end.

(** [str(n)] for an [int]: its decimal numeral, with a minus sign
    when negative. *)
Definition str (n : Z) : string := NilZero.string_of_int (Z.to_int n).

End Py.

(** ** urllib.parse.urlencode *)

Module Urllib.

(** The characters [quote] never escapes: letters, digits and
    [_.-~]. *)
Definition always_safe (c : ascii) : bool :=
  let n := Py.code c in
  ((65 <=? n) && (n <=? 90) || (97 <=? n) && (n <=? 122)
   || (48 <=? n) && (n <=? 57)
   || (n =? 95) || (n =? 46) || (n =? 45) || (n =? 126))%N.

(** One upper-case hexadecimal digit. *)
Definition hex_digit (n : N) : ascii :=
  if (n <? 10)%N then ascii_of_N (48 + n) else ascii_of_N (55 + n).

(** [%XX] for a byte. *)
Definition percent (byte : N) : string :=
  String "%" (String (hex_digit (byte / 16)) (String (hex_digit (byte mod 16)) "")).

(** The UTF-8 bytes of a character of U+0000..U+00FF. *)
Definition utf8 (c : ascii) : list N :=
  let n := Py.code c in
  if (n <? 128)%N then [n] else [192 + n / 64; 128 + n mod 64]%N.

(** [quote_plus(s)] with the default [safe='']: a space becomes [+],
    a safe character stays, any other character becomes the [%XX] of
    its bytes. *)
Fixpoint quote_plus (s : string) : string :=
  match s with
  | EmptyString => EmptyString
  | String c s' =>
      (if Ascii.eqb c " " then "+"
       else if always_safe c then String c EmptyString
       else String.concat "" (percent <$> utf8 c))
      +:+ quote_plus s'
  end.

(** The values of the query dict: texts and ints, both passed
    through [str]. *)
Inductive value : Type :=
| Text (s : string)
| Int (n : Z).

Definition str_of (v : value) : string :=
  match v with
  | Text s => s
  | Int n => Py.str n
  end.

(** [urlencode(query)] for a dict with text keys, in its insertion
    order. *)
Definition urlencode (query : list (string * value)) : string :=
  String.concat "&"
    ((fun kv : string * value => quote_plus kv.1 +:+ "=" +:+ quote_plus (str_of kv.2))
       <$> query).

End Urllib.

(** ** The fragment of [re] used by the script *)

Module Re.

(** One-character matchers: a literal (compared under IGNORECASE),
    [\d], and the class [[:\s]]. *)
Inductive atom : Type :=
| Lit (c : ascii)
| Digit
| ColonSpace.

Definition atom_matches (a : atom) (c : ascii) : bool :=
  match a with
  | Lit x => Ascii.eqb (Py.lower x) (Py.lower c)
  | Digit => Py.isdigit c
  | ColonSpace => Ascii.eqb c ":" || Py.isspace c
  end.

(** Pattern items: one atom, a greedy [+], and the parentheses of
    the capture group. *)
Inductive item : Type :=
| One (a : atom)
| Plus (a : atom)
| GroupOpen
| GroupClose.

Definition pattern := list item.

(** Matcher state: the text at which group 1 was opened, and the
    text captured by group 1 once closed. *)
Record groups := { g_open : option string; g_text : option string }.

Definition no_groups : groups := {| g_open := None; g_text := None |}.

(** The prefix of [from] that was consumed to reach its suffix [to]. *)
Definition consumed (from to : string) : string :=
  String.substring 0 (String.length from - String.length to) from.

(** Backtracking match of the items at the start of [s]: a greedy
    [+] first takes as many characters as it can and gives them back
    one at a time when the rest of the pattern fails. *)
Fixpoint match_here (p : pattern) (s : string) (g : groups) : option groups :=
  match p with
  | [] => Some g
  | One a :: p' =>
      match s with
      | String c s' => if atom_matches a c then match_here p' s' g else None
      | EmptyString => None
      end
  | Plus a :: p' =>
      (fix more (s : string) : option groups :=
         match s with
         | String c s' =>
             if atom_matches a c
             then match more s' with
                  | Some r => Some r
                  | None => match_here p' s' g
                  end
             else None
         | EmptyString => None
         end) s
  | GroupOpen :: p' =>
      match_here p' s {| g_open := Some s; g_text := g_text g |}
  | GroupClose :: p' =>
      match_here p' s
        {| g_open := g_open g;
           g_text := (fun o => consumed o s) <$> g_open g |}
  end.

(** [re.search(p, s, re.IGNORECASE)]: the match at the leftmost
    position that has one. *)
Fixpoint search (p : pattern) (s : string) : option groups :=
  match match_here p s no_groups with
  | Some g => Some g
  | None =>
      match s with
      | String _ s' => search p s'
      | EmptyString => None
      end
  end.

(** [m.group(1)] *)
Definition group1 (g : groups) : Py.result string :=
  match g_text g with
  | Some t => Py.Ok t
  | None => Py.Raised
  end.

Fixpoint lits (s : string) : pattern :=
  match s with
  | EmptyString => []
  | String c s' => One (Lit c) :: lits s'
  end.

End Re.

(** ** A state monad: the state is the trace of effects for the
       scraper, and the table held by [df] for [process_data]. *)

Definition State (S A : Type) : Type := S -> A * S.

Definition ret {S A} (a : A) : State S A := fun s => (a, s).

Definition bind {S A B} (m : State S A) (k : A -> State S B) : State S B :=
  fun s => let (a, s') := m s in k a s'.

Definition get {S} : State S S := fun s => (s, s).

Definition modify {S} (f : S -> S) : State S unit := fun s => (tt, f s).

Definition exec {S A} (m : State S A) (s : S) : S := snd (m s).

Definition eval {S A} (m : State S A) (s : S) : A := fst (m s).

Declare Scope state_scope.
Delimit Scope state_scope with state.
Notation "x <- m ;; k" := (bind m (fun x => k))
  (at level 100, m at next level, right associativity) : state_scope.
Notation "m ;; k" := (bind m (fun _ => k))
  (at level 100, right associativity) : state_scope.

(** ** Tables *)

(** A pandas Series is the list of its values in index order; a
    DataFrame is the list of its rows. *)

Module Series.

Section Generic.
Context {A : Type}.

(** [s.fillna(v)] where [v] itself may be missing (filling with
    NaN leaves the gap). *)
Definition fillna (v : option A) (s : list (option A)) : list (option A) :=
  (fun x => match x with Some _ => x | None => v end) <$> s.

(** [s.map(d)] for a dict [d]: a missing value, or one that is not
    a key, becomes missing. *)
Definition map_dict `{Countable K} (d : gmap K A) (s : list (option K))
  : list (option A) :=
  (fun x => x ≫= (d !!.)) <$> s.

(** The values that are present, in order. *)
Definition dropna (s : list (option A)) : list A := omap id s.
End Generic.

Definition sum (vs : list Qc) : Qc := foldr Qcplus (Q2Qc 0) vs.

Definition Qc_of_nat (n : nat) : Qc := Q2Qc (inject_Z (Z.of_nat n)).

(** [s.mean()]: missing values are skipped; NaN when none is left. *)
Definition mean (s : list (option Qc)) : option Qc :=
  match dropna s with
  | [] => None
  | vs => Some (sum vs / Qc_of_nat (length vs))%Qc
  end.

(** [s.median()]: missing values are skipped; the middle value of
    the sorted rest, or the average of the two middle ones; NaN when
    none is left. *)
Definition median (s : list (option Qc)) : option Qc :=
  let vs := merge_sort Qcle (dropna s) in
  let n := length vs in
  match n with
  | O => None
  | _ =>
      if Nat.odd n
      then vs !! (n / 2)%nat
      else a ← vs !! (n / 2 - 1)%nat; b ← vs !! (n / 2)%nat;
           Some ((a + b) / Q2Qc 2)%Qc
  end.

End Series.

(** ** fetch_data.py *)

Module fetch_data.
Import Py Re.

Definition START_PAGE : Z := 1.
Definition END_PAGE : Z := 170.
Definition PAGE_LOAD_DELAY : Z := 5.
Definition REQUEST_DELAY : Z := 2.

Definition INSTITUTION : string := "Yale University".
Definition PROGRAM : string := "Political Science".
Definition DEGREE : string := "PhD".
Definition SEASON : string := "".
Definition SORT : string := "newest".

(** *** construct_url *)

Definition construct_url (page_num : Z) : string :=
  let base_url := "https://www.thegradcafe.com/survey/" in
  let query_params :=
    [ ("q", Urllib.Text "");
      ("sort", Urllib.Text SORT);
      ("institution", Urllib.Text INSTITUTION);
      ("program", Urllib.Text PROGRAM);
      ("degree", Urllib.Text DEGREE);
      ("season", Urllib.Text SEASON);
      ("page", Urllib.Int page_num) ] in
  let encoded_params := Urllib.urlencode query_params in
  base_url +:+ "?" +:+ encoded_params.

(** *** parse_stats *)

Record Stats := {
  stats_gpa : option Qc;
  stats_gre_verbal : option Z;
  stats_gre_quant : option Z;
  stats_gre_writing : option Qc
}.

(** [LABEL[:\s]+(\d\.\d+)] *)
Definition decimal_after (label : string) : pattern :=
  lits label ++
  [Plus ColonSpace; GroupOpen; One Digit; One (Lit "."); Plus Digit; GroupClose].

(** [LABEL[:\s]+(\d+)] *)
Definition integer_after (label : string) : pattern :=
  lits label ++ [Plus ColonSpace; GroupOpen; Plus Digit; GroupClose].

Definition gpa_re : pattern := decimal_after "GPA".
Definition gre_v_re : pattern := integer_after "GRE Verbal".
Definition gre_q_re : pattern := integer_after "GRE Quantitative".
Definition gre_w_re : pattern := decimal_after "GRE Analytical Writing".

(** The shape of each of the four steps: the field stays [None]
    unless the search matches, and is then the converted group 1. *)
Definition field {A} (p : pattern) (conv : string -> result A) (stats_raw : string)
  : result (option A) :=
  match search p stats_raw with
  | Some m => rbind (group1 m) (fun t => rbind (conv t) (fun v => Ok (Some v)))
  | None => Ok None
  end.

Definition parse_stats (stats_raw : string) : result Stats :=
  rbind (field gpa_re float stats_raw) (fun gpa =>
  rbind (field gre_v_re int stats_raw) (fun gre_verbal =>
  rbind (field gre_q_re int stats_raw) (fun gre_quant =>
  rbind (field gre_w_re float stats_raw) (fun gre_writing =>
  Ok {| stats_gpa := gpa;
        stats_gre_verbal := gre_verbal;
        stats_gre_quant := gre_quant;
        stats_gre_writing := gre_writing |})))).

(** *** The browser and the trace *)

(** A [tr] of the results table: the texts of its [td] cells, or a
    row whose elements cannot be read (the WebDriver call raises, with
    an exception other than [NoSuchElementException], a stale element
    for one). *)
Inductive tr : Type :=
| Cells (texts : list string)
| Unreadable.

(** What requesting a page turns out to be: [driver.get] raises;
    the page has no element of class [submission-table]; or the
    table with all its [tr] elements, header first. *)
Inductive page : Type :=
| GetRaises
| NoTable
| Table (trs : list tr).

Definition browser := Z -> page.

Inductive snapshot : Type :=
| PageSource (page_num : Z)        (* page_source_political_science_pageN.html *)
| ErrorPageSource (page_num : Z).  (* error_page_source_political_science_pageN.html *)

(** One scraped record, a dict of [scrape_gradcafe_page]. *)
Record Entry := {
  e_institution : string;
  e_program : string;
  e_degree : string;
  e_season : string;
  e_decision : string;
  e_gpa : option Qc;
  e_gre_verbal : option Z;
  e_gre_quant : option Z;
  e_gre_writing : option Qc;
  e_stats_raw : string
}.

(** One row of the DataFrame: numeric columns hold numbers or NaN,
    the decision column a text or NaN. *)
Record Row := {
  institution : string;
  program : string;
  degree : string;
  season : string;
  decision : option string;
  gpa : option Qc;
  gre_verbal : option Qc;
  gre_quant : option Qc;
  gre_writing : option Qc;
  stats_raw : string
}.

Abbreviation DataFrame := (list Row).

Inductive event : Type :=
| Get (page_num : Z)          (* driver.get(construct_url(page_num)) *)
| Sleep (seconds : Z)         (* time.sleep *)
| Save (file : snapshot)      (* the page source written to a file *)
| ToCsv (df : DataFrame)      (* df.to_csv(OUTPUT_CSV, index=False) *)
| Quit.                       (* driver.quit() *)

Abbreviation trace := (list event).

Definition emit (e : event) : State trace unit := modify (fun t => t ++ [e]).

(** *** scrape_gradcafe_page *)

(** [cells[i].text.strip()]; an index out of range is an
    [IndexError]. *)
Definition cell_text (cells : list string) (i : nat) : result string :=
  match cells !! i with
  | Some c => Ok (strip c)
  | None => Raised
  end.

(** The body of the [for row in rows] loop for a row that can be
    read: [None] when the row is skipped, the appended dict
    otherwise. *)
Definition scrape_row (cells : list string) : result (option Entry) :=
  if (length cells <? 7)%nat then Ok None else
  rbind (cell_text cells 0) (fun institution =>
  rbind (cell_text cells 1) (fun program =>
  rbind (cell_text cells 2) (fun degree =>
  rbind (cell_text cells 3) (fun season =>
  rbind (cell_text cells 4) (fun decision =>
  rbind (if (6 <? length cells)%nat then cell_text cells 6 else Ok EmptyString)
        (fun stats_raw =>
  if contains "Yale" institution
     && contains "Political Science" program
     && contains "PhD" degree
  then
    rbind (parse_stats stats_raw) (fun stats =>
    Ok (Some {| e_institution := institution;
                e_program := program;
                e_degree := degree;
                e_season := season;
                e_decision := decision;
                e_gpa := stats_gpa stats;
                e_gre_verbal := stats_gre_verbal stats;
                e_gre_quant := stats_gre_quant stats;
                e_gre_writing := stats_gre_writing stats;
                e_stats_raw := stats_raw |}))
  else Ok None)))))).

(** The [for row in rows] loop, [entries] being the list built so
    far. *)
Fixpoint scrape_rows (rows : list tr) (entries : list Entry) : result (list Entry) :=
  match rows with
  | [] => Ok entries
  | Unreadable :: _ => Raised
  | Cells cells :: rows' =>
      rbind (scrape_row cells) (fun o =>
      scrape_rows rows' (match o with
                         | Some e => entries ++ [e]
                         | None => entries
                         end))
  end.

Local Open Scope state_scope.

(** The outer [except Exception] handler; writing the snapshot is
    taken to succeed. *)
Definition on_error (page_num : Z) : State trace (list Entry) :=
  emit (Save (ErrorPageSource page_num));;
  ret [].

Definition scrape_gradcafe_page (driver : browser) (page_num : Z)
  : State trace (list Entry) :=
  emit (Get page_num);;
  match driver page_num with
  | GetRaises => on_error page_num
  | NoTable =>
      emit (Sleep PAGE_LOAD_DELAY);;
      emit (Save (PageSource page_num));;
      ret []
  | Table trs =>
      emit (Sleep PAGE_LOAD_DELAY);;
      match scrape_rows (drop 1 trs) [] with
      | Ok entries => ret entries
      | Raised => on_error page_num
      end
  end.

(** *** scrape_all_pages *)

(** [range(lo, hi)] *)
Definition range (lo hi : Z) : list Z :=
  (fun i => lo + Z.of_nat i) <$> seq 0 (Z.to_nat (hi - lo)).

Definition Row_of_Entry (e : Entry) : Row :=
  {| institution := e_institution e;
     program := e_program e;
     degree := e_degree e;
     season := e_season e;
     decision := Some (e_decision e);
     gpa := e_gpa e;
     gre_verbal := (fun n => Q2Qc (inject_Z n)) <$> e_gre_verbal e;
     gre_quant := (fun n => Q2Qc (inject_Z n)) <$> e_gre_quant e;
     gre_writing := e_gre_writing e;
     stats_raw := e_stats_raw e |}.

(** [pd.DataFrame(all_results)] *)
Definition DataFrame_of (all_results : list Entry) : DataFrame :=
  Row_of_Entry <$> all_results.

(** The [for page in range(...)] loop with its [break]. *)
Fixpoint for_pages (driver : browser) (pages : list Z) (all_results : list Entry)
  : State trace (list Entry) :=
  match pages with
  | [] => ret all_results
  | page :: pages' =>
      results <- scrape_gradcafe_page driver page;;
      match results with
      | [] => ret all_results
      | _ =>
          emit (Sleep REQUEST_DELAY);;
          for_pages driver pages' (all_results ++ results)
      end
  end.

Definition scrape_all_pages (driver : browser) (start_page end_page : Z)
  : State trace DataFrame :=
  all_results <- for_pages driver (range start_page (end_page + 1)) [];;
  ret (DataFrame_of all_results).

(** *** process_data *)

Definition decision_mapping : gmap string string :=
  {[ "Accepted" := "Accept";
     "Rejected" := "Reject";
     "Wait Listed" := "Waitlist";
     "Interview" := "Other";
     "Other" := "Other" ]}.

(** The four columns that are made numeric and imputed. *)
Inductive numcol : Type := GPA | GRE_VERBAL | GRE_QUANT | GRE_WRITING.

Definition num_value (c : numcol) (r : Row) : option Qc :=
  match c with
  | GPA => gpa r
  | GRE_VERBAL => gre_verbal r
  | GRE_QUANT => gre_quant r
  | GRE_WRITING => gre_writing r
  end.

Definition set_num_value (c : numcol) (r : Row) (v : option Qc) : Row :=
  {| institution := institution r;
     program := program r;
     degree := degree r;
     season := season r;
     decision := decision r;
     gpa := match c with GPA => v | _ => gpa r end;
     gre_verbal := match c with GRE_VERBAL => v | _ => gre_verbal r end;
     gre_quant := match c with GRE_QUANT => v | _ => gre_quant r end;
     gre_writing := match c with GRE_WRITING => v | _ => gre_writing r end;
     stats_raw := stats_raw r |}.

Definition set_decision_value (r : Row) (v : option string) : Row :=
  {| institution := institution r;
     program := program r;
     degree := degree r;
     season := season r;
     decision := v;
     gpa := gpa r;
     gre_verbal := gre_verbal r;
     gre_quant := gre_quant r;
     gre_writing := gre_writing r;
     stats_raw := stats_raw r |}.

(** [df[c]] read as a value. *)
Definition getitem (c : numcol) : State DataFrame (list (option Qc)) :=
  df <- get;; ret (num_value c <$> df).

(** [df[c] = s] *)
Definition setitem (c : numcol) (s : list (option Qc)) : State DataFrame unit :=
  modify (fun df => zip_with (set_num_value c) df s).

Definition getitem_decision : State DataFrame (list (option string)) :=
  df <- get;; ret (decision <$> df).

Definition setitem_decision (s : list (option string)) : State DataFrame unit :=
  modify (fun df => zip_with set_decision_value df s).

(** [pd.to_numeric(s, errors='coerce')] on a column that holds
    numbers and missing values only, which is what [parse_stats]
    puts there: every number is kept and [None] becomes NaN. *)
Definition to_numeric (s : list (option Qc)) : list (option Qc) := s.

(** [df[c].fillna(v, inplace=True)]: the Series that [df[c]] hands
    out shares its values with the frame (pandas without
    copy-on-write, which the script is written for), so filling it
    in place fills the column of [df]. *)
Definition fillna_inplace (c : numcol) (v : option Qc) : State DataFrame unit :=
  modify (fun df => zip_with (set_num_value c) df (Series.fillna v (num_value c <$> df))).

(** The statements of [process_data] after its guard, run on the
    table that [df] refers to. *)
Definition process_data_body : State DataFrame unit :=
  d <- getitem_decision;;
  setitem_decision (Series.fillna (Some "Unknown") (Series.map_dict decision_mapping d));;
  s <- getitem GPA;; setitem GPA (to_numeric s);;
  s <- getitem GRE_VERBAL;; setitem GRE_VERBAL (to_numeric s);;
  s <- getitem GRE_QUANT;; setitem GRE_QUANT (to_numeric s);;
  s <- getitem GRE_WRITING;; setitem GRE_WRITING (to_numeric s);;
  s <- getitem GPA;;
  let mean_gpa := Series.mean s in
  fillna_inplace GPA mean_gpa;;
  s <- getitem GRE_VERBAL;;
  let median_gre_verbal := Series.median s in
  s <- getitem GRE_QUANT;;
  let median_gre_quant := Series.median s in
  s <- getitem GRE_WRITING;;
  let median_gre_writing := Series.median s in
  fillna_inplace GRE_VERBAL median_gre_verbal;;
  fillna_inplace GRE_QUANT median_gre_quant;;
  fillna_inplace GRE_WRITING median_gre_writing.

(** [process_data(df)]; the result [None] is Python's [None]. *)
Definition process_data (df : option DataFrame) : option DataFrame :=
  match df with
  | None => None
  | Some d =>
      if (length d =? 0)%nat then None else Some (exec process_data_body d)
  end.

(** *** main, once the driver is set up *)

(** [Raised] is the run that dies on an uncaught exception (reading
    [df['decision']] off a [None]). *)
Definition main (driver : browser) : State trace (result unit) :=
  df <- scrape_all_pages driver START_PAGE END_PAGE;;
  if (0 <? length df)%nat
  then
    match process_data (Some df) with
    | Some df' => emit (ToCsv df');; emit Quit;; ret (Ok tt)
    | None => ret Raised
    end
  else emit Quit;; ret (Ok tt).

(** *** setup_driver and the whole of main *)




End fetch_data.

(** ** analyze_gradcafe.py *)

Module analyze_gradcafe.
Import Py Re.

(** One row of the bulk data file, with the columns the script
    reads. *)
Record Row := {
  uni_name : option string;
  major : option string;
  decision : option string;
  ugrad_gpa : option Qc;
  gre_verbal : option Qc;
  gre_quant : option Qc;
  gre_writing : option Qc;
  is_new_gre : option Z
}.

Abbreviation DataFrame := (list Row).

(** [s.str.contains(pat, case=False, na=na)] for a pattern without
    regex metacharacters: a case-insensitive [re.search] per value,
    and [na] where the value is missing. *)
Definition str_contains_nocase (pat : string) (na : bool) (s : list (option string))
  : list bool :=
  (fun v => match v with
            | Some text => bool_decide (is_Some (search (lits pat) text))
            | None => na
            end) <$> s.

(** [m1 & m2] *)
Definition mask_and (m1 m2 : list bool) : list bool := zip_with andb m1 m2.

(** [df[mask]] *)
Definition boolean_index (df : DataFrame) (mask : list bool) : DataFrame :=
  zip df mask ≫= (fun rm : Row * bool => if rm.2 then [rm.1] else []).

(** The frame [yale_polisci] that [analyze_yale_polisci] builds and
    returns first. *)
Definition yale_polisci (df : DataFrame) : DataFrame :=
  boolean_index df
    (mask_and (str_contains_nocase "Yale" false (uni_name <$> df))
              (str_contains_nocase "Political Science" false (major <$> df))).

Definition analyze_yale_polisci (df : option DataFrame) : option DataFrame :=
  match df with
  | None => None
  | Some d => Some (yale_polisci d)
  end.

(** [s.value_counts()]: how often each value occurs, missing values
    left out; the order of the result is not modelled. *)
Fixpoint value_counts (s : list (option string)) : gmap string nat :=
  match s with
  | [] => ∅
  | None :: s' => value_counts s'
  | Some x :: s' =>
      let counts := value_counts s' in
      <[x := S (default 0%nat (counts !! x))]> counts
  end.

(** The second component of what [analyze_yale_polisci] returns. *)
Definition decision_summary (df : DataFrame) : gmap string nat :=
  value_counts (decision <$> yale_polisci df).

(** [x.round(2)] for a number: to the nearest hundredth, a tie going
    to the even one. *)
Definition round2 (x : Qc) : Qc :=
  let scaled := (x * Q2Qc 100)%Qc in
  let below := Qfloor scaled in
  let rest := (scaled - Q2Qc (inject_Z below))%Qc in
  let up :=
    if decide (rest < Q2Qc (1 # 2))%Qc then false
    else if decide (Q2Qc (1 # 2) < rest)%Qc then true
    else Z.odd below in
  (Q2Qc (inject_Z (if up then below + 1 else below)) / Q2Qc 100)%Qc.

(** The [mean] and the [count] that [agg] gives for one column of
    one group, after [round(2)]. *)
Record ColumnStats := {
  col_mean : option Qc;
  col_count : nat
}.

Definition column_stats (s : list (option Qc)) : ColumnStats :=
  {| col_mean := round2 <$> Series.mean s;
     col_count := length (Series.dropna s) |}.

Record GroupStats := {
  ugrad_gpa_stats : ColumnStats;
  gre_verbal_stats : ColumnStats;
  gre_quant_stats : ColumnStats;
  gre_writing_stats : ColumnStats
}.

(** The rows of one group of [groupby('decision')]. *)
Definition group (key : string) (df : DataFrame) : DataFrame :=
  List.filter (fun r => bool_decide (decision r = Some key)) df.

(** The third component: per decision, mean and count of the four
    numeric columns; rows without a decision belong to no group. *)
Definition stats_summary (df : DataFrame) : gmap string GroupStats :=
  map_imap
    (fun key _ =>
       let rows := group key (yale_polisci df) in
       Some {| ugrad_gpa_stats := column_stats (ugrad_gpa <$> rows);
               gre_verbal_stats := column_stats (gre_verbal <$> rows);
               gre_quant_stats := column_stats (gre_quant <$> rows);
               gre_writing_stats := column_stats (gre_writing <$> rows) |})
    (decision_summary df).

(** *** load_data, plot_gre_scores and main *)

(** What the script writes. *)
Inductive event : Type :=
| SaveFig (data : DataFrame)   (* plt.savefig('yale_gre_scores.png') *)
| ToCsv (data : DataFrame).    (* yale_data.to_csv('yale_polisci_results.csv') *)

(** [load_data()], given what ['all/all.csv'] holds, [None] when the
    file is not there. *)
Definition load_data (file : option DataFrame) : option DataFrame := file.

Definition plot_gre_scores (yale_data : option DataFrame) : State (list event) unit :=
  match yale_data with
  | None => ret tt
  | Some d =>
      if (length d =? 0)%nat then ret tt else modify (fun t => t ++ [SaveFig d])
  end.

Definition main (file : option DataFrame) : State (list event) unit :=
  let df := load_data file in
  let yale_data := analyze_yale_polisci df in
  match yale_data with
  | Some d =>
      bind (plot_gre_scores yale_data)
           (fun _ => modify (fun t => t ++ [ToCsv d]))
  | None => ret tt
  end.

End analyze_gradcafe.
(** * Properties *)

(** ** The state monad *)

Section StateFacts.
Context {S : Type}.

Lemma exec_bind {A B} (m : State S A) (k : A -> State S B) (s : S) :
  exec (bind m k) s = exec (k (eval m s)) (exec m s).
Proof. unfold exec, eval, bind. destruct (m s); reflexivity. Qed.

Lemma eval_bind {A B} (m : State S A) (k : A -> State S B) (s : S) :
  eval (bind m k) s = eval (k (eval m s)) (exec m s).
Proof. unfold exec, eval, bind. destruct (m s); reflexivity. Qed.

Lemma exec_modify (f : S -> S) (s : S) : exec (modify f) s = f s.
Proof. reflexivity. Qed.
End StateFacts.

(** ** Columns of a table *)

Section ColumnFacts.
Context {A B C : Type}.

Lemma zip_with_fmap_self (f : A -> B -> C) (g : A -> B) (l : list A) :
  zip_with f l (g <$> l) = (fun x => f x (g x)) <$> l.
Proof. induction l as [|x l IH]; csimpl; [reflexivity|]. now f_equal. Qed.
End ColumnFacts.

Lemma fillna_fmap {A B} (v : option B) (g : A -> option B) (l : list A) :
  Series.fillna v (g <$> l)
  = (fun x => match g x with Some _ => g x | None => v end) <$> l.
Proof. unfold Series.fillna. rewrite <- list_fmap_compose. reflexivity. Qed.

Lemma map_dict_fmap {A V} `{Countable K} (d : gmap K V) (g : A -> option K) (l : list A) :
  Series.map_dict d (g <$> l) = (fun x => g x ≫= (d !!.)) <$> l.
Proof. unfold Series.map_dict. rewrite <- list_fmap_compose. reflexivity. Qed.

(** ** process_data, row by row *)

Section ProcessData.
Import fetch_data.

(** The canonical label that the decision step leaves for a raw
    value. *)
Definition canonical (raw : option string) : string :=
  default "Unknown" (raw ≫= (decision_mapping !!.)).

Definition canon_row (r : Row) : Row :=
  set_decision_value r (Some (canonical (decision r))).

Definition imputed (stat v : option Qc) : option Qc :=
  match v with Some _ => v | None => stat end.

Definition fill_row (c : numcol) (stat : option Qc) (r : Row) : Row :=
  set_num_value c r (imputed stat (num_value c r)).

Lemma set_num_value_same c r : set_num_value c r (num_value c r) = r.
Proof. destruct r, c; reflexivity. Qed.

Lemma exec_decision_step {A} (k : State DataFrame A) df :
  exec (d <- getitem_decision;;
        setitem_decision (Series.fillna (Some "Unknown")
                            (Series.map_dict decision_mapping d));; k)%state df
  = exec k (canon_row <$> df).
Proof.
  rewrite exec_bind, exec_bind. f_equal.
  unfold getitem_decision, setitem_decision.
  cbn [exec eval bind get ret modify fst snd].
  rewrite map_dict_fmap, fillna_fmap, zip_with_fmap_self.
  apply list_fmap_ext. intros _ r _. unfold canon_row, canonical.
  destruct (decision r ≫= _); reflexivity.
Qed.

Lemma exec_to_numeric_step {A} c (k : State DataFrame A) df :
  exec (s <- getitem c;; setitem c (to_numeric s);; k)%state df = exec k df.
Proof.
  rewrite exec_bind, exec_bind. f_equal.
  unfold getitem, setitem, to_numeric.
  cbn [exec eval bind get ret modify fst snd].
  rewrite zip_with_fmap_self.
  rewrite <- (list_fmap_id df) at 2. apply list_fmap_ext.
  intros _ r _. apply set_num_value_same.
Qed.

Lemma exec_fillna_inplace c v df :
  exec (fillna_inplace c v) df = fill_row c v <$> df.
Proof.
  unfold fillna_inplace. rewrite exec_modify, fillna_fmap, zip_with_fmap_self.
  apply list_fmap_ext. intros _ r _. unfold fill_row, imputed.
  destruct (num_value c r); reflexivity.
Qed.

Lemma eval_getitem c df : eval (getitem c) df = num_value c <$> df.
Proof. reflexivity. Qed.

Lemma exec_getitem c df : exec (getitem c) df = df.
Proof. reflexivity. Qed.

(** The row that [process_data] leaves in place of [r], in a table
    whose column statistics are those of [df]. *)
Definition processed_row (df : DataFrame) (r : Row) : Row :=
  {| institution := institution r;
     program := program r;
     degree := degree r;
     season := season r;
     decision := Some (canonical (decision r));
     gpa := imputed (Series.mean (gpa <$> df)) (gpa r);
     gre_verbal := imputed (Series.median (gre_verbal <$> df)) (gre_verbal r);
     gre_quant := imputed (Series.median (gre_quant <$> df)) (gre_quant r);
     gre_writing := imputed (Series.median (gre_writing <$> df)) (gre_writing r);
     stats_raw := stats_raw r |}.

Lemma exec_process_data_body df :
  exec process_data_body df = processed_row df <$> df.
Proof.
  unfold process_data_body.
  rewrite exec_decision_step.
  rewrite !exec_to_numeric_step.
  rewrite exec_bind, eval_getitem, exec_getitem.
  cbv zeta. rewrite exec_bind, exec_fillna_inplace.
  rewrite exec_bind, eval_getitem, exec_getitem.
  rewrite exec_bind, eval_getitem, exec_getitem.
  rewrite exec_bind, eval_getitem, exec_getitem.
  cbv zeta. rewrite !exec_bind, !exec_fillna_inplace.
  rewrite <- !list_fmap_compose.
  rewrite (list_fmap_ext (num_value GPA ∘ canon_row) gpa df)
    by (intros; reflexivity).
  rewrite (list_fmap_ext (num_value GRE_VERBAL ∘ _) gre_verbal df)
    by (intros; reflexivity).
  rewrite (list_fmap_ext (num_value GRE_QUANT ∘ _) gre_quant df)
    by (intros; reflexivity).
  rewrite (list_fmap_ext (num_value GRE_WRITING ∘ _) gre_writing df)
    by (intros; reflexivity).
  apply list_fmap_ext. intros _ r _. reflexivity.
Qed.

Lemma process_data_nonempty df :
  df <> [] -> process_data (Some df) = Some (processed_row df <$> df).
Proof.
  intros Hne. unfold process_data.
  destruct df as [|r df]; [congruence|].
  cbn [length Nat.eqb]. now rewrite exec_process_data_body.
Qed.

End ProcessData.

(** ** The statistics used for imputation *)

Section Statistics.
Local Open Scope Qc_scope.

Lemma Qc_of_nat_nonzero n : n <> O -> Series.Qc_of_nat n <> Q2Qc 0.
Proof.
  intros Hn Heq. apply (f_equal this) in Heq.
  unfold Series.Qc_of_nat in Heq. cbn [this Q2Qc] in Heq.
  rewrite !inject_Z_Qred in Heq. injection Heq as Heq. lia.
Qed.

Lemma mean_None s : Series.mean s = None <-> Series.dropna s = [].
Proof. unfold Series.mean. destruct (Series.dropna s); split; congruence. Qed.

Lemma mean_Some s m :
  Series.mean s = Some m ->
  Series.dropna s <> [] /\
  m * Series.Qc_of_nat (length (Series.dropna s)) = Series.sum (Series.dropna s).
Proof.
  unfold Series.mean. destruct (Series.dropna s) as [|v vs] eqn:E; [congruence|].
  intros [= <-]. split; [congruence|].
  rewrite Qcmult_comm. apply Qcmult_div_r, Qc_of_nat_nonzero. discriminate.
Qed.

Lemma Qc_two : Q2Qc 2 = 1 + 1.
Proof. apply Qc_is_canon. reflexivity. Qed.

Lemma Qc_midpoint a b :
  a ≤ b -> a ≤ (a + b) / Q2Qc 2 /\ (a + b) / Q2Qc 2 ≤ b.
Proof.
  intros Hab. rewrite Qc_two.
  assert (H2 : (0 < 1 + 1)%Qc) by reflexivity.
  assert (Hh : (a + b) / (1 + 1) * (1 + 1) = a + b).
  { field. intros H. discriminate H. }
  split.
  - apply (Qcmult_le_mono_pos_r _ _ (1 + 1)); [exact H2|].
    rewrite Hh. replace (a * (1 + 1)) with (a + a) by ring.
    now apply Qcplus_le_mono_l.
  - apply (Qcmult_le_mono_pos_r _ _ (1 + 1)); [exact H2|].
    rewrite Hh. replace (b * (1 + 1)) with (b + b) by ring.
    now apply Qcplus_le_mono_r.
Qed.

Lemma sorted_lookup_le (l : list Qc) i j a b :
  StronglySorted Qcle l -> l !! i = Some a -> l !! j = Some b ->
  (i <= j)%nat -> a ≤ b.
Proof.
  intros Hs Hi Hj Hij.
  destruct (decide (i = j)) as [->|Hne].
  - rewrite Hi in Hj. injection Hj as ->. reflexivity.
  - rewrite <- (take_drop_middle l j b Hj) in Hs.
    eapply StronglySorted_app_1_elem_of; [exact Hs| |left].
    apply list_elem_of_lookup. exists i.
    rewrite lookup_take_lt by lia. exact Hi.
Qed.

Lemma median_None s : Series.median s = None <-> Series.dropna s = [].
Proof.
  unfold Series.median.
  pose proof (merge_sort_Permutation Qcle (Series.dropna s)) as Hp.
  pose proof (Permutation_length Hp) as Hlen.
  destruct (Series.dropna s) as [|v vs] eqn:E.
  - apply Permutation_nil_r in Hp. rewrite Hp. split; reflexivity.
  - split; [|discriminate]. intros Hm. exfalso.
    set (l := merge_sort Qcle (v :: vs)) in *.
    cbn [length] in Hlen.
    destruct (length l) as [|n] eqn:En; [discriminate|].
    destruct (Nat.odd (S n)) eqn:Hodd.
    + apply lookup_ge_None in Hm.
      pose proof (Nat.div_lt (S n) 2). lia.
    + apply bind_None in Hm as [Ea|(a & Ea & Hm)].
      * apply lookup_ge_None in Ea. pose proof (Nat.div_lt (S n) 2). lia.
      * apply bind_None in Hm as [Eb|(b & Eb & Hm)]; [|discriminate].
        apply lookup_ge_None in Eb. pose proof (Nat.div_lt (S n) 2). lia.
Qed.

Lemma dropna_fmap {A} (g : A -> option Qc) (l : list A) :
  Series.dropna (g <$> l) = omap g l.
Proof.
  unfold Series.dropna. induction l as [|x l IH]; [reflexivity|].
  csimpl. rewrite IH. now destruct (g x).
Qed.

(** [m] is the mean of the values: there is a value, and [m] times
    their number is their sum. *)
Definition is_mean (vs : list Qc) (m : Qc) : Prop :=
  vs <> []
  /\ m * Q2Qc (inject_Z (Z.of_nat (length vs))) = foldr Qcplus (Q2Qc 0) vs.

(** [m] is the median of the values: with the values put in
    increasing order, the middle one when their number is odd, and
    half the sum of the two middle ones when it is even. *)
Definition is_median (vs : list Qc) (m : Qc) : Prop :=
  exists sorted,
    sorted ≡ₚ vs
    /\ StronglySorted Qcle sorted
    /\ if Nat.odd (length vs)
       then sorted !! (length vs / 2)%nat = Some m
       else exists a b,
              sorted !! (length vs / 2 - 1)%nat = Some a
              /\ sorted !! (length vs / 2)%nat = Some b
              /\ m * Q2Qc 2 = a + b.

Lemma mean_is_mean s :
  Series.dropna s <> [] ->
  exists m, Series.mean s = Some m /\ is_mean (Series.dropna s) m.
Proof.
  intros Hne. destruct (Series.mean s) as [m|] eqn:Hm.
  - exists m. split; [reflexivity|]. apply mean_Some in Hm as [_ Hm].
    split; [exact Hne|exact Hm].
  - apply mean_None in Hm. contradiction.
Qed.

Lemma median_is_median s :
  Series.dropna s <> [] ->
  exists m, Series.median s = Some m /\ is_median (Series.dropna s) m.
Proof.
  intros Hne. destruct (Series.median s) as [m|] eqn:Hm.
  2:{ apply median_None in Hm. contradiction. }
  exists m. split; [reflexivity|].
  exists (merge_sort Qcle (Series.dropna s)).
  pose proof (merge_sort_Permutation Qcle (Series.dropna s)) as Hp.
  split; [exact Hp|]. split; [apply (StronglySorted_merge_sort Qcle)|].
  unfold Series.median in Hm. cbv zeta in Hm.
  rewrite (Permutation_length Hp) in Hm.
  destruct (length (Series.dropna s)) as [|n]; [discriminate|].
  destruct (Nat.odd (S n)); [exact Hm|].
  apply bind_Some in Hm as (a & Ea & Hm).
  apply bind_Some in Hm as (b & Eb & Hm). injection Hm as <-.
  exists a, b. split; [exact Ea|]. split; [exact Eb|].
  rewrite Qc_two. field. intros H. discriminate H.
Qed.

End Statistics.

(** ** Post-collection normalization *)

Section Normalization.
Import fetch_data.

Lemma decision_mapping_values raw canon :
  decision_mapping !! raw = Some canon ->
  canon ∈ ["Accept"; "Reject"; "Waitlist"; "Other"].
Proof.
  intros Hl. apply elem_of_map_to_list in Hl.
  assert (Hall : Forall (fun kv : string * string =>
                   kv.2 ∈ ["Accept"; "Reject"; "Waitlist"; "Other"])
                 (map_to_list decision_mapping)).
  { vm_compute map_to_list. repeat constructor. }
  rewrite Forall_forall in Hall. exact (Hall _ Hl).
Qed.

Lemma processed_lookup df i r :
  df !! i = Some r -> (processed_row df <$> df) !! i = Some (processed_row df r).
Proof. intros Hi. now rewrite list_lookup_fmap, Hi. Qed.

(** C4. Decision normalization is a total function of the raw label
    alone: the five labels of the lookup table go to their fixed
    canonical category, one of Accept, Reject, Waitlist and Other;
    every other raw value, a missing one included, goes to
    "Unknown"; two rows with the same raw value get the same
    category; and the table keeps all its rows. *)
Theorem decision_normalization (df : DataFrame) :
  df <> [] ->
  (decision_mapping !! "Accepted" = Some "Accept"
   /\ decision_mapping !! "Rejected" = Some "Reject"
   /\ decision_mapping !! "Wait Listed" = Some "Waitlist"
   /\ decision_mapping !! "Interview" = Some "Other"
   /\ decision_mapping !! "Other" = Some "Other"
   /\ size decision_mapping = 5%nat)
  /\ exists df',
      process_data (Some df) = Some df'
      /\ length df' = length df
      /\ forall i r, df !! i = Some r ->
         exists r', df' !! i = Some r'
         /\ (forall raw canon,
               decision r = Some raw -> decision_mapping !! raw = Some canon ->
               decision r' = Some canon
               /\ canon ∈ ["Accept"; "Reject"; "Waitlist"; "Other"])
         /\ (forall raw,
               decision r = Some raw -> decision_mapping !! raw = None ->
               decision r' = Some "Unknown")
         /\ (decision r = None -> decision r' = Some "Unknown")
         /\ (forall j r2 r2',
               df !! j = Some r2 -> df' !! j = Some r2' ->
               decision r2 = decision r -> decision r2' = decision r').
Proof.
  intros Hne. split.
  { repeat split; vm_compute; reflexivity. }
  exists (processed_row df <$> df). split; [now apply process_data_nonempty|].
  split; [apply length_fmap|].
  intros i r Hi. exists (processed_row df r). split; [now apply processed_lookup|].
  cbn [processed_row decision]. unfold canonical.
  split; [|split; [|split]].
  - intros raw canon Hraw Hcanon. split.
    + rewrite Hraw. cbn. now rewrite Hcanon.
    + eapply decision_mapping_values; eassumption.
  - intros raw Hraw Hnone. rewrite Hraw. cbn. now rewrite Hnone.
  - intros ->. reflexivity.
  - intros j r2 r2' Hj Hj' Heq.
    rewrite (processed_lookup _ _ _ Hj) in Hj'. injection Hj' as <-.
    cbn [processed_row decision]. unfold canonical. now rewrite Heq.
Qed.

(** C5. Every missing gpa is replaced by the mean of the gpa column
    and every missing GRE subscore by the median of its column, the
    statistic being taken over the values that the whole table
    reports in that column; a value that is present is kept.  The
    mean is the sum of the reported values over their number; the
    median is the middle one of the reported values in increasing
    order, or half the sum of the two middle ones.  Only in a column
    without any reported value does a gap stay a gap. *)
Theorem imputation_by_column_statistics (df : DataFrame) :
  df <> [] ->
  exists df',
    process_data (Some df) = Some df'
    /\ length df' = length df
    /\ forall c i r, df !! i = Some r ->
       exists r', df' !! i = Some r'
       /\ (forall v, num_value c r = Some v -> num_value c r' = Some v)
       /\ (num_value c r = None ->
           let reported := omap (num_value c) df in
           (reported = [] -> num_value c r' = None)
           /\ (reported <> [] ->
               exists m,
                 num_value c r' = Some m
                 /\ match c with
                    | GPA => is_mean reported m
                    | _ => is_median reported m
                    end)).
Proof.
  intros Hne.
  exists (processed_row df <$> df). split; [now apply process_data_nonempty|].
  split; [apply length_fmap|].
  intros c i r Hi. exists (processed_row df r).
  split; [now apply processed_lookup|].
  assert (Hvalue : num_value c (processed_row df r)
                   = imputed (match c with
                              | GPA => Series.mean (num_value c <$> df)
                              | _ => Series.median (num_value c <$> df)
                              end) (num_value c r))
    by (destruct c; reflexivity).
  rewrite Hvalue. split.
  - intros v ->. reflexivity.
  - intros ->. cbv zeta. cbn [imputed]. rewrite <- dropna_fmap. split.
    + intros Hnone. destruct c; first [now apply mean_None|now apply median_None].
    + intros Hsome.
      destruct c; first [exact (mean_is_mean _ Hsome)|exact (median_is_median _ Hsome)].
Qed.

Lemma dropna_all_missing {A} (g : A -> option Qc) (l : list A) :
  (forall x, x ∈ l -> g x = None) -> Series.dropna (g <$> l) = [].
Proof.
  unfold Series.dropna. induction l as [|x l IH]; intros H; [reflexivity|].
  csimpl. rewrite (H x) by left. csimpl. apply IH. intros y Hy. apply H. now right.
Qed.

Lemma num_value_processed_row df c r :
  num_value c (processed_row df r)
  = imputed (match c with
             | GPA => Series.mean (num_value c <$> df)
             | _ => Series.median (num_value c <$> df)
             end) (num_value c r).
Proof. destruct c; reflexivity. Qed.

(** C10. A numeric column in which every value is missing is still
    all missing after normalization: its mean or median is itself
    undefined. *)
Theorem all_missing_column_stays_missing (df : DataFrame) (c : numcol) :
  df <> [] ->
  (forall r, r ∈ df -> num_value c r = None) ->
  exists df',
    process_data (Some df) = Some df'
    /\ length df' = length df
    /\ (match c with
        | GPA => Series.mean (num_value c <$> df)
        | _ => Series.median (num_value c <$> df)
        end) = None
    /\ forall r', r' ∈ df' -> num_value c r' = None.
Proof.
  intros Hne Hall.
  exists (processed_row df <$> df). split; [now apply process_data_nonempty|].
  split; [apply length_fmap|].
  pose proof (dropna_all_missing (num_value c) df Hall) as Hd.
  assert (Hstat : (match c with
                   | GPA => Series.mean (num_value c <$> df)
                   | _ => Series.median (num_value c <$> df)
                   end) = None).
  { destruct c; first [now apply mean_None | now apply median_None]. }
  split; [exact Hstat|].
  intros r' Hr'. apply list_elem_of_fmap in Hr' as (r & -> & Hr).
  rewrite num_value_processed_row, Hstat, (Hall r Hr). reflexivity.
Qed.

(** *** Sample tables *)

Definition sample_row (d : option string) (g v q w : option Qc) : Row :=
  {| institution := "Yale University";
     program := "Political Science";
     degree := "PhD";
     season := "F24";
     decision := d;
     gpa := g;
     gre_verbal := v;
     gre_quant := q;
     gre_writing := w;
     stats_raw := "" |}.

(** Three collected rows: one complete, one without scores, one
    with a GPA only; no row reports a writing score. *)
Definition sample_df : DataFrame :=
  [ sample_row (Some "Accepted") (Some (Q2Qc 3.8)) (Some (Q2Qc 165)) (Some (Q2Qc 168)) None;
    sample_row (Some "Pending") None None None None;
    sample_row None (Some (Q2Qc 3.5)) (Some (Q2Qc 160)) None None ].

Lemma decision_normalization_witness :
  sample_df <> [] /\
  exists df', process_data (Some sample_df) = Some df' /\ length df' = 3%nat.
Proof.
  assert (Hne : sample_df <> []) by discriminate.
  split; [exact Hne|].
  destruct (decision_normalization sample_df Hne) as [_ (df' & Hp & Hl & _)].
  exists df'. split; [exact Hp|exact Hl].
Defined.

(** The numbers of a column, as fractions in lowest terms. *)
Definition fractions (column : list (option Qc)) : list (option Q) :=
  (fun v : option Qc => this <$> v) <$> column.

Lemma imputation_by_column_statistics_witness :
  sample_df <> [] /\
  exists df',
    process_data (Some sample_df) = Some df'
    /\ fractions (gpa <$> df') = [Some (19 # 5); Some (73 # 20); Some (7 # 2)]
    /\ fractions (gre_verbal <$> df') = [Some (165 # 1); Some (325 # 2); Some (160 # 1)]
    /\ fractions (gre_quant <$> df') = [Some (168 # 1); Some (168 # 1); Some (168 # 1)]
    /\ fractions (gre_writing <$> df') = [None; None; None].
Proof.
  assert (Hne : sample_df <> []) by discriminate.
  split; [exact Hne|].
  destruct (imputation_by_column_statistics sample_df Hne) as (df' & Hp & _).
  exists df'. split; [exact Hp|].
  rewrite process_data_nonempty in Hp by exact Hne. injection Hp as <-.
  repeat split; vm_compute; reflexivity.
Defined.

Lemma sample_df_no_writing r : r ∈ sample_df -> num_value GRE_WRITING r = None.
Proof.
  unfold sample_df. rewrite !elem_of_cons, elem_of_nil.
  intros [-> | [-> | [-> | []]]]; reflexivity.
Defined.

Lemma all_missing_column_stays_missing_witness :
  sample_df <> [] /\
  (forall r, r ∈ sample_df -> num_value GRE_WRITING r = None) /\
  exists df',
    process_data (Some sample_df) = Some df'
    /\ forall r', r' ∈ df' -> num_value GRE_WRITING r' = None.
Proof.
  assert (Hne : sample_df <> []) by discriminate.
  split; [exact Hne|]. split; [exact sample_df_no_writing|].
  destruct (all_missing_column_stays_missing sample_df GRE_WRITING Hne
              sample_df_no_writing) as (df' & Hp & _ & _ & Hall).
  exists df'. split; [exact Hp|exact Hall].
Defined.

(** *** Running the normalization a second time *)

Definition fully_populated (r : Row) : Prop :=
  is_Some (gpa r) /\ is_Some (gre_verbal r)
  /\ is_Some (gre_quant r) /\ is_Some (gre_writing r).

Definition canonical_decision (r : Row) : Prop :=
  decision r ∈ (Some <$> ["Accept"; "Reject"; "Waitlist"; "Other"; "Unknown"]).

(** A collected one-row table, and what [process_data] makes of it. *)
Definition collected_df : DataFrame :=
  [ sample_row (Some "Accepted") (Some (Q2Qc 3.8)) (Some (Q2Qc 165))
      (Some (Q2Qc 168)) (Some (Q2Qc 4.5)) ].
Definition normalized_df : DataFrame :=
  [ sample_row (Some "Accept") (Some (Q2Qc 3.8)) (Some (Q2Qc 165))
      (Some (Q2Qc 168)) (Some (Q2Qc 4.5)) ].

Lemma processed_row_populated df r :
  fully_populated r ->
  processed_row df r = set_decision_value r (Some (canonical (decision r))).
Proof.
  intros ([g Hg] & [v Hv] & [q Hq] & [w Hw]).
  unfold processed_row, set_decision_value. now rewrite Hg, Hv, Hq, Hw.
Qed.

(** C6, as stated, fails: the table [normalized_df] is the
    normalization of [collected_df], it is fully populated and its
    decision is canonical, and normalizing it again turns the
    decision "Accept" into "Unknown". *)
Lemma renormalization_changes_decisions :
  process_data (Some collected_df) = Some normalized_df
  /\ Forall fully_populated normalized_df
  /\ Forall canonical_decision normalized_df
  /\ process_data (Some normalized_df) <> Some normalized_df
  /\ (fun df' : DataFrame => decision <$> df') <$> process_data (Some normalized_df)
     = Some [Some "Unknown"].
Proof.
  assert (Hpop : forall d, fully_populated
            (sample_row d (Some (Q2Qc 3.8)) (Some (Q2Qc 165))
               (Some (Q2Qc 168)) (Some (Q2Qc 4.5)))).
  { intros d. repeat split; eexists; reflexivity. }
  split; [|split; [|split; [|split]]].
  - rewrite process_data_nonempty by discriminate.
    unfold collected_df. cbn [fmap list_fmap].
    rewrite processed_row_populated by apply Hpop. reflexivity.
  - repeat constructor; eexists; reflexivity.
  - repeat constructor.
  - rewrite process_data_nonempty by discriminate.
    unfold normalized_df. cbn [fmap list_fmap].
    rewrite processed_row_populated by apply Hpop. discriminate.
  - rewrite process_data_nonempty by discriminate.
    unfold normalized_df. cbn [fmap list_fmap option_fmap option_map].
    rewrite processed_row_populated by apply Hpop. reflexivity.
Qed.

(** C6, amended. On a non-empty table without missing numeric
    values, normalization changes nothing but the decision column,
    which is mapped through the lookup table once more: "Other" and
    "Unknown" stay, "Accept", "Reject" and "Waitlist" become
    "Unknown"; so the table is unchanged when every decision is
    "Other" or "Unknown". *)
Theorem renormalization_of_populated_table (df : DataFrame) :
  df <> [] ->
  Forall fully_populated df ->
  exists df',
    process_data (Some df) = Some df'
    /\ length df' = length df
    /\ (forall i r, df !! i = Some r ->
        exists r', df' !! i = Some r'
        /\ r' = set_decision_value r (decision r')
        /\ (decision r = Some "Other" \/ decision r = Some "Unknown" -> r' = r)
        /\ (decision r = Some "Accept" \/ decision r = Some "Reject"
            \/ decision r = Some "Waitlist" -> decision r' = Some "Unknown"))
    /\ (Forall (fun r => decision r = Some "Other" \/ decision r = Some "Unknown") df ->
        df' = df).
Proof.
  intros Hne Hpop.
  assert (Hstable : forall r, fully_populated r ->
            decision r = Some "Other" \/ decision r = Some "Unknown" ->
            processed_row df r = r).
  { intros r Hr Hd. rewrite processed_row_populated by exact Hr.
    destruct r; cbn in *. destruct Hd as [-> | ->]; reflexivity. }
  exists (processed_row df <$> df). split; [now apply process_data_nonempty|].
  split; [apply length_fmap|]. split.
  - intros i r Hi. exists (processed_row df r).
    split; [now apply processed_lookup|].
    assert (Hr : fully_populated r).
    { rewrite Forall_forall in Hpop. apply Hpop.
      apply list_elem_of_lookup. now exists i. }
    split; [|split].
    + now rewrite processed_row_populated.
    + now apply Hstable.
    + cbn [processed_row decision].
      intros [-> | [-> | ->]]; reflexivity.
  - intros Hd. transitivity (id <$> df); [|apply list_fmap_id].
    apply list_fmap_ext. intros i r Hi.
    assert (Hin : r ∈ df) by (apply list_elem_of_lookup; now exists i).
    rewrite Forall_forall in Hpop, Hd. apply Hstable; auto.
Qed.

Definition settled_df : DataFrame :=
  [ sample_row (Some "Other") (Some (Q2Qc 3.8)) (Some (Q2Qc 165))
      (Some (Q2Qc 168)) (Some (Q2Qc 4.5));
    sample_row (Some "Accept") (Some (Q2Qc 3.5)) (Some (Q2Qc 160))
      (Some (Q2Qc 170)) (Some (Q2Qc 5)) ].

Lemma renormalization_of_populated_table_witness :
  settled_df <> [] /\ Forall fully_populated settled_df /\
  exists df', process_data (Some settled_df) = Some df' /\ length df' = 2%nat.
Proof.
  assert (Hne : settled_df <> []) by discriminate.
  assert (Hpop : Forall fully_populated settled_df).
  { repeat constructor; eexists; reflexivity. }
  split; [exact Hne|]. split; [exact Hpop|].
  destruct (renormalization_of_populated_table settled_df Hne Hpop)
    as (df' & Hp & Hl & _).
  exists df'. split; [exact Hp|exact Hl].
Defined.

End Normalization.

(** ** Text *)

Section TextFacts.
Import Py.

Lemma append_nil_l (b : string) : "" +:+ b = b.
Proof. reflexivity. Qed.

Lemma append_cons (x : ascii) (a b : string) :
  String x a +:+ b = String x (a +:+ b).
Proof. reflexivity. Qed.

Lemma append_assoc (a b c : string) : (a +:+ b) +:+ c = a +:+ (b +:+ c).
Proof.
  induction a as [|x a IH]; [reflexivity|].
  rewrite !append_cons. now f_equal.
Qed.

Lemma append_nil_r (a : string) : a +:+ "" = a.
Proof.
  induction a as [|x a IH]; [reflexivity|].
  rewrite append_cons. now f_equal.
Qed.

Lemma length_append (a b : string) :
  String.length (a +:+ b) = (String.length a + String.length b)%nat.
Proof.
  induction a as [|x a IH]; [reflexivity|].
  rewrite append_cons. cbn [String.length]. now rewrite IH.
Qed.

Lemma substring_prefix (a b : string) :
  String.substring 0 (String.length a) (a +:+ b) = a.
Proof.
  induction a as [|x a IH].
  - destruct b; reflexivity.
  - rewrite append_cons. cbn [String.length String.substring]. now f_equal.
Qed.

Lemma consumed_append (a b : string) : Re.consumed (a +:+ b) b = a.
Proof.
  unfold Re.consumed. rewrite length_append.
  replace (String.length a + String.length b - String.length b)%nat
    with (String.length a) by lia.
  apply substring_prefix.
Qed.

(** Every character of the text satisfies [f]. *)
Fixpoint every (f : ascii -> bool) (s : string) : bool :=
  match s with
  | EmptyString => true
  | String c s' => f c && every f s'
  end.

(** The text does not begin with a character satisfying [f]. *)
Definition not_starting (f : ascii -> bool) (s : string) : Prop :=
  match s with
  | EmptyString => True
  | String c _ => f c = false
  end.

(** The longest prefix whose characters satisfy [f], and the rest. *)
Fixpoint span (f : ascii -> bool) (s : string) : string * string :=
  match s with
  | EmptyString => (EmptyString, EmptyString)
  | String c s' =>
      if f c then let (a, b) := span f s' in (String c a, b)
      else (EmptyString, s)
  end.

Lemma span_spec f s a b :
  span f s = (a, b) -> s = a +:+ b /\ every f a = true /\ not_starting f b.
Proof.
  revert a b. induction s as [|c s IH]; intros a b; simpl.
  - intros [= <- <-]. repeat split.
  - destruct (f c) eqn:Hc.
    + destruct (span f s) as [a' b'].
      intros [= <- <-]. destruct (IH a' b' eq_refl) as (-> & Ha & Hb).
      rewrite append_cons. cbn [every]. rewrite Hc, Ha. repeat split. exact Hb.
    + intros [= <- <-]. repeat split. exact Hc.
Qed.

Lemma span_append f a b :
  every f a = true -> not_starting f b -> span f (a +:+ b) = (a, b).
Proof.
  intros Ha Hb. induction a as [|c a IH].
  - rewrite append_nil_l. destruct b as [|c b]; simpl in *; [reflexivity|].
    now rewrite Hb.
  - cbn [every] in Ha. apply andb_prop in Ha as [Hc Ha].
    rewrite append_cons. cbn [span]. now rewrite Hc, (IH Ha).
Qed.

(** The two texts are equal once lower-cased. *)
Fixpoint same_nocase (a b : string) : bool :=
  match a, b with
  | EmptyString, EmptyString => true
  | String x a', String y b' => Ascii.eqb (lower x) (lower y) && same_nocase a' b'
  | _, _ => false
  end.

(** The 26 letters that have two cases: each capital with its small
    form. *)
Definition case_pairs : list (ascii * ascii) :=
  zip (list_ascii_of_string "ABCDEFGHIJKLMNOPQRSTUVWXYZ")
      (list_ascii_of_string "abcdefghijklmnopqrstuvwxyz").

(** The same character up to case: the very same character, or the
    capital and the small form of one letter. *)
Definition same_letter (a b : ascii) : Prop :=
  a = b \/ (a, b) ∈ case_pairs \/ (b, a) ∈ case_pairs.

(** [text] spells [word] up to case: character by character the
    same up to case, and of the same length. *)
Fixpoint spells (word text : string) : Prop :=
  match word, text with
  | EmptyString, EmptyString => True
  | String a word', String b text' => same_letter a b /\ spells word' text'
  | _, _ => False
  end.

Definition paired (a b : ascii) : bool :=
  existsb (fun p : ascii * ascii => Ascii.eqb p.1 a && Ascii.eqb p.2 b) case_pairs.

Lemma paired_spec a b : paired a b = true <-> (a, b) ∈ case_pairs.
Proof.
  unfold paired. rewrite existsb_exists, list_elem_of_In. split.
  - intros ([x y] & Hin & Hxy). apply andb_prop in Hxy as [Hx Hy].
    apply Ascii.eqb_eq in Hx, Hy. cbn in Hx, Hy. now subst.
  - intros Hin. exists (a, b). split; [exact Hin|].
    cbn. now rewrite !Ascii.eqb_refl.
Qed.

Definition all_ascii : list ascii := ascii_of_nat <$> seq 0 256.

Lemma all_ascii_complete c : In c all_ascii.
Proof.
  apply list_elem_of_In, list_elem_of_fmap. exists (nat_of_ascii c).
  split; [symmetry; apply ascii_nat_embedding|].
  apply elem_of_seq. pose proof (nat_ascii_bounded c). lia.
Qed.

(** Lower-casing identifies exactly the characters that are the same
    up to case; checked on all pairs of characters. *)
Lemma lower_same_letter a b :
  Ascii.eqb (lower a) (lower b) = true <-> same_letter a b.
Proof.
  assert (Hall : forallb (fun x => forallb (fun y =>
                    Bool.eqb (Ascii.eqb (lower x) (lower y))
                             (Ascii.eqb x y || paired x y || paired y x))
                    all_ascii) all_ascii = true)
    by (vm_compute; reflexivity).
  rewrite forallb_forall in Hall. specialize (Hall a (all_ascii_complete a)).
  rewrite forallb_forall in Hall. specialize (Hall b (all_ascii_complete b)).
  apply Bool.eqb_prop in Hall. rewrite Hall.
  unfold same_letter. rewrite !orb_true_iff, Ascii.eqb_eq, !paired_spec. tauto.
Qed.

Lemma same_nocase_spells a b : same_nocase a b = true <-> spells a b.
Proof.
  revert b. induction a as [|x a IH]; intros [|y b]; cbn [same_nocase spells];
    try (split; [discriminate|contradiction]); [easy|].
  now rewrite andb_true_iff, lower_same_letter, IH.
Qed.

(** What follows the text when it begins, up to case, with
    [label]. *)
Fixpoint after_label (label s : string) : option string :=
  match label, s with
  | EmptyString, _ => Some s
  | String a label', String c s' =>
      if Ascii.eqb (lower a) (lower c) then after_label label' s' else None
  | String _ _, EmptyString => None
  end.

Lemma after_label_same_nocase label s rest :
  after_label label s = Some rest <->
  exists lbl, s = lbl +:+ rest /\ same_nocase label lbl = true.
Proof.
  revert s. induction label as [|a label IH]; intros s; simpl.
  - split.
    + intros [= ->]. exists EmptyString. split; reflexivity.
    + intros (lbl & -> & Hl). destruct lbl; [reflexivity|discriminate].
  - destruct s as [|c s].
    + split; [discriminate|]. intros (lbl & Hs & Hl).
      destruct lbl; [discriminate|]. discriminate.
    + destruct (Ascii.eqb (lower a) (lower c)) eqn:Hc.
      * rewrite IH. split.
        -- intros (lbl & -> & Hl). exists (String c lbl).
           rewrite append_cons. cbn [same_nocase]. now rewrite Hc, Hl.
        -- intros (lbl & Hs & Hl). destruct lbl as [|y lbl]; [discriminate|].
           rewrite append_cons in Hs. injection Hs as <- ->.
           apply andb_prop in Hl as [_ Hl]. now exists lbl.
      * split; [discriminate|]. intros (lbl & Hs & Hl).
        destruct lbl as [|y lbl]; [discriminate|].
        rewrite append_cons in Hs. injection Hs as <- ->.
        cbn [same_nocase] in Hl. now rewrite Hc in Hl.
Qed.

Lemma after_label_Some label s rest :
  after_label label s = Some rest <->
  exists lbl, s = lbl +:+ rest /\ spells label lbl.
Proof.
  rewrite after_label_same_nocase.
  split; intros (lbl & Hs & Hl); exists lbl; (split; [exact Hs|]);
    now apply same_nocase_spells.
Qed.

(** [sub] occurs in [s] up to the case of the letters. *)
Definition occurs_anycase (sub s : string) : Prop :=
  exists pre mid post, s = pre +:+ mid +:+ post /\ spells sub mid.

End TextFacts.

(** ** The regular expressions of [parse_stats] *)

Section RegexFacts.
Import Py Re fetch_data.

Definition colon_or_space : ascii -> bool := atom_matches ColonSpace.

Lemma colon_or_space_not_digit c : colon_or_space c = true -> isdigit c = false.
Proof.
  destruct c as [[] [] [] [] [] [] [] []]; vm_compute; congruence.
Qed.

Lemma lit_dot_matches c : atom_matches (Lit ".") c = Ascii.eqb c ".".
Proof. destruct c as [[] [] [] [] [] [] [] []]; reflexivity. Qed.

Lemma digit_not_dot c : isdigit c = true -> Ascii.eqb c "." = false.
Proof. destruct c as [[] [] [] [] [] [] [] []]; vm_compute; congruence. Qed.

Lemma match_here_lits label p s g :
  match_here (lits label ++ p) s g
  = after_label label s ≫= (fun rest => match_here p rest g).
Proof.
  revert s. induction label as [|a label IH]; intros s; [reflexivity|].
  destruct s as [|c s]; [reflexivity|].
  cbn [lits app match_here after_label atom_matches].
  destruct (Ascii.eqb (lower a) (lower c)); [apply IH|reflexivity].
Qed.

Lemma match_here_plus_cons a p c s g :
  match_here (Plus a :: p) (String c s) g
  = if atom_matches a c
    then match match_here (Plus a :: p) s g with
         | Some r => Some r
         | None => match_here p s g
         end
    else None.
Proof. reflexivity. Qed.

(** A greedy [+] ends at the end of the longest run when the rest
    of the pattern either cannot begin with a character of the run
    or cannot fail. *)
Lemma match_here_plus a p s g :
  (forall c u, atom_matches a c = true -> match_here p (String c u) g = None)
  \/ (forall t, is_Some (match_here p t g)) ->
  match_here (Plus a :: p) s g
  = match span (atom_matches a) s with
    | (EmptyString, _) => None
    | (_, rest) => match_here p rest g
    end.
Proof.
  intros Hp. induction s as [|c s IH]; [reflexivity|].
  rewrite match_here_plus_cons. cbn [span].
  destruct (atom_matches a c) eqn:Hc; [|reflexivity].
  rewrite IH. destruct (span (atom_matches a) s) as [run rest] eqn:Hspan.
  destruct run as [|c' run].
  - apply span_spec in Hspan as (-> & _ & _). reflexivity.
  - destruct (match_here p rest g) as [r|] eqn:Hr; [reflexivity|].
    apply span_spec in Hspan as (-> & Hrun & _).
    destruct Hp as [Hp|Hp].
    + cbn [every] in Hrun. apply andb_prop in Hrun as [Hc' _].
      rewrite append_cons. now apply Hp.
    + destruct (Hp rest) as [r Hr']. congruence.
Qed.

(** Group 1 of a match of [LABEL[:\s]+(\d\.\d+)] at the start of the
    text. *)
Definition decimal_here (label s : string) : option string :=
  rest0 ← after_label label s;
  match span colon_or_space rest0 with
  | (EmptyString, _) => None
  | (_, String d (String dot rest2)) =>
      if isdigit d && Ascii.eqb dot "."
      then match span isdigit rest2 with
           | (EmptyString, _) => None
           | (frac, _) => Some (String d (String dot frac))
           end
      else None
  | (_, _) => None
  end.

(** Group 1 of a match of [LABEL[:\s]+(\d+)] at the start of the
    text. *)
Definition integer_here (label s : string) : option string :=
  rest0 ← after_label label s;
  match span colon_or_space rest0 with
  | (EmptyString, _) => None
  | (_, rest1) =>
      match span isdigit rest1 with
      | (EmptyString, _) => None
      | (digits, _) => Some digits
      end
  end.

Lemma match_here_one a p c s g :
  match_here (One a :: p) (String c s) g
  = if atom_matches a c then match_here p s g else None.
Proof. reflexivity. Qed.

Lemma match_here_open p s g :
  match_here (GroupOpen :: p) s g
  = match_here p s {| g_open := Some s; g_text := g_text g |}.
Proof. reflexivity. Qed.

Lemma match_here_close s from g :
  match_here [GroupClose] s {| g_open := Some from; g_text := g |}
  = Some {| g_open := Some from; g_text := Some (consumed from s) |}.
Proof. reflexivity. Qed.

Lemma match_here_close_Some s g : is_Some (match_here [GroupClose] s g).
Proof. cbn. eauto. Qed.

Lemma match_here_decimal label s :
  g_text <$> match_here (decimal_after label) s no_groups
  = Some <$> decimal_here label s.
Proof.
  unfold decimal_after, decimal_here. rewrite match_here_lits.
  destruct (after_label label s) as [rest0|]; [|reflexivity].
  cbn [mbind option_bind].
  rewrite match_here_plus.
  2:{ left. intros c u Hc. rewrite match_here_open, match_here_one.
      cbn [atom_matches]. now rewrite (colon_or_space_not_digit c Hc). }
  change (atom_matches ColonSpace) with colon_or_space.
  destruct (span colon_or_space rest0) as [sep rest1].
  destruct sep as [|c0 sep]; [reflexivity|].
  rewrite match_here_open.
  destruct rest1 as [|d rest1]; [reflexivity|].
  rewrite match_here_one. cbn [atom_matches].
  destruct (isdigit d); [|now destruct rest1].
  destruct rest1 as [|dot rest2]; [reflexivity|].
  rewrite match_here_one, lit_dot_matches.
  destruct (Ascii.eqb dot ".") eqn:Hdot; [|reflexivity].
  cbn [andb].
  rewrite match_here_plus by (right; intros t; apply match_here_close_Some).
  change (atom_matches Digit) with isdigit.
  destruct (span isdigit rest2) as [frac rest3] eqn:Hspan.
  destruct frac as [|f0 frac]; [reflexivity|].
  apply span_spec in Hspan as (-> & _ & _).
  rewrite match_here_close.
  cbn [g_text fmap option_fmap option_map].
  f_equal. f_equal.
  exact (consumed_append (String d (String dot (String f0 frac))) rest3).
Qed.

Lemma match_here_integer label s :
  g_text <$> match_here (integer_after label) s no_groups
  = Some <$> integer_here label s.
Proof.
  unfold integer_after, integer_here. rewrite match_here_lits.
  destruct (after_label label s) as [rest0|]; [|reflexivity].
  cbn [mbind option_bind].
  rewrite match_here_plus.
  2:{ left. intros c u Hc. rewrite match_here_open, match_here_plus_cons.
      cbn [atom_matches]. now rewrite (colon_or_space_not_digit c Hc). }
  change (atom_matches ColonSpace) with colon_or_space.
  destruct (span colon_or_space rest0) as [sep rest1].
  destruct sep as [|c0 sep]; [reflexivity|].
  rewrite match_here_open.
  rewrite match_here_plus by (right; intros t; apply match_here_close_Some).
  change (atom_matches Digit) with isdigit.
  destruct (span isdigit rest1) as [digits rest2] eqn:Hspan.
  destruct digits as [|f0 digits]; [reflexivity|].
  apply span_spec in Hspan as (-> & _ & _).
  rewrite match_here_close.
  cbn [g_text fmap option_fmap option_map].
  f_equal. f_equal.
  exact (consumed_append (String f0 digits) rest2).
Qed.

End RegexFacts.

(** ** parse_stats *)

Section ParseStats.
Import Py Re fetch_data.

(** The first suffix of the text, from the left, on which [f]
    answers. *)
Fixpoint first_match (f : string -> option string) (s : string) : option string :=
  match f s with
  | Some v => Some v
  | None =>
      match s with
      | String _ s' => first_match f s'
      | EmptyString => None
      end
  end.

Lemma search_first_match p f s :
  (forall t, g_text <$> match_here p t no_groups = Some <$> f t) ->
  g_text <$> search p s = Some <$> first_match f s.
Proof.
  intros Hp. induction s as [|c s IH]; cbn [search first_match].
  - specialize (Hp EmptyString).
    destruct (match_here p "" no_groups), (f ""); try discriminate; exact Hp.
  - specialize (Hp (String c s)).
    destruct (match_here p (String c s) no_groups), (f (String c s));
      try discriminate; [exact Hp|exact IH].
Qed.

Lemma first_match_Some f s v :
  first_match f s = Some v <->
  exists pre rest,
    s = pre +:+ rest /\ f rest = Some v
    /\ forall pre1 pre2, pre = pre1 +:+ pre2 -> pre2 <> EmptyString ->
       f (pre2 +:+ rest) = None.
Proof.
  split.
  - induction s as [|c s IH]; cbn [first_match].
    + destruct (f "") eqn:Hf; [|discriminate]. intros [= ->].
      exists EmptyString, EmptyString. repeat split; [exact Hf|].
      intros pre1 pre2 Hpre Hne. destruct pre1, pre2; try discriminate.
      congruence.
    + destruct (f (String c s)) eqn:Hf.
      * intros [= ->]. exists EmptyString, (String c s).
        repeat split; [exact Hf|].
        intros pre1 pre2 Hpre Hne. destruct pre1, pre2; try discriminate.
        congruence.
      * intros Hs. destruct (IH Hs) as (pre & rest & -> & Hrest & Hearlier).
        exists (String c pre), rest. repeat split; [exact Hrest|].
        intros pre1 pre2 Hpre Hne. destruct pre1 as [|c1 pre1].
        -- rewrite append_nil_l in Hpre. subst pre2. exact Hf.
        -- rewrite append_cons in Hpre. injection Hpre as -> ->.
           now apply (Hearlier pre1 pre2).
  - intros (pre & rest & -> & Hrest & Hearlier).
    induction pre as [|c pre IH].
    + rewrite append_nil_l. destruct rest; cbn [first_match]; now rewrite Hrest.
    + rewrite append_cons. cbn [first_match].
      rewrite <- append_cons, (Hearlier EmptyString (String c pre)) by easy.
      apply IH. intros pre1 pre2 -> Hne.
      now apply (Hearlier (String c pre1) pre2).
Qed.

Lemma first_match_None f s :
  first_match f s = None <-> forall pre rest, s = pre +:+ rest -> f rest = None.
Proof.
  split.
  - induction s as [|c s IH]; cbn [first_match].
    + destruct (f "") eqn:Hf; [discriminate|]. intros _ pre rest Hs.
      destruct pre, rest; try discriminate. exact Hf.
    + destruct (f (String c s)) eqn:Hf; [discriminate|]. intros Hs pre rest Hpre.
      destruct pre as [|c1 pre].
      * rewrite append_nil_l in Hpre. now subst rest.
      * rewrite append_cons in Hpre. injection Hpre as -> ->.
        now apply (IH Hs pre rest).
  - intros Hall. induction s as [|c s IH]; cbn [first_match].
    + now rewrite (Hall EmptyString EmptyString).
    + rewrite (Hall EmptyString (String c s)) by reflexivity.
      apply IH. intros pre rest ->. now apply (Hall (String c pre) rest).
Qed.

(** What each step of [parse_stats] amounts to. *)
Lemma field_first_match {A} p f (conv : string -> result A) s :
  (forall t, g_text <$> match_here p t no_groups = Some <$> f t) ->
  field p conv s
  = match first_match f s with
    | Some v => rbind (conv v) (fun x => Ok (Some x))
    | None => Ok None
    end.
Proof.
  intros Hp. pose proof (search_first_match p f s Hp) as Hs. unfold field.
  destruct (search p s) as [g|], (first_match f s) as [v|]; try discriminate.
  - injection Hs as Hg. unfold group1. now rewrite Hg.
  - reflexivity.
Qed.

(** *** The numerals and their conversion *)

(** A digit, a dot, one or more digits. *)
Definition decimal_numeral (v : string) : Prop :=
  exists d frac,
    v = String d (String "." frac)
    /\ isdigit d = true /\ frac <> EmptyString /\ every isdigit frac = true.

(** One or more digits. *)
Definition integer_numeral (v : string) : Prop :=
  v <> EmptyString /\ every isdigit v = true.

(** The number that a digit stands for. *)
Definition digit_number (c : ascii) : Z :=
  match c with
  | "1"%char => 1
  | "2"%char => 2
  | "3"%char => 3
  | "4"%char => 4
  | "5"%char => 5
  | "6"%char => 6
  | "7"%char => 7
  | "8"%char => 8
  | "9"%char => 9
  | _ => 0
  end.

(** The number that a run of digits denotes: a digit counts for as
    many tens as there are digits after it. *)
Fixpoint numeral_value (v : string) : Z :=
  match v with
  | EmptyString => 0
  | String c v' =>
      digit_number c * 10 ^ Z.of_nat (String.length v') + numeral_value v'
  end.

(** The number that a decimal numeral denotes: the numeral read
    without its dot, over ten to the number of digits after the
    dot; 3.80 is 380 / 100. *)
Definition decimal_value (v : string) : Qc :=
  match v with
  | String d (String _ frac) =>
      Q2Qc (inject_Z (numeral_value (String d frac))
            / inject_Z (10 ^ Z.of_nat (String.length frac)))
  | _ => Q2Qc 0
  end.

Lemma digit_value_number c : isdigit c = true -> digit_value c = digit_number c.
Proof. destruct c as [[] [] [] [] [] [] [] []]; vm_compute; congruence. Qed.

Lemma digits_from_value acc s :
  every isdigit s = true ->
  digits_from acc s
  = Some (acc * 10 ^ Z.of_nat (String.length s) + numeral_value s).
Proof.
  revert acc. induction s as [|c s IH]; intros acc Hs;
    cbn [digits_from numeral_value String.length].
  - f_equal. cbn [Z.of_nat]. rewrite Z.pow_0_r. lia.
  - cbn [every] in Hs. apply andb_prop in Hs as [Hc Hs].
    rewrite Hc, (IH _ Hs), (digit_value_number c Hc). f_equal.
    rewrite Nat2Z.inj_succ, Z.pow_succ_r by lia. ring.
Qed.

Lemma digits_from_every acc s :
  every isdigit s = true -> exists n, digits_from acc s = Some n.
Proof. intros Hs. eexists. now apply digits_from_value. Qed.

(** [int] of a run of digits is the number it denotes, unless the
    run is longer than the interpreter accepts. *)
Lemma int_integer_numeral v :
  integer_numeral v ->
  int v = if INT_MAX_STR_DIGITS <? Z.of_nat (String.length v)
          then Raised else Ok (numeral_value v).
Proof.
  intros [Hne Hv]. unfold int.
  rewrite (digits_from_value 0 v Hv), Z.mul_0_l, Z.add_0_l.
  now destruct v.
Qed.

(** [float] of a decimal numeral is the digit before the dot plus
    the digits after it over the matching power of ten. *)
Lemma float_decimal d frac n :
  isdigit d = true -> frac <> EmptyString -> digits_from 0 frac = Some n ->
  float (String d (String "." frac))
  = Ok (Q2Qc (inject_Z (digit_value d)
              + inject_Z n / inject_Z (10 ^ Z.of_nat (String.length frac)))).
Proof.
  intros Hd Hne Hn. unfold float. cbn [split_dot].
  rewrite (digit_not_dot d Hd). cbn [Ascii.eqb Bool.eqb split_dot].
  destruct frac as [|f0 frac]; [congruence|].
  rewrite Hn. cbn [digits_from]. rewrite Hd. reflexivity.
Qed.

(** [float] of a decimal numeral never raises, and is the number the
    numeral denotes. *)
Lemma float_decimal_numeral v : decimal_numeral v -> float v = Ok (decimal_value v).
Proof.
  intros (d & frac & -> & Hd & Hne & Hfrac).
  rewrite (float_decimal d frac _ Hd Hne (digits_from_value 0 frac Hfrac)).
  f_equal. unfold decimal_value. apply Q2Qc_eq_iff.
  cbn [numeral_value]. rewrite (digit_value_number d Hd), Z.mul_0_l, Z.add_0_l.
  set (P := 10 ^ Z.of_nat (String.length frac)).
  assert (HP : ~ (inject_Z P == 0)%Q).
  { intros H. apply (inject_Z_injective P 0) in H.
    assert (0 < P) by (apply Z.pow_pos_nonneg; lia). lia. }
  rewrite inject_Z_plus, inject_Z_mult. field. exact HP.
Qed.

(** *** What the patterns recognize *)

(** The text begins with the label in any case, one or more colons
    or white-space characters, and a numeral [v] that no further
    digit follows. *)
Definition recognized (numeral : string -> Prop) (label s v : string) : Prop :=
  exists lbl sep post,
    s = lbl +:+ sep +:+ v +:+ post
    /\ spells label lbl
    /\ sep <> EmptyString /\ every colon_or_space sep = true
    /\ numeral v
    /\ not_starting isdigit post.

(** The place [rest] is the first of the text [pre +:+ rest] at which
    the label is followed by a numeral. *)
Definition first_recognized (numeral : string -> Prop) (label pre rest : string) : Prop :=
  forall pre1 pre2 v', pre = pre1 +:+ pre2 -> pre2 <> EmptyString ->
                       ~ recognized numeral label (pre2 +:+ rest) v'.

(** The pattern of the label reads [v] in the text: [v] is the
    numeral at the first place, from the left, where the label is
    followed by one. *)
Definition reads (numeral : string -> Prop) (label s v : string) : Prop :=
  exists pre rest,
    s = pre +:+ rest
    /\ recognized numeral label rest v
    /\ first_recognized numeral label pre rest.

Lemma not_starting_digit_colon_or_space d rest :
  isdigit d = true -> not_starting colon_or_space (String d rest).
Proof.
  intros Hd. cbn [not_starting]. destruct (colon_or_space d) eqn:Hc; [|reflexivity].
  apply colon_or_space_not_digit in Hc. congruence.
Qed.

Lemma decimal_here_recognized label s v :
  decimal_here label s = Some v <-> recognized decimal_numeral label s v.
Proof.
  unfold decimal_here. split.
  - intros H. apply bind_Some in H as (rest0 & Hlbl & H).
    apply after_label_Some in Hlbl as (lbl & -> & Hlbl).
    destruct (span colon_or_space rest0) as [sep rest1] eqn:Hsep.
    apply span_spec in Hsep as (-> & Hsep & _).
    destruct sep as [|c0 sep]; [discriminate|].
    destruct rest1 as [|d [|dot rest2]]; try discriminate.
    destruct (isdigit d) eqn:Hd; [|discriminate].
    destruct (Ascii.eqb dot ".") eqn:Hdot; [|discriminate].
    apply Ascii.eqb_eq in Hdot as ->. cbn [andb] in H.
    destruct (span isdigit rest2) as [frac post] eqn:Hfrac.
    apply span_spec in Hfrac as (-> & Hfrac & Hpost).
    destruct frac as [|f0 frac]; [discriminate|]. injection H as <-.
    exists lbl, (String c0 sep), post. repeat split; try easy.
    exists d, (String f0 frac). repeat split; easy.
  - intros (lbl & sep & post & -> & Hlbl & Hne & Hsep
            & (d & frac & -> & Hd & Hfne & Hfrac) & Hpost).
    assert (Hl : after_label label (lbl +:+ sep +:+ String d (String "." frac) +:+ post)
                 = Some (sep +:+ String d (String "." frac) +:+ post)).
    { apply after_label_Some. now exists lbl. }
    rewrite Hl. cbn [mbind option_bind].
    rewrite !append_cons.
    rewrite (span_append colon_or_space sep _ Hsep
               (not_starting_digit_colon_or_space d _ Hd)).
    destruct sep as [|c0 sep]; [congruence|].
    rewrite Hd. cbn [andb Ascii.eqb Bool.eqb].
    rewrite (span_append isdigit frac post Hfrac Hpost).
    now destruct frac.
Qed.

Lemma integer_here_recognized label s v :
  integer_here label s = Some v <-> recognized integer_numeral label s v.
Proof.
  unfold integer_here. split.
  - intros H. apply bind_Some in H as (rest0 & Hlbl & H).
    apply after_label_Some in Hlbl as (lbl & -> & Hlbl).
    destruct (span colon_or_space rest0) as [sep rest1] eqn:Hsep.
    apply span_spec in Hsep as (-> & Hsep & _).
    destruct sep as [|c0 sep]; [discriminate|].
    destruct (span isdigit rest1) as [digits post] eqn:Hdigits.
    apply span_spec in Hdigits as (-> & Hdigits & Hpost).
    destruct digits as [|f0 digits]; [discriminate|]. injection H as <-.
    exists lbl, (String c0 sep), post. repeat split; easy.
  - intros (lbl & sep & post & -> & Hlbl & Hne & Hsep & (Hvne & Hv) & Hpost).
    assert (Hl : after_label label (lbl +:+ sep +:+ v +:+ post)
                 = Some (sep +:+ v +:+ post)).
    { apply after_label_Some. now exists lbl. }
    rewrite Hl. cbn [mbind option_bind].
    destruct v as [|d v]; [congruence|].
    cbn [every] in Hv. pose proof Hv as Hv'. apply andb_prop in Hv' as [Hd _].
    rewrite !append_cons.
    rewrite (span_append colon_or_space sep _ Hsep
               (not_starting_digit_colon_or_space d _ Hd)).
    destruct sep as [|c0 sep]; [congruence|].
    rewrite <- append_cons.
    now rewrite (span_append isdigit (String d v) post Hv Hpost).
Qed.

(** The leftmost answer of a recognizer is what the pattern reads. *)
Lemma first_match_reads (numeral : string -> Prop) f label s v :
  (forall t w, f t = Some w <-> recognized numeral label t w) ->
  first_match f s = Some v <-> reads numeral label s v.
Proof.
  intros Hf. rewrite first_match_Some. unfold reads, first_recognized. split.
  - intros (pre & rest & -> & Hrest & Hearlier). exists pre, rest.
    split; [reflexivity|]. split; [now apply Hf|].
    intros pre1 pre2 v' Hpre Hne Hrec. apply Hf in Hrec.
    rewrite (Hearlier pre1 pre2 Hpre Hne) in Hrec. discriminate.
  - intros (pre & rest & -> & Hrec & Hfirst). exists pre, rest.
    split; [reflexivity|]. split; [now apply Hf|].
    intros pre1 pre2 Hpre Hne.
    destruct (f (pre2 +:+ rest)) as [v'|] eqn:Hv'; [|reflexivity].
    apply Hf in Hv'. now destruct (Hfirst pre1 pre2 v' Hpre Hne).
Qed.

Lemma first_match_reads_decimal label s v :
  first_match (decimal_here label) s = Some v <-> reads decimal_numeral label s v.
Proof. apply first_match_reads. intros t w. apply decimal_here_recognized. Qed.

Lemma first_match_reads_integer label s v :
  first_match (integer_here label) s = Some v <-> reads integer_numeral label s v.
Proof. apply first_match_reads. intros t w. apply integer_here_recognized. Qed.

(** *** The four fields *)

(** [int] accepts what the two integer patterns read in the text:
    neither numeral has more than 4300 digits. *)
Definition int_readable (s : string) : Prop :=
  forall label v,
    label = "GRE Verbal" \/ label = "GRE Quantitative" ->
    reads integer_numeral label s v ->
    Z.of_nat (String.length v) <= 4300.

Definition short_enough (o : option string) : bool :=
  match o with
  | Some v => Z.of_nat (String.length v) <=? 4300
  | None => true
  end.

Lemma int_readable_spec s :
  int_readable s <->
  short_enough (first_match (integer_here "GRE Verbal") s)
  && short_enough (first_match (integer_here "GRE Quantitative") s) = true.
Proof.
  rewrite andb_true_iff. unfold int_readable. split.
  - intros H. split.
    + destruct (first_match (integer_here "GRE Verbal") s) as [v|] eqn:Hv;
        [|reflexivity].
      apply first_match_reads_integer in Hv. apply Z.leb_le.
      apply (H "GRE Verbal"); [now left|exact Hv].
    + destruct (first_match (integer_here "GRE Quantitative") s) as [v|] eqn:Hv;
        [|reflexivity].
      apply first_match_reads_integer in Hv. apply Z.leb_le.
      apply (H "GRE Quantitative"); [now right|exact Hv].
  - intros [Hverbal Hquant] label v [-> | ->] Hv;
      apply first_match_reads_integer in Hv.
    + rewrite Hv in Hverbal. now apply Z.leb_le.
    + rewrite Hv in Hquant. now apply Z.leb_le.
Qed.

Lemma first_match_numeral (numeral : string -> Prop) f s v :
  (forall t w, f t = Some w -> numeral w) -> first_match f s = Some v -> numeral v.
Proof.
  intros Hf Hs. apply first_match_Some in Hs as (pre & rest & _ & Hrest & _).
  exact (Hf rest v Hrest).
Qed.

Lemma decimal_here_numeral label t w :
  decimal_here label t = Some w -> decimal_numeral w.
Proof.
  intros Hw. apply decimal_here_recognized in Hw.
  now destruct Hw as (? & ? & ? & _ & _ & _ & _ & Hw & _).
Qed.

Lemma integer_here_numeral label t w :
  integer_here label t = Some w -> integer_numeral w.
Proof.
  intros Hw. apply integer_here_recognized in Hw.
  now destruct Hw as (? & ? & ? & _ & _ & _ & _ & Hw & _).
Qed.

Lemma field_decimal label s :
  field (decimal_after label) float s
  = Ok (decimal_value <$> first_match (decimal_here label) s).
Proof.
  rewrite (field_first_match _ (decimal_here label))
    by (intros t; apply match_here_decimal).
  destruct (first_match (decimal_here label) s) as [v|] eqn:Hv; [|reflexivity].
  apply (first_match_numeral decimal_numeral) in Hv;
    [|apply decimal_here_numeral].
  now rewrite (float_decimal_numeral v Hv).
Qed.

Lemma field_integer label s :
  field (integer_after label) int s
  = if short_enough (first_match (integer_here label) s)
    then Ok (numeral_value <$> first_match (integer_here label) s)
    else Raised.
Proof.
  rewrite (field_first_match _ (integer_here label))
    by (intros t; apply match_here_integer).
  destruct (first_match (integer_here label) s) as [v|] eqn:Hv; [|reflexivity].
  apply (first_match_numeral integer_numeral) in Hv;
    [|apply integer_here_numeral].
  rewrite (int_integer_numeral v Hv). cbn [short_enough].
  unfold INT_MAX_STR_DIGITS. rewrite (Z.leb_antisym 4300).
  now destruct (4300 <? Z.of_nat (String.length v)).
Qed.

(** The four fields, each found by its own pattern alone. *)
Definition parsed (s : string) : Stats :=
  {| stats_gpa := decimal_value <$> first_match (decimal_here "GPA") s;
     stats_gre_verbal :=
       numeral_value <$> first_match (integer_here "GRE Verbal") s;
     stats_gre_quant :=
       numeral_value <$> first_match (integer_here "GRE Quantitative") s;
     stats_gre_writing :=
       decimal_value <$> first_match (decimal_here "GRE Analytical Writing") s |}.

Lemma parse_stats_fields s :
  parse_stats s
  = if short_enough (first_match (integer_here "GRE Verbal") s)
       && short_enough (first_match (integer_here "GRE Quantitative") s)
    then Ok (parsed s) else Raised.
Proof.
  unfold parse_stats, gpa_re, gre_v_re, gre_q_re, gre_w_re.
  rewrite !field_decimal, !field_integer. cbn [rbind].
  destruct (short_enough (first_match (integer_here "GRE Verbal") s));
    [|reflexivity].
  destruct (short_enough (first_match (integer_here "GRE Quantitative") s));
    reflexivity.
Qed.

(** [parse_stats] returns exactly when [int] accepts the numerals of
    the two integer patterns, and raises otherwise. *)
Lemma parse_stats_readable s : int_readable s -> parse_stats s = Ok (parsed s).
Proof. intros H. apply int_readable_spec in H. now rewrite parse_stats_fields, H. Qed.

Lemma parse_stats_Raised s : parse_stats s = Raised <-> ~ int_readable s.
Proof.
  rewrite int_readable_spec, parse_stats_fields.
  destruct (_ && _); split; try discriminate; try congruence.
Qed.

Lemma parse_stats_Ok s st :
  parse_stats s = Ok st -> int_readable s /\ st = parsed s.
Proof.
  rewrite int_readable_spec, parse_stats_fields.
  destruct (_ && _); [|discriminate]. now intros [= <-].
Qed.

Lemma search_None_first_match p f s :
  (forall t, g_text <$> match_here p t no_groups = Some <$> f t) ->
  search p s = None <-> first_match f s = None.
Proof.
  intros Hp. pose proof (search_first_match p f s Hp) as Hs.
  destruct (search p s), (first_match f s); cbn in Hs; split; congruence.
Qed.

Lemma after_label_absent label s :
  ~ occurs_anycase label s ->
  forall pre rest, s = pre +:+ rest -> after_label label rest = None.
Proof.
  intros Habsent pre rest ->.
  destruct (after_label label rest) as [rest0|] eqn:Hl; [|reflexivity].
  apply after_label_Some in Hl as (lbl & -> & Hlbl).
  destruct Habsent. now exists pre, lbl, rest0.
Qed.

Lemma decimal_absent label s :
  ~ occurs_anycase label s -> first_match (decimal_here label) s = None.
Proof.
  intros Habsent. apply first_match_None. intros pre rest Hs.
  unfold decimal_here. now rewrite (after_label_absent label s Habsent pre rest Hs).
Qed.

Lemma integer_absent label s :
  ~ occurs_anycase label s -> first_match (integer_here label) s = None.
Proof.
  intros Habsent. apply first_match_None. intros pre rest Hs.
  unfold integer_here. now rewrite (after_label_absent label s Habsent pre rest Hs).
Qed.

(** The texts used to show that any of the four fields can be
    present or absent whatever the others are. *)
Definition stats_text (gpa verbal quant writing : bool) : string :=
  (if gpa then "GPA: 3.80, " else "")
  +:+ (if verbal then "GRE Verbal: 165, " else "")
  +:+ (if quant then "GRE Quantitative: 168, " else "")
  +:+ (if writing then "GRE Analytical Writing: 4.50" else "").

(** A run of [n] nines. *)
Fixpoint nines (n : nat) : string :=
  match n with
  | O => EmptyString
  | S n' => String "9" (nines n')
  end.

(** A stats text with a GPA and a verbal score of 4301 digits. *)
Definition long_verbal_stats : string := "GPA: 3.80, GRE Verbal: " +:+ nines 4301.

(** The text holds a recognizable "GPA: 3.80", and yet no gpa field
    is extracted from it: [int] refuses the verbal numeral and
    [parse_stats] raises before it returns any field. *)
Lemma gpa_lost_with_long_verbal_score :
  reads decimal_numeral "GPA" long_verbal_stats "3.80"
  /\ parse_stats long_verbal_stats = Raised
  /\ ~ exists st, parse_stats long_verbal_stats = Ok st
                  /\ stats_gpa st = Some (Q2Qc 3.80).
Proof.
  assert (Hraised : parse_stats long_verbal_stats = Raised)
    by (vm_compute; reflexivity).
  split; [|split; [exact Hraised|]].
  - apply first_match_reads_decimal. vm_compute. reflexivity.
  - intros (st & Hst & _). congruence.
Qed.

(** C3, amended.  [parse_stats] returns its four fields exactly when
    the numerals read by the verbal and the quantitative pattern have
    at most 4300 digits each, and raises otherwise.  When it returns:
    if the first place of the text that the GPA pattern recognizes is
    a label "GPA" (in any case), colons or white space, and a decimal
    numeral D.DD... that no further digit follows, the gpa field is
    the number that exactly this numeral denotes; a field whose
    pattern does not match anywhere is [None], and only such a field
    is; so is a field whose label occurs nowhere in the text.  Each
    of the four fields can be present or absent whatever the other
    three are. *)
Theorem parse_stats_extracts_independent_fields :
  (forall s,
      (int_readable s ->
       exists st,
         parse_stats s = Ok st
         /\ (forall v, reads decimal_numeral "GPA" s v ->
                       stats_gpa st = Some (decimal_value v))
         /\ (stats_gpa st = None <-> search gpa_re s = None)
         /\ (stats_gre_verbal st = None <-> search gre_v_re s = None)
         /\ (stats_gre_quant st = None <-> search gre_q_re s = None)
         /\ (stats_gre_writing st = None <-> search gre_w_re s = None)
         /\ (~ occurs_anycase "GPA" s -> stats_gpa st = None)
         /\ (~ occurs_anycase "GRE Verbal" s -> stats_gre_verbal st = None)
         /\ (~ occurs_anycase "GRE Quantitative" s -> stats_gre_quant st = None)
         /\ (~ occurs_anycase "GRE Analytical Writing" s ->
             stats_gre_writing st = None))
      /\ (~ int_readable s -> parse_stats s = Raised))
  /\ (forall b1 b2 b3 b4 : bool, exists s st,
        parse_stats s = Ok st
        /\ (is_Some (stats_gpa st) <-> b1 = true)
        /\ (is_Some (stats_gre_verbal st) <-> b2 = true)
        /\ (is_Some (stats_gre_quant st) <-> b3 = true)
        /\ (is_Some (stats_gre_writing st) <-> b4 = true)).
Proof.
  split.
  - intros s. split; [|apply parse_stats_Raised].
    intros Hs. exists (parsed s). split; [now apply parse_stats_readable|].
    cbn [parsed stats_gpa stats_gre_verbal stats_gre_quant stats_gre_writing].
    rewrite !fmap_None.
    rewrite (search_None_first_match _ (decimal_here "GPA"))
      by (intros t; apply match_here_decimal).
    rewrite (search_None_first_match _ (integer_here "GRE Verbal"))
      by (intros t; apply match_here_integer).
    rewrite (search_None_first_match _ (integer_here "GRE Quantitative"))
      by (intros t; apply match_here_integer).
    rewrite (search_None_first_match _ (decimal_here "GRE Analytical Writing"))
      by (intros t; apply match_here_decimal).
    split; [|repeat split; try (intros H; exact H)].
    + intros v Hv. apply first_match_reads_decimal in Hv. now rewrite Hv.
    + apply decimal_absent.
    + apply integer_absent.
    + apply integer_absent.
    + apply decimal_absent.
  - intros b1 b2 b3 b4. exists (stats_text b1 b2 b3 b4).
    destruct b1, b2, b3, b4; eexists;
      (split; [vm_compute; reflexivity|]);
      cbn [stats_gpa stats_gre_verbal stats_gre_quant stats_gre_writing];
      repeat split; intros H; try reflexivity; try discriminate;
      try (eexists; reflexivity); try (destruct H; discriminate).
Qed.

Lemma parse_stats_extracts_independent_fields_witness :
  int_readable "gpa:  3.80 (4.0 scale), GRE Quant: 168"
  /\ (exists st,
        parse_stats "gpa:  3.80 (4.0 scale), GRE Quant: 168" = Ok st
        /\ stats_gpa st = Some (Q2Qc 3.80)
        /\ stats_gre_quant st = None)
  /\ (exists st,
        parse_stats "Gpa 2.5/4" = Ok st /\ stats_gpa st = Some (Q2Qc 2.5)).
Proof.
  assert (H1 : int_readable "gpa:  3.80 (4.0 scale), GRE Quant: 168")
    by (apply int_readable_spec; reflexivity).
  assert (H2 : int_readable "Gpa 2.5/4")
    by (apply int_readable_spec; reflexivity).
  split; [exact H1|]. split.
  - destruct (proj1 (proj1 parse_stats_extracts_independent_fields
                       "gpa:  3.80 (4.0 scale), GRE Quant: 168") H1)
      as (st & Hparse & Hgpa & _ & _ & Hquant & _).
    exists st. split; [exact Hparse|]. split.
    + rewrite (Hgpa "3.80"); [f_equal; apply Qc_is_canon; reflexivity|].
      apply first_match_reads_decimal. vm_compute. reflexivity.
    + apply Hquant. reflexivity.
  - destruct (proj1 (proj1 parse_stats_extracts_independent_fields "Gpa 2.5/4") H2)
      as (st & Hparse & Hgpa & _).
    exists st. split; [exact Hparse|].
    rewrite (Hgpa "2.5"); [f_equal; apply Qc_is_canon; reflexivity|].
    apply first_match_reads_decimal. vm_compute. reflexivity.
Defined.

End ParseStats.

(** ** Substrings *)

Section Substrings.
Import Py.

(** [sub] occurs in [s], letter for letter. *)
Definition occurs_in (sub s : string) : Prop :=
  exists pre post, s = pre +:+ sub +:+ post.

Lemma startswith_spec p s :
  startswith p s = true <-> exists post, s = p +:+ post.
Proof.
  revert s. induction p as [|a p IH]; intros s.
  - split; [|reflexivity]. intros _. now exists s.
  - destruct s as [|c s]; cbn [startswith].
    + split; [discriminate|]. intros [post Hs]. discriminate.
    + destruct (Ascii.eqb a c) eqn:Hac.
      * apply Ascii.eqb_eq in Hac as ->. rewrite IH. split.
        -- intros [post ->]. now exists post.
        -- intros [post Hs]. rewrite append_cons in Hs. injection Hs as ->.
           now exists post.
      * split; [discriminate|]. intros [post Hs].
        rewrite append_cons in Hs. injection Hs as -> ->.
        now rewrite Ascii.eqb_refl in Hac.
Qed.

Lemma contains_spec sub s : contains sub s = true <-> occurs_in sub s.
Proof.
  unfold occurs_in. induction s as [|c s IH]; cbn [contains].
  - rewrite orb_false_r, startswith_spec. split.
    + intros [post Hs]. now exists EmptyString, post.
    + intros (pre & post & Hs). destruct pre; [|discriminate].
      now exists post.
  - rewrite orb_true_iff, startswith_spec, IH. split.
    + intros [[post Hs]|(pre & post & ->)].
      * now exists EmptyString, post.
      * now exists (String c pre), post.
    + intros (pre & post & Hs). destruct pre as [|c' pre].
      * left. now exists post.
      * right. rewrite append_cons in Hs. injection Hs as -> ->.
        now exists pre, post.
Qed.

End Substrings.

(** ** Row extraction and filtering *)

Section RowFilter.
Import Py fetch_data.

(** The row has the minimum number of cells and its first three
    texts, stripped, contain the three target substrings. *)
Definition qualifies (cells : list string) : Prop :=
  (7 <= length cells)%nat
  /\ exists i p d,
      cells !! 0%nat = Some i /\ cells !! 1%nat = Some p /\ cells !! 2%nat = Some d
      /\ occurs_in "Yale" (strip i)
      /\ occurs_in "Political Science" (strip p)
      /\ occurs_in "PhD" (strip d).

(** The stats text of the row: its seventh cell, stripped. *)
Definition stats_cell (cells : list string) : string :=
  match cells !! 6%nat with
  | Some c => strip c
  | None => EmptyString
  end.

Lemma scrape_row_short cells :
  (length cells < 7)%nat -> scrape_row cells = Ok None.
Proof.
  intros Hlen. unfold scrape_row.
  now destruct (Nat.ltb_spec (length cells) 7); [|lia].
Qed.

(** The dict appended for a row of seven or more cells that passes
    the test. *)
Definition entry_of (c0 c1 c2 c3 c4 c6 : string) (stats : Stats) : Entry :=
  {| e_institution := strip c0;
     e_program := strip c1;
     e_degree := strip c2;
     e_season := strip c3;
     e_decision := strip c4;
     e_gpa := stats_gpa stats;
     e_gre_verbal := stats_gre_verbal stats;
     e_gre_quant := stats_gre_quant stats;
     e_gre_writing := stats_gre_writing stats;
     e_stats_raw := strip c6 |}.

Lemma scrape_row_long c0 c1 c2 c3 c4 c5 c6 more :
  scrape_row (c0 :: c1 :: c2 :: c3 :: c4 :: c5 :: c6 :: more)
  = if contains "Yale" (strip c0)
       && contains "Political Science" (strip c1)
       && contains "PhD" (strip c2)
    then rbind (parse_stats (strip c6))
           (fun stats => Ok (Some (entry_of c0 c1 c2 c3 c4 c6 stats)))
    else Ok None.
Proof.
  unfold scrape_row, cell_text.
  cbn [length Nat.ltb Nat.leb lookup list_lookup rbind]. reflexivity.
Qed.

Lemma qualifies_long c0 c1 c2 c3 c4 c5 c6 more :
  qualifies (c0 :: c1 :: c2 :: c3 :: c4 :: c5 :: c6 :: more)
  <-> contains "Yale" (strip c0)
      && contains "Political Science" (strip c1)
      && contains "PhD" (strip c2) = true.
Proof.
  unfold qualifies. rewrite !andb_true_iff, !contains_spec. split.
  - intros (_ & i & p & d & [= <-] & [= <-] & [= <-] & H0 & H1 & H2).
    repeat split; assumption.
  - intros [[H0 H1] H2]. split; [cbn [length]; lia|].
    exists c0, c1, c2. repeat split; assumption.
Qed.

Lemma qualifies_short cells : (length cells < 7)%nat -> ~ qualifies cells.
Proof. intros Hlt [Hge _]. lia. Qed.

(** The three outcomes of the loop body for a row that can be read. *)
Lemma scrape_row_outcome cells :
  ((exists e, scrape_row cells = Ok (Some e))
   <-> qualifies cells /\ int_readable (stats_cell cells))
  /\ (scrape_row cells = Raised
      <-> qualifies cells /\ ~ int_readable (stats_cell cells))
  /\ (scrape_row cells = Ok None <-> ~ qualifies cells).
Proof.
  destruct (Nat.lt_ge_cases (length cells) 7) as [Hlt|Hge].
  - rewrite (scrape_row_short cells Hlt).
    pose proof (qualifies_short cells Hlt) as Hq.
    split; [|split].
    + split; [intros [e He]; discriminate|intros [H _]; contradiction].
    + split; [discriminate|intros [H _]; contradiction].
    + split; [intros _; exact Hq|reflexivity].
  - destruct cells as [|c0 [|c1 [|c2 [|c3 [|c4 [|c5 [|c6 more]]]]]]];
      cbn [length] in Hge; try lia.
    rewrite scrape_row_long, qualifies_long.
    unfold stats_cell. cbn [lookup list_lookup].
    destruct (contains "Yale" (strip c0) && contains "Political Science" (strip c1)
              && contains "PhD" (strip c2)).
    + destruct (parse_stats (strip c6)) as [st|] eqn:Hp; cbn [rbind].
      * apply parse_stats_Ok in Hp as [Hr _]. split; [|split].
        -- split; [intros _; now split|intros _; eauto].
        -- split; [discriminate|intros [_ Hn]; contradiction].
        -- split; [discriminate|intros Hn; now destruct Hn].
      * apply parse_stats_Raised in Hp. split; [|split].
        -- split; [intros [e He]; discriminate|intros [_ Hr]; contradiction].
        -- split; [intros _; now split|reflexivity].
        -- split; [discriminate|intros Hn; now destruct Hn].
    + split; [|split].
      * split; [intros [e He]; discriminate|intros [H _]; discriminate].
      * split; [discriminate|intros [H _]; discriminate].
      * split; [intros _; discriminate|reflexivity].
Qed.

(** A row of the table raises: it cannot be read, or it passes the
    test and [int] refuses a numeral of its stats text. *)
Definition row_raises (r : tr) : Prop :=
  match r with
  | Unreadable => True
  | Cells cells => qualifies cells /\ ~ int_readable (stats_cell cells)
  end.

Lemma scrape_rows_Raised rows acc :
  scrape_rows rows acc = Raised <-> exists r, r ∈ rows /\ row_raises r.
Proof.
  revert acc. induction rows as [|r rows IH]; intros acc.
  - split; [discriminate|]. intros (r & Hr & _). now apply elem_of_nil in Hr.
  - destruct r as [cells|].
    + cbn [scrape_rows]. destruct (scrape_row cells) as [o|] eqn:Ho; cbn [rbind].
      * rewrite IH. split.
        -- intros (r & Hr & Hraise). exists r. split; [now right|exact Hraise].
        -- intros (r & Hr & Hraise). apply elem_of_cons in Hr as [->|Hr].
           ++ cbn [row_raises] in Hraise.
              apply (proj1 (proj2 (scrape_row_outcome cells))) in Hraise.
              congruence.
           ++ now exists r.
      * split; [intros _|reflexivity]. exists (Cells cells). split; [left|].
        cbn [row_raises]. now apply (proj1 (proj2 (scrape_row_outcome cells))).
    + split; [intros _|reflexivity]. exists Unreadable. split; [left|exact I].
Qed.

Lemma scrape_rows_readable rows kept acc :
  Forall2 (fun cells o => scrape_row cells = Ok o) rows kept ->
  scrape_rows (Cells <$> rows) acc = Ok (acc ++ omap id kept).
Proof.
  intros H. revert acc. induction H as [|cells o rows kept Ho _ IH]; intros acc.
  - cbn. now rewrite app_nil_r.
  - cbn [fmap list_fmap scrape_rows]. rewrite Ho. cbn [rbind]. rewrite IH.
    destruct o as [e|]; cbn; [now rewrite <- app_assoc|reflexivity].
Qed.

Lemma scrape_rows_kept rows :
  (forall cells, cells ∈ rows -> qualifies cells -> int_readable (stats_cell cells)) ->
  exists kept, Forall2 (fun cells o => scrape_row cells = Ok o) rows kept.
Proof.
  induction rows as [|cells rows IH]; intros Hrows; [exists []; constructor|].
  destruct IH as [kept IH]; [intros c Hc; apply Hrows; now right|].
  destruct (scrape_row cells) as [o|] eqn:Ho.
  - exists (o :: kept). now constructor.
  - apply (proj1 (proj2 (scrape_row_outcome cells))) in Ho as [Hq Hn].
    destruct Hn. apply Hrows; [left|exact Hq].
Qed.

(** A row with white space around its texts, a cell that is not
    read, and an eighth cell. *)
Definition padded_cells : list string :=
  ["  Yale University "; "MA/PhD Political Science"; " PhD"; " Fall 2024";
   "Accepted  "; "not read"; " GPA: 3.50 "; "extra"].

(** A row that passes the test, with a verbal score of 4301 digits. *)
Definition long_score_cells : list string :=
  ["Yale University"; "Political Science"; "PhD"; "Fall 2024"; "Accepted"; "";
   "GRE Verbal: " +:+ nines 4301].

(** The row has seven cells and its texts contain the three target
    substrings, and yet it contributes no entry: [int] refuses its
    verbal score, the exception leaves the loop, and the page yields
    nothing. *)
Lemma qualifying_row_contributes_nothing :
  qualifies long_score_cells
  /\ scrape_row long_score_cells = Raised
  /\ (~ exists e, scrape_row long_score_cells = Ok (Some e))
  /\ eval (scrape_gradcafe_page
             (fun _ => Table [Cells []; Cells long_score_cells]) 1) []
     = [].
Proof.
  assert (Hraised : scrape_row long_score_cells = Raised)
    by (vm_compute; reflexivity).
  split; [|split; [exact Hraised|split]].
  - apply qualifies_long. reflexivity.
  - intros [e He]. congruence.
  - vm_compute. reflexivity.
Qed.

(** C7, amended.  A row of the results table contributes an entry
    exactly when it has at least seven cells, its institution,
    program and degree texts contain "Yale", "Political Science" and
    "PhD", letter for letter (a row that spells "YALE" in capitals
    does not), and [int] accepts the numerals of its stats text; the
    entry holds the stripped texts of the row and the four fields
    that [parse_stats] returns for its stats text.  A row that passes the
    test with a numeral that [int] refuses raises; any other row is
    passed over without an error.  The entries of a page in which no
    row raises are those of its qualifying rows, in row order; a
    page in which a row raises yields no entry. *)
Theorem row_filter :
  (forall cells,
      ((exists e, scrape_row cells = Ok (Some e))
       <-> qualifies cells /\ int_readable (stats_cell cells))
      /\ (scrape_row cells = Raised
          <-> qualifies cells /\ ~ int_readable (stats_cell cells))
      /\ (scrape_row cells = Ok None <-> ~ qualifies cells)
      /\ ((length cells < 7)%nat -> scrape_row cells = Ok None))
  /\ scrape_row ["YALE UNIVERSITY"; "Political Science"; "PhD"; "Fall 2024";
                 "Accepted"; ""; "GPA: 3.80"] = Ok None
  /\ scrape_row padded_cells
     = Ok (Some {| e_institution := "Yale University";
                   e_program := "MA/PhD Political Science";
                   e_degree := "PhD";
                   e_season := "Fall 2024";
                   e_decision := "Accepted";
                   e_gpa := Some (Q2Qc 3.50);
                   e_gre_verbal := None;
                   e_gre_quant := None;
                   e_gre_writing := None;
                   e_stats_raw := "GPA: 3.50" |})
  /\ (forall c0 c1 c2 c3 c4 c5 c6 more e,
        scrape_row (c0 :: c1 :: c2 :: c3 :: c4 :: c5 :: c6 :: more) = Ok (Some e) ->
        exists stats,
          parse_stats (strip c6) = Ok stats
          /\ e = entry_of c0 c1 c2 c3 c4 c6 stats)
  /\ (forall hdr rows page_num t,
        (forall cells, cells ∈ rows -> qualifies cells ->
                       int_readable (stats_cell cells)) ->
        exists kept,
          Forall2 (fun cells o => scrape_row cells = Ok o) rows kept
          /\ eval (scrape_gradcafe_page (fun _ => Table (hdr :: (Cells <$> rows)))
                     page_num) t
             = omap id kept)
  /\ (forall hdr rows page_num t cells,
        cells ∈ rows -> qualifies cells -> ~ int_readable (stats_cell cells) ->
        eval (scrape_gradcafe_page (fun _ => Table (hdr :: (Cells <$> rows)))
                page_num) t
        = []).
Proof.
  split; [|split; [|split; [|split; [|split]]]].
  - intros cells. destruct (scrape_row_outcome cells) as (Hkept & Hraised & Hnone).
    split; [exact Hkept|]. split; [exact Hraised|]. split; [exact Hnone|].
    apply scrape_row_short.
  - reflexivity.
  - vm_compute. reflexivity.
  - intros c0 c1 c2 c3 c4 c5 c6 more e He. rewrite scrape_row_long in He.
    destruct (contains "Yale" (strip c0) && contains "Political Science" (strip c1)
              && contains "PhD" (strip c2)); [|discriminate].
    destruct (parse_stats (strip c6)) as [stats|]; [|discriminate].
    injection He as <-. now exists stats.
  - intros hdr rows page_num t Hrows.
    destruct (scrape_rows_kept rows Hrows) as [kept Hkept].
    exists kept. split; [exact Hkept|].
    unfold scrape_gradcafe_page. rewrite !eval_bind.
    change (drop 1 (hdr :: (Cells <$> rows))) with (Cells <$> rows).
    now rewrite (scrape_rows_readable rows kept [] Hkept).
  - intros hdr rows page_num t cells Hin Hq Hn.
    assert (Hraised : scrape_rows (Cells <$> rows) [] = Raised).
    { apply scrape_rows_Raised. exists (Cells cells).
      split; [now apply list_elem_of_fmap_2|now split]. }
    unfold scrape_gradcafe_page. rewrite !eval_bind.
    change (drop 1 (hdr :: (Cells <$> rows))) with (Cells <$> rows).
    now rewrite Hraised.
Qed.

Lemma row_filter_witness :
  qualifies padded_cells
  /\ int_readable (stats_cell padded_cells)
  /\ exists e, scrape_row padded_cells = Ok (Some e).
Proof.
  assert (Hq : qualifies padded_cells) by (apply qualifies_long; reflexivity).
  assert (Hr : int_readable (stats_cell padded_cells))
    by (apply int_readable_spec; vm_compute; reflexivity).
  split; [exact Hq|]. split; [exact Hr|].
  apply (proj2 (proj1 (proj1 row_filter padded_cells))). now split.
Defined.

End RowFilter.

(** ** The pagination loop *)

Section Pagination.
Import Py fetch_data.

(** The pages asked of the browser, in the order of the requests. *)
Definition requested (t : trace) : list Z :=
  omap (fun e => match e with Get p => Some p | _ => None end) t.

(** The rows that a page yields: what [scrape_gradcafe_page]
    returns for it. *)
Definition yields (driver : browser) (page_num : Z) : list Entry :=
  eval (scrape_gradcafe_page driver page_num) [].

Lemma requested_app t1 t2 : requested (t1 ++ t2) = requested t1 ++ requested t2.
Proof. apply omap_app. Qed.

Lemma run_emit e (t : trace) : emit e t = (tt, t ++ [e]).
Proof. reflexivity. Qed.

(** What a page yields and what is done for it depend on the page
    alone, not on what was done before. *)
Lemma scrape_gradcafe_page_run driver page_num t :
  scrape_gradcafe_page driver page_num t
  = (yields driver page_num,
     t ++ exec (scrape_gradcafe_page driver page_num) []).
Proof.
  unfold yields, scrape_gradcafe_page, on_error, exec, eval, bind, ret.
  rewrite !run_emit.
  destruct (driver page_num) as [| |trs]; rewrite ?run_emit; cbn [fst snd app].
  - now rewrite <- !app_assoc.
  - now rewrite <- !app_assoc.
  - destruct (scrape_rows (drop 1 trs) []); rewrite ?run_emit; cbn [fst snd app];
      now rewrite <- !app_assoc.
Qed.

Lemma requested_scrape_gradcafe_page driver page_num :
  requested (exec (scrape_gradcafe_page driver page_num) []) = [page_num].
Proof.
  unfold scrape_gradcafe_page, on_error, exec, bind, ret.
  rewrite !run_emit.
  destruct (driver page_num) as [| |trs]; rewrite ?run_emit; cbn [fst snd app];
    try reflexivity.
  destruct (scrape_rows (drop 1 trs) []); rewrite ?run_emit; reflexivity.
Qed.

Lemma for_pages_cons_empty driver page pages acc t :
  yields driver page = [] ->
  for_pages driver (page :: pages) acc t
  = (acc, t ++ exec (scrape_gradcafe_page driver page) []).
Proof.
  intros Hy. cbn [for_pages]. unfold bind at 1.
  now rewrite scrape_gradcafe_page_run, Hy.
Qed.

Lemma for_pages_cons_rows driver page pages acc t :
  yields driver page <> [] ->
  for_pages driver (page :: pages) acc t
  = for_pages driver pages (acc ++ yields driver page)
      (t ++ exec (scrape_gradcafe_page driver page) [] ++ [Sleep REQUEST_DELAY]).
Proof.
  intros Hy. cbn [for_pages]. unfold bind at 1.
  rewrite scrape_gradcafe_page_run.
  destruct (yields driver page) as [|e es]; [congruence|].
  unfold bind. rewrite run_emit. now rewrite <- app_assoc.
Qed.

(** The loop asks for the pages in the order of the list, one after
    the other, and for no other page. *)
Lemma for_pages_requested driver pages acc t :
  exists t',
    exec (for_pages driver pages acc) t = t ++ t'
    /\ requested t' `prefix_of` pages.
Proof.
  revert acc t. induction pages as [|page pages IH]; intros acc t.
  - exists []. split; [now rewrite app_nil_r|]. now exists [].
  - destruct (yields driver page) as [|e es] eqn:Hy.
    + unfold exec. rewrite for_pages_cons_empty by exact Hy.
      eexists. split; [reflexivity|].
      rewrite requested_scrape_gradcafe_page. now exists pages.
    + unfold exec. rewrite for_pages_cons_rows by congruence.
      edestruct IH as (t' & Ht' & Hpre). unfold exec in Ht'. rewrite Ht'.
      eexists. split; [now rewrite <- app_assoc|].
      rewrite !requested_app, requested_scrape_gradcafe_page. cbn.
      now apply prefix_cons.
Qed.

(** The loop stops at the first page of the list that yields no
    row. *)
Lemma for_pages_stop driver before k after acc t :
  (forall p, p ∈ before -> yields driver p <> []) ->
  yields driver k = [] ->
  exists t',
    for_pages driver (before ++ k :: after) acc t
    = (acc ++ concat (yields driver <$> before), t ++ t')
    /\ requested t' = before ++ [k].
Proof.
  intros Hbefore Hk. revert acc t.
  induction before as [|p before IH]; intros acc t.
  - cbn [app]. rewrite for_pages_cons_empty by exact Hk.
    eexists. split; [cbn; now rewrite app_nil_r|].
    apply requested_scrape_gradcafe_page.
  - cbn [app]. rewrite for_pages_cons_rows by (apply Hbefore; left).
    edestruct IH as (t' & -> & Hreq).
    { intros q Hq. apply Hbefore. now right. }
    eexists. split.
    + cbn [fmap list_fmap concat]. now rewrite <- !app_assoc.
    + rewrite !requested_app, requested_scrape_gradcafe_page, Hreq. reflexivity.
Qed.

Lemma elem_of_range lo hi p : p ∈ range lo hi <-> lo <= p < hi.
Proof.
  unfold range. rewrite list_elem_of_fmap. split.
  - intros (i & -> & Hi). apply elem_of_seq in Hi. lia.
  - intros Hp. exists (Z.to_nat (p - lo)). split; [lia|].
    apply elem_of_seq. lia.
Qed.

Lemma range_app lo mid hi :
  lo <= mid <= hi -> range lo hi = range lo mid ++ range mid hi.
Proof.
  intros H. unfold range.
  replace (Z.to_nat (hi - lo)) with (Z.to_nat (mid - lo) + Z.to_nat (hi - mid))%nat
    by lia.
  rewrite seq_app, fmap_app. f_equal.
  replace (seq (0 + Z.to_nat (mid - lo)) (Z.to_nat (hi - mid)))
    with (Nat.add (Z.to_nat (mid - lo)) <$> seq 0 (Z.to_nat (hi - mid)))
    by (rewrite fmap_add_seq; f_equal; lia).
  rewrite <- list_fmap_compose.
  apply list_fmap_ext. intros _ i _. cbn. lia.
Qed.

Lemma range_cons lo hi : lo < hi -> range lo hi = lo :: range (lo + 1) hi.
Proof.
  intros H. rewrite (range_app lo (lo + 1) hi) by lia.
  unfold range at 1. replace (lo + 1 - lo) with 1 by lia.
  change (Z.to_nat 1) with 1%nat. cbn [seq fmap list_fmap app Z.of_nat].
  now rewrite Z.add_0_r.
Qed.

Lemma range_snoc lo hi : lo <= hi -> range lo (hi + 1) = range lo hi ++ [hi].
Proof.
  intros H. rewrite (range_app lo hi (hi + 1)) by lia. f_equal.
  rewrite range_cons by lia. unfold range.
  now replace (hi + 1 - (hi + 1)) with 0 by lia.
Qed.

Lemma scrape_all_pages_stop driver s e k t :
  s <= k <= e ->
  (forall p, s <= p < k -> yields driver p <> []) ->
  yields driver k = [] ->
  exists t',
    scrape_all_pages driver s e t
    = (DataFrame_of (concat (yields driver <$> range s k)), t ++ t')
    /\ requested t' = range s (k + 1).
Proof.
  intros Hk Hbefore Hempty. unfold scrape_all_pages.
  rewrite (range_app s k (e + 1)) by lia.
  rewrite (range_cons k (e + 1)) by lia.
  destruct (for_pages_stop driver (range s k) k (range (k + 1) (e + 1)) [] t)
    as (t' & Hrun & Hreq); [|exact Hempty|].
  { intros p Hp. apply Hbefore. now apply elem_of_range. }
  exists t'. unfold bind. rewrite Hrun. split; [reflexivity|].
  rewrite range_snoc by lia. exact Hreq.
Qed.

(** C1. The loop asks for the pages in increasing order from the
    start page, never beyond the end bound; when the pages before
    [k] each yield a row and page [k] yields none, it stops there:
    the table holds the rows of the pages before [k] in page order,
    and the pages asked for are exactly [s], ..., [k], whatever the
    end bound. *)
Theorem pagination_stops_at_first_empty_page
    (driver : browser) (s e : Z) (t : trace) :
  exists df t',
    scrape_all_pages driver s e t = (df, t ++ t')
    /\ requested t' `prefix_of` range s (e + 1)
    /\ forall k,
        s <= k <= e ->
        (forall p, s <= p < k -> yields driver p <> []) ->
        yields driver k = [] ->
        df = DataFrame_of (concat (yields driver <$> range s k))
        /\ requested t' = range s (k + 1).
Proof.
  destruct (for_pages_requested driver (range s (e + 1)) [] t)
    as (t' & Hexec & Hprefix).
  exists (DataFrame_of (eval (for_pages driver (range s (e + 1)) []) t)), t'.
  assert (Hrun : scrape_all_pages driver s e t
                 = (DataFrame_of (eval (for_pages driver (range s (e + 1)) []) t),
                    t ++ t')).
  { unfold scrape_all_pages, bind, ret. unfold exec in Hexec. unfold eval.
    destruct (for_pages driver (range s (e + 1)) [] t) as [rows t1].
    cbn [fst snd] in *. now subst t1. }
  split; [exact Hrun|]. split; [exact Hprefix|].
  intros k Hk Hbefore Hempty.
  destruct (scrape_all_pages_stop driver s e k t Hk Hbefore Hempty)
    as (t'' & Hstop & Hreq).
  rewrite Hrun in Hstop. injection Hstop as Hdf Ht.
  apply app_inv_head in Ht. subst t''. now split.
Qed.

Definition qualifying_cells : list string :=
  ["Yale University"; "Political Science"; "PhD"; "Fall 2024"; "Rejected"; "";
   "GPA: 3.50"].

(** Two pages of results, then pages without rows. *)
Definition sample_driver : browser :=
  fun p =>
    if p =? 1 then Table [Cells []; Cells qualifying_cells]
    else if p =? 2 then Table [Cells []; Cells ["Harvard"]; Cells qualifying_cells]
    else Table [Cells []].

Lemma pagination_stops_at_first_empty_page_witness :
  exists df t',
    scrape_all_pages sample_driver 1 170 [] = (df, t')
    /\ length df = 2%nat /\ requested t' = [1; 2; 3].
Proof.
  destruct (pagination_stops_at_first_empty_page sample_driver 1 170 [])
    as (df & t' & Hrun & _ & Hstop).
  destruct (Hstop 3) as [Hdf Hreq].
  - lia.
  - intros p Hp. assert (p = 1 \/ p = 2) as [-> | ->] by lia; discriminate.
  - reflexivity.
  - exists df, t'. split; [exact Hrun|]. split.
    + rewrite Hdf. reflexivity.
    + rewrite Hreq. reflexivity.
Defined.

(** *** Errors while a page is processed *)











End Pagination.

(** ** The end-to-end scenario *)

Section EndToEnd.
Import Py fetch_data.

Definition scenario_stats : string :=
  "GPA: 3.80, GRE Verbal: 165, GRE Quantitative: 168, GRE Analytical Writing: 4.50".

(** The cells of the qualifying row: the five named texts and the
    stats cell in their columns, anything in the season cell, in the
    unused sixth cell and in further cells. *)
Definition scenario_cells (season_cell unused : string) (more : list string)
  : list string :=
  "Yale University" :: "Political Science" :: "PhD" :: season_cell
    :: "Accepted" :: unused :: scenario_stats :: more.

(** The one row of the output table. *)
Definition scenario_row (season_cell : string) : Row :=
  {| institution := "Yale University";
     program := "Political Science";
     degree := "PhD";
     season := strip season_cell;
     decision := Some "Accept";
     gpa := Some (Q2Qc 3.80);
     gre_verbal := Some (Q2Qc 165);
     gre_quant := Some (Q2Qc 168);
     gre_writing := Some (Q2Qc 4.50);
     stats_raw := scenario_stats |}.

(** A row with fewer than seven cells. *)
Definition short (r : tr) : Prop :=
  exists cells, r = Cells cells /\ (length cells < 7)%nat.

Lemma scrape_rows_short rows rest acc :
  Forall short rows -> scrape_rows (rows ++ rest) acc = scrape_rows rest acc.
Proof.
  intros H. induction H as [|r rows (cells & -> & Hlen) _ IH]; [reflexivity|].
  cbn [app scrape_rows]. now rewrite (scrape_row_short cells Hlen).
Qed.

Lemma scrape_row_scenario season_cell unused more :
  scrape_row (scenario_cells season_cell unused more)
  = Ok (Some {| e_institution := "Yale University";
                e_program := "Political Science";
                e_degree := "PhD";
                e_season := strip season_cell;
                e_decision := "Accepted";
                e_gpa := Some (Q2Qc 3.80);
                e_gre_verbal := Some 165;
                e_gre_quant := Some 168;
                e_gre_writing := Some (Q2Qc 4.50);
                e_stats_raw := scenario_stats |}).
Proof.
  unfold scenario_cells. rewrite scrape_row_long.
  assert (Hparsed : parse_stats (strip scenario_stats)
                    = Ok {| stats_gpa := Some (Q2Qc 3.80);
                            stats_gre_verbal := Some 165;
                            stats_gre_quant := Some 168;
                            stats_gre_writing := Some (Q2Qc 4.50) |}).
  { vm_compute. reflexivity. }
  rewrite Hparsed. reflexivity.
Qed.

Lemma scrape_gradcafe_page_table (driver : browser) page_num trs entries :
  driver page_num = Table trs ->
  scrape_rows (drop 1 trs) [] = Ok entries ->
  scrape_gradcafe_page driver page_num []
  = (entries, [Get page_num; Sleep PAGE_LOAD_DELAY]).
Proof.
  intros Hpage Hrows. unfold scrape_gradcafe_page, bind.
  rewrite !run_emit, Hpage. rewrite !run_emit, Hrows. reflexivity.
Qed.

(** C2. Page 1 holds one row of seven or more cells with the given
    institution, program, degree, decision and stats texts (any
    other row of the page being too short to count) and page 2
    holds no row: the run requests pages 1 and 2 and nothing after,
    and writes a table of one row with decision "Accept", gpa 3.80,
    gre_verbal 165, gre_quant 168 and gre_writing 4.50. *)
Theorem end_to_end_scenario
    (driver : browser) (header : tr) (before after : list tr)
    (season_cell unused : string) (more : list string) (trs2 : list tr) :
  driver 1 = Table (header :: before
                      ++ Cells (scenario_cells season_cell unused more) :: after) ->
  Forall short before ->
  Forall short after ->
  driver 2 = Table trs2 ->
  drop 1 trs2 = [] ->
  main driver []
  = (Ok tt,
     [Get 1; Sleep PAGE_LOAD_DELAY; Sleep REQUEST_DELAY;
      Get 2; Sleep PAGE_LOAD_DELAY;
      ToCsv [scenario_row season_cell];
      Quit]).
Proof.
  intros Hpage1 Hbefore Hafter Hpage2 Hempty.
  assert (Hrows : exists e,
             Row_of_Entry e
             = set_decision_value (scenario_row season_cell) (Some "Accepted")
             /\ scrape_rows
                  (drop 1 (header :: before
                             ++ Cells (scenario_cells season_cell unused more)
                             :: after)) []
                = Ok [e]).
  { eexists. split; [|].
    2:{ change (drop 1 (header :: ?l)) with l.
        rewrite (scrape_rows_short before _ [] Hbefore).
        cbn [scrape_rows]. rewrite scrape_row_scenario. cbn [rbind app].
        rewrite <- (app_nil_r after). apply (scrape_rows_short after [] _ Hafter). }
    reflexivity. }
  destruct Hrows as (e & He & Hrows).
  pose proof (scrape_gradcafe_page_table driver 1 _ _ Hpage1 Hrows) as Hrun1.
  pose proof (scrape_gradcafe_page_table driver 2 trs2 [] Hpage2) as Hrun2.
  rewrite Hempty in Hrun2. specialize (Hrun2 eq_refl).
  assert (Hy1 : yields driver 1 <> []).
  { unfold yields, eval. rewrite Hrun1. discriminate. }
  assert (Hy2 : yields driver 2 = []).
  { unfold yields, eval. now rewrite Hrun2. }
  unfold main, scrape_all_pages, START_PAGE, END_PAGE.
  rewrite (range_cons 1 (170 + 1)), (range_cons (1 + 1) (170 + 1)) by lia.
  unfold bind at 1. unfold bind at 1.
  rewrite (for_pages_cons_rows driver 1 _ _ _ Hy1).
  change (1 + 1) with 2 in *.
  rewrite (for_pages_cons_empty driver 2 _ _ _ Hy2).
  unfold yields, eval, exec. rewrite Hrun1, Hrun2.
  cbn [fst snd app ret DataFrame_of fmap list_fmap length Nat.ltb Nat.leb].
  rewrite He. rewrite process_data_nonempty by discriminate.
  cbn [fmap list_fmap]. rewrite processed_row_populated
    by (repeat split; eexists; reflexivity).
  unfold bind. rewrite !run_emit. reflexivity.
Qed.

Definition scenario_driver : browser :=
  fun p =>
    if p =? 1
    then Table [Cells ["Institution"; "Program"];
                Cells (scenario_cells " Fall 2024 " "" [])]
    else Table [Cells ["Institution"; "Program"]].

Lemma end_to_end_scenario_witness :
  exists t df,
    main scenario_driver [] = (Ok tt, t)
    /\ requested t = [1; 2]
    /\ ToCsv df ∈ t
    /\ gpa <$> df = [Some (Q2Qc 3.80)]
    /\ decision <$> df = [Some "Accept"].
Proof.
  pose proof (end_to_end_scenario scenario_driver
                (Cells ["Institution"; "Program"]) [] [] " Fall 2024 " "" []
                [Cells ["Institution"; "Program"]]
                eq_refl (Forall_nil_2 _) (Forall_nil_2 _) eq_refl eq_refl) as Hrun.
  eexists. exists [scenario_row " Fall 2024 "].
  split; [exact Hrun|]. split; [reflexivity|]. split; [|split; reflexivity].
  set_solver.
Defined.

End EndToEnd.

(** ** The Analyzer's row filter *)

Section AnalyzerFilter.
Import Py Re analyze_gradcafe.

(** The value is present and [sub] occurs in it up to case: some
    part of the text spells [sub], each character being the one of
    [sub] or the other case of the same letter. *)
Definition occurs_nocase (sub : string) (value : option string) : Prop :=
  exists text, value = Some text /\ occurs_anycase sub text.

Lemma match_here_lits_only pat s :
  is_Some (match_here (lits pat) s no_groups) <-> is_Some (after_label pat s).
Proof.
  rewrite <- (app_nil_r (lits pat)), match_here_lits.
  destruct (after_label pat s); cbn; split; intros [x Hx]; eauto; discriminate.
Qed.

Lemma search_lits pat text :
  is_Some (search (lits pat) text) <-> occurs_anycase pat text.
Proof.
  unfold occurs_anycase. induction text as [|c text IH]; cbn [search].
  - destruct (match_here (lits pat) "" no_groups) as [g|] eqn:Hm.
    + split; [intros _|eauto].
      assert (Hs : is_Some (after_label pat "")).
      { apply match_here_lits_only. rewrite Hm. eauto. }
      destruct Hs as [rest Hrest].
      apply after_label_Some in Hrest as (lbl & Hs & Hl).
      exists EmptyString, lbl, rest. now split.
    + split; [intros [x Hx]; discriminate|].
      intros (pre & mid & post & Hs & Hmid).
      destruct pre; [|discriminate]. rewrite append_nil_l in Hs.
      assert (Hsome : is_Some (match_here (lits pat) "" no_groups)).
      { apply match_here_lits_only. exists post.
        apply after_label_Some. now exists mid. }
      rewrite Hm in Hsome. now destruct Hsome.
  - destruct (match_here (lits pat) (String c text) no_groups) as [g|] eqn:Hm.
    + split; [intros _|eauto].
      assert (Hs : is_Some (after_label pat (String c text))).
      { apply match_here_lits_only. rewrite Hm. eauto. }
      destruct Hs as [rest Hrest].
      apply after_label_Some in Hrest as (lbl & Hs & Hl).
      exists EmptyString, lbl, rest. now split.
    + rewrite IH. split.
      * intros (pre & mid & post & -> & Hmid).
        now exists (String c pre), mid, post.
      * intros (pre & mid & post & Hs & Hmid).
        destruct pre as [|c' pre].
        -- rewrite append_nil_l in Hs.
           assert (Hsome : is_Some (match_here (lits pat) (String c text) no_groups)).
           { apply match_here_lits_only. exists post.
             apply after_label_Some. now exists mid. }
           rewrite Hm in Hsome. now destruct Hsome.
        -- rewrite append_cons in Hs. injection Hs as -> ->.
           now exists pre, mid, post.
Qed.

Lemma mask_and_fmap {A} (f g : A -> bool) (l : list A) :
  mask_and (f <$> l) (g <$> l) = (fun x => f x && g x) <$> l.
Proof.
  unfold mask_and. induction l as [|x l IH]; csimpl; [reflexivity|]. now f_equal.
Qed.

Lemma boolean_index_fmap (keep : Row -> bool) (df : DataFrame) :
  boolean_index df (keep <$> df) = List.filter keep df.
Proof.
  unfold boolean_index. induction df as [|r df IH]; [reflexivity|].
  csimpl. rewrite IH. now destruct (keep r).
Qed.

(** The test that the two masks apply to a value. *)
Definition value_matches (pat : string) (value : option string) : bool :=
  match value with
  | Some text => bool_decide (is_Some (search (lits pat) text))
  | None => false
  end.

Lemma value_matches_spec pat value :
  value_matches pat value = true <-> occurs_nocase pat value.
Proof.
  unfold value_matches, occurs_nocase. destruct value as [text|].
  - rewrite bool_decide_eq_true, search_lits. split.
    + intros Hocc. now exists text.
    + now intros (text' & [= <-] & Hocc).
  - split; [discriminate|]. intros (text & Hv & _). discriminate.
Qed.

Definition named (uni maj : option string) : Row :=
  {| uni_name := uni;
     major := maj;
     decision := Some "Accepted";
     ugrad_gpa := None;
     gre_verbal := None;
     gre_quant := None;
     gre_writing := None;
     is_new_gre := Some 1 |}.

(** A row that names another institution and another programme. *)
Definition unrelated_row : Row :=
  named (Some "Royale Business School") (Some "Geopolitical Science").

(** Rows of the target programme in other letter cases, of another
    university, of another programme, and without a name. *)
Definition shouting_row : Row :=
  named (Some "YALE university") (Some "political SCIENCE").
Definition harvard_row : Row :=
  named (Some "Harvard University") (Some "Mechanical Engineering").
Definition economics_row : Row :=
  named (Some "Yale University") (Some "Economics").
Definition nameless_row : Row := named None (Some "Political Science").
Definition spaced_row : Row :=
  named (Some "Y a l e") (Some "Political  Science").

(** C8. The filter keeps, in their order, exactly the rows whose
    uni_name contains "Yale" and whose major contains "Political
    Science", both as substrings and up to the case of the 26
    letters; a row with a missing name is dropped, and so is a row
    of another university or another programme; a row of another
    university and programme whose names contain the two substrings
    is kept. *)
Theorem analyzer_filter_is_substring_match :
  (forall df : DataFrame,
      exists keep : Row -> bool,
        yale_polisci df = List.filter keep df
        /\ forall r, keep r = true <->
                     occurs_nocase "Yale" (uni_name r)
                     /\ occurs_nocase "Political Science" (major r))
  /\ (forall df r, r ∈ yale_polisci df <->
                   r ∈ df /\ occurs_nocase "Yale" (uni_name r)
                   /\ occurs_nocase "Political Science" (major r))
  /\ yale_polisci [unrelated_row] = [unrelated_row]
  /\ yale_polisci [harvard_row; shouting_row; economics_row; nameless_row;
                   unrelated_row; spaced_row]
     = [shouting_row; unrelated_row].
Proof.
  assert (Hfilter : forall df : DataFrame,
             yale_polisci df
             = List.filter (fun r => value_matches "Yale" (uni_name r)
                                     && value_matches "Political Science" (major r))
                 df).
  { intros df. unfold yale_polisci, str_contains_nocase.
    rewrite <- !list_fmap_compose.
    rewrite (mask_and_fmap (value_matches "Yale" ∘ uni_name)
               (value_matches "Political Science" ∘ major)).
    apply boolean_index_fmap. }
  split; [|split; [|split]].
  - intros df. eexists. split; [apply Hfilter|].
    intros r. cbn beta. now rewrite andb_true_iff, !value_matches_spec.
  - intros df r. rewrite Hfilter, list_elem_of_In, filter_In.
    now rewrite andb_true_iff, !value_matches_spec, <- list_elem_of_In.
  - vm_compute. reflexivity.
  - vm_compute. reflexivity.
Qed.

End AnalyzerFilter.


(** ** The URL of a page *)

Section ConstructUrl.
Import Py Urllib fetch_data.

Lemma always_safe_not_space c : always_safe c = true -> Ascii.eqb c " " = false.
Proof. destruct c as [[] [] [] [] [] [] [] []]; vm_compute; congruence. Qed.

Lemma quote_plus_safe s : every always_safe s = true -> quote_plus s = s.
Proof.
  induction s as [|c s IH]; [reflexivity|].
  cbn [every quote_plus]. intros H. apply andb_prop in H as [Hc Hs].
  rewrite (always_safe_not_space c Hc), Hc, (IH Hs). reflexivity.
Qed.

Lemma string_of_uint_safe d : every always_safe (NilEmpty.string_of_uint d) = true.
Proof. induction d; cbn [NilEmpty.string_of_uint every]; try rewrite IHd; reflexivity. Qed.

Lemma str_safe n : every always_safe (str n) = true.
Proof.
  unfold str.
  assert (H : forall d, every always_safe (NilZero.string_of_uint d) = true).
  { intros d. destruct d; try apply string_of_uint_safe. reflexivity. }
  destruct (Z.to_int n) as [d|d]; cbn [NilZero.string_of_int every]; now rewrite ?H.
Qed.

Lemma str_inj n m : str n = str m -> n = m.
Proof.
  unfold str. intros H.
  assert (Hnorm : forall z, Z.to_int z <> Pos Nil /\ Z.to_int z <> Neg Nil).
  { intros [|p|p]; cbn [Z.to_int]; split; try discriminate;
      intros [= Hp]; now apply (DecimalPos.Unsigned.to_uint_nonnil p). }
  apply (f_equal NilZero.int_of_string) in H.
  rewrite !NilZero.isi in H by apply Hnorm.
  injection H as H. apply (f_equal Z.of_int) in H.
  now rewrite !DecimalZ.of_to in H.
Qed.

(** The URL of a page is the fixed query of the script followed by
    the page number in decimal, so two pages never share a URL. *)
Theorem construct_url_of_page :
  (forall page_num,
      construct_url page_num
      = "https://www.thegradcafe.com/survey/?q=&sort=newest&institution=Yale+University&program=Political+Science&degree=PhD&season=&page="
        +:+ str page_num)
  /\ (forall p q, construct_url p = construct_url q -> p = q).
Proof.
  assert (Hurl : forall page_num,
             construct_url page_num
             = "https://www.thegradcafe.com/survey/?q=&sort=newest&institution=Yale+University&program=Political+Science&degree=PhD&season=&page="
               +:+ str page_num).
  { intros n. unfold construct_url, urlencode.
    cbn [fmap list_fmap fst snd str_of].
    rewrite (quote_plus_safe (str n) (str_safe n)). reflexivity. }
  split; [exact Hurl|].
  intros p q H. rewrite !Hurl in H.
  apply str_inj. eapply String.app_inj. exact H.
Qed.

End ConstructUrl.

(** ** More on parse_stats *)

Section ParseStatsMore.
Import Py Re fetch_data.

Lemma every_append f a b : every f (a +:+ b) = every f a && every f b.
Proof.
  induction a as [|c a IH]; [reflexivity|].
  rewrite append_cons. cbn [every]. now rewrite IH, andb_assoc.
Qed.

(** The three GRE fields are read like the GPA.  When [int] accepts
    the numerals of the verbal and the quantitative pattern,
    [parse_stats] returns, and a field whose pattern reads the
    numeral [v] is the number that [v] denotes, an integer for the
    verbal and quantitative scores and a decimal for the writing
    score.  When one of the two integer patterns reads a numeral of
    more than 4300 digits, [parse_stats] raises. *)
Theorem parse_stats_gre_fields (s : string) :
  (int_readable s ->
   exists st,
     parse_stats s = Ok st
     /\ (forall v, reads integer_numeral "GRE Verbal" s v ->
                   stats_gre_verbal st = Some (numeral_value v))
     /\ (forall v, reads integer_numeral "GRE Quantitative" s v ->
                   stats_gre_quant st = Some (numeral_value v))
     /\ (forall v, reads decimal_numeral "GRE Analytical Writing" s v ->
                   stats_gre_writing st = Some (decimal_value v)))
  /\ (forall label v,
        label = "GRE Verbal" \/ label = "GRE Quantitative" ->
        reads integer_numeral label s v ->
        4300 < Z.of_nat (String.length v) ->
        parse_stats s = Raised).
Proof.
  split.
  - intros Hs. exists (parsed s). split; [now apply parse_stats_readable|].
    cbn [parsed stats_gre_verbal stats_gre_quant stats_gre_writing].
    split; [|split].
    + intros v Hv. apply first_match_reads_integer in Hv. now rewrite Hv.
    + intros v Hv. apply first_match_reads_integer in Hv. now rewrite Hv.
    + intros v Hv. apply first_match_reads_decimal in Hv. now rewrite Hv.
  - intros label v Hlabel Hv Hlong. apply parse_stats_Raised. intros Hs.
    specialize (Hs label v Hlabel Hv). lia.
Qed.

Lemma parse_stats_gre_fields_witness :
  int_readable "V gre verbal 165 / GRE Quantitative: 168"
  /\ exists st,
      parse_stats "V gre verbal 165 / GRE Quantitative: 168" = Ok st
      /\ stats_gre_verbal st = Some 165
      /\ stats_gre_quant st = Some 168.
Proof.
  assert (Hs : int_readable "V gre verbal 165 / GRE Quantitative: 168")
    by (apply int_readable_spec; vm_compute; reflexivity).
  split; [exact Hs|].
  destruct (proj1 (parse_stats_gre_fields "V gre verbal 165 / GRE Quantitative: 168") Hs)
    as (st & Hparse & Hverbal & Hquant & _).
  exists st. split; [exact Hparse|]. split.
  - rewrite (Hverbal "165"); [reflexivity|].
    apply first_match_reads_integer. vm_compute. reflexivity.
  - rewrite (Hquant "168"); [reflexivity|].
    apply first_match_reads_integer. vm_compute. reflexivity.
Defined.

(** *** The range of the values *)

Lemma digit_value_range c : isdigit c = true -> 0 <= digit_value c <= 9.
Proof.
  unfold isdigit, digit_value. intros H. apply andb_prop in H as [H1 H2].
  apply N.leb_le in H1, H2. lia.
Qed.

Lemma digits_from_bound s acc n :
  digits_from acc s = Some n ->
  acc * 10 ^ Z.of_nat (String.length s) <= n
  < (acc + 1) * 10 ^ Z.of_nat (String.length s).
Proof.
  revert acc. induction s as [|c s IH]; intros acc; cbn [digits_from String.length].
  - intros [= <-]. cbn. lia.
  - destruct (isdigit c) eqn:Hc; [|discriminate]. intros H.
    apply IH in H. pose proof (digit_value_range c Hc) as Hd.
    rewrite Nat2Z.inj_succ, Z.pow_succ_r by lia.
    assert (0 < 10 ^ Z.of_nat (String.length s)) by (apply Z.pow_pos_nonneg; lia).
    nia.
Qed.

Lemma Q2Qc_le (x y : Q) : (x <= y)%Q -> (Q2Qc x <= Q2Qc y)%Qc.
Proof. intros H. unfold Qcle. cbn [this Q2Qc]. now rewrite !Qred_correct. Qed.

Lemma Q2Qc_lt (x y : Q) : (x < y)%Q -> (Q2Qc x < Q2Qc y)%Qc.
Proof. intros H. unfold Qclt. cbn [this Q2Qc]. now rewrite !Qred_correct. Qed.

Lemma inject_Z_le a b : a <= b -> (inject_Z a <= inject_Z b)%Q.
Proof. intros H. now rewrite <- Zle_Qle. Qed.

Lemma inject_Z_lt a b : a < b -> (inject_Z a < inject_Z b)%Q.
Proof. intros H. now rewrite <- Zlt_Qlt. Qed.

Lemma float_range v q :
  decimal_numeral v -> float v = Ok q -> (Q2Qc 0 <= q)%Qc /\ (q < Q2Qc 10)%Qc.
Proof.
  intros (d & frac & -> & Hd & Hne & Hfrac) Hq.
  destruct (digits_from_every 0 frac Hfrac) as [n Hn].
  rewrite (float_decimal d frac n Hd Hne Hn) in Hq. injection Hq as <-.
  pose proof (digit_value_range d Hd) as Hdv.
  pose proof (digits_from_bound frac 0 n Hn) as Hnb.
  set (P := 10 ^ Z.of_nat (String.length frac)) in *.
  assert (HP : (0 < P)%Z) by (apply Z.pow_pos_nonneg; lia).
  assert (HPq : (0 < inject_Z P)%Q) by (now apply (inject_Z_lt 0 P)).
  assert (Hlo : (0 <= inject_Z n / inject_Z P)%Q).
  { apply Qle_shift_div_l; [exact HPq|]. rewrite Qmult_0_l.
    apply (inject_Z_le 0 n). lia. }
  assert (Hhi : (inject_Z n / inject_Z P < 1)%Q).
  { apply Qlt_shift_div_r; [exact HPq|]. rewrite Qmult_1_l.
    apply (inject_Z_lt n P). lia. }
  split.
  - apply Q2Qc_le.
    apply (Qle_trans _ (inject_Z (digit_value d) + 0)%Q).
    + rewrite Qplus_0_r. apply (inject_Z_le 0 (digit_value d)). lia.
    + apply Qplus_le_r. exact Hlo.
  - apply Q2Qc_lt.
    apply (Qle_lt_trans _ (inject_Z 9 + inject_Z n / inject_Z P)%Q).
    + apply Qplus_le_l. apply (inject_Z_le (digit_value d) 9). lia.
    + apply (Qlt_le_trans _ (inject_Z 9 + 1)%Q); [|discriminate].
      apply (proj2 (Qplus_lt_r _ _ _)). exact Hhi.
Qed.

Lemma numeral_value_range v :
  integer_numeral v ->
  Z.of_nat (String.length v) <= 4300 ->
  0 <= numeral_value v < 10 ^ 4300.
Proof.
  intros [_ Hv] Hlen.
  pose proof (digits_from_bound v 0 _ (digits_from_value 0 v Hv)) as Hb.
  rewrite !Z.mul_0_l, !Z.add_0_l, Z.mul_1_l in Hb.
  split; [apply Hb|]. eapply Z.lt_le_trans; [apply Hb|].
  apply Z.pow_le_mono_r; lia.
Qed.

(** Where [parse_stats] returns, an extracted GPA or writing score
    is at least 0 and at most 10 (the patterns take a single digit
    before the dot), and an extracted verbal or quantitative score
    is not negative (a sign is never read) and below ten to the
    4300 ([int] takes no longer numeral). *)
Theorem parse_stats_value_ranges (s : string) :
  int_readable s ->
  exists st,
    parse_stats s = Ok st
    /\ (forall q, stats_gpa st = Some q -> (Q2Qc 0 <= q)%Qc /\ (q <= Q2Qc 10)%Qc)
    /\ (forall q, stats_gre_writing st = Some q ->
                  (Q2Qc 0 <= q)%Qc /\ (q <= Q2Qc 10)%Qc)
    /\ (forall n, stats_gre_verbal st = Some n -> 0 <= n < 10 ^ 4300)
    /\ (forall n, stats_gre_quant st = Some n -> 0 <= n < 10 ^ 4300).
Proof.
  intros Hs. exists (parsed s). split; [now apply parse_stats_readable|].
  cbn [parsed stats_gpa stats_gre_verbal stats_gre_quant stats_gre_writing].
  assert (Hdec : forall label q,
             decimal_value <$> first_match (decimal_here label) s = Some q ->
             (Q2Qc 0 <= q)%Qc /\ (q <= Q2Qc 10)%Qc).
  { intros label q H. apply fmap_Some in H as (v & Hv & ->).
    apply (first_match_numeral decimal_numeral) in Hv;
      [|apply decimal_here_numeral].
    destruct (float_range v _ Hv (float_decimal_numeral v Hv)) as [Hlo Hhi].
    split; [exact Hlo|now apply Qclt_le_weak]. }
  assert (Hint : forall label n,
             label = "GRE Verbal" \/ label = "GRE Quantitative" ->
             numeral_value <$> first_match (integer_here label) s = Some n ->
             0 <= n < 10 ^ 4300).
  { intros label n Hlabel H. apply fmap_Some in H as (v & Hv & ->).
    apply numeral_value_range.
    - now apply (first_match_numeral integer_numeral) in Hv;
        [|apply integer_here_numeral].
    - apply (Hs label v Hlabel). now apply first_match_reads_integer. }
  split; [apply Hdec|]. split; [apply Hdec|].
  split; intros n; apply Hint; [now left|now right].
Qed.

Lemma parse_stats_value_ranges_witness :
  int_readable "GPA: 9.99, GRE Verbal: 170"
  /\ exists st,
      parse_stats "GPA: 9.99, GRE Verbal: 170" = Ok st
      /\ (forall q, stats_gpa st = Some q -> (q <= Q2Qc 10)%Qc)
      /\ stats_gre_verbal st = Some 170.
Proof.
  assert (Hs : int_readable "GPA: 9.99, GRE Verbal: 170")
    by (apply int_readable_spec; vm_compute; reflexivity).
  split; [exact Hs|].
  destruct (parse_stats_value_ranges "GPA: 9.99, GRE Verbal: 170" Hs)
    as (st & Hparse & Hgpa & _).
  exists st. split; [exact Hparse|]. split.
  - intros q Hq. exact (proj2 (Hgpa q Hq)).
  - rewrite (parse_stats_readable _ Hs) in Hparse. injection Hparse as <-.
    reflexivity.
Defined.

(** A text without any digit gives no field at all. *)
Theorem parse_stats_without_digits (s : string) :
  every (fun c => negb (isdigit c)) s = true ->
  parse_stats s
  = Ok {| stats_gpa := None; stats_gre_verbal := None;
          stats_gre_quant := None; stats_gre_writing := None |}.
Proof.
  intros Hs.
  assert (Hdec : forall label, first_match (decimal_here label) s = None).
  { intros label. apply first_match_None. intros pre rest ->.
    destruct (decimal_here label rest) as [v|] eqn:Hv; [|reflexivity].
    apply decimal_here_recognized in Hv
      as (lbl & sep & post & -> & _ & _ & _ & (d & frac & -> & Hd & _) & _).
    rewrite !every_append in Hs. cbn [every] in Hs. rewrite Hd in Hs.
    cbn in Hs. rewrite ?andb_false_r in Hs. cbn in Hs.
    rewrite ?andb_false_r in Hs. discriminate. }
  assert (Hint : forall label, first_match (integer_here label) s = None).
  { intros label. apply first_match_None. intros pre rest ->.
    destruct (integer_here label rest) as [v|] eqn:Hv; [|reflexivity].
    apply integer_here_recognized in Hv
      as (lbl & sep & post & -> & _ & _ & _ & (Hne & Hv) & _).
    destruct v as [|d v]; [congruence|]. cbn [every] in Hv.
    apply andb_prop in Hv as [Hd _].
    rewrite !every_append in Hs. cbn [every] in Hs. rewrite Hd in Hs.
    cbn in Hs. rewrite ?andb_false_r in Hs. cbn in Hs.
    rewrite ?andb_false_r in Hs. discriminate. }
  rewrite parse_stats_fields. unfold parsed. rewrite !Hdec, !Hint. reflexivity.
Qed.

Lemma parse_stats_without_digits_witness :
  every (fun c => negb (isdigit c)) "GPA: n/a, GRE Verbal: -" = true
  /\ parse_stats "GPA: n/a, GRE Verbal: -"
     = Ok {| stats_gpa := None; stats_gre_verbal := None;
             stats_gre_quant := None; stats_gre_writing := None |}.
Proof.
  split; [reflexivity|].
  apply (parse_stats_without_digits "GPA: n/a, GRE Verbal: -"). reflexivity.
Defined.

End ParseStatsMore.

(** ** More on the scraped entries *)

Section ScrapeMore.
Import Py fetch_data.

Lemma lstrip_not_starting s : not_starting isspace (lstrip s).
Proof.
  induction s as [|c s IH]; [exact I|].
  cbn [lstrip]. destruct (isspace c) eqn:Hc; [exact IH|exact Hc].
Qed.

Lemma lstrip_fixed s : not_starting isspace s -> lstrip s = s.
Proof. destruct s as [|c s]; [reflexivity|]. cbn. now intros ->. Qed.

Lemma rstrip_not_starting s : not_starting isspace s -> not_starting isspace (rstrip s).
Proof.
  destruct s as [|c s]; [intros _; exact I|]. cbn [not_starting rstrip]. intros Hc.
  destruct (rstrip s); [now rewrite Hc|exact Hc].
Qed.

Lemma rstrip_cons c s :
  rstrip (String c s)
  = match rstrip s with
    | EmptyString => if isspace c then EmptyString else String c EmptyString
    | r => String c r
    end.
Proof. reflexivity. Qed.

Lemma rstrip_idempotent s : rstrip (rstrip s) = rstrip s.
Proof.
  induction s as [|c s IH]; [reflexivity|]. rewrite rstrip_cons.
  destruct (rstrip s) as [|c' r] eqn:Hr.
  - destruct (isspace c) eqn:Hc; [reflexivity|]. cbn. now rewrite Hc.
  - rewrite rstrip_cons, IH. reflexivity.
Qed.

Lemma strip_idempotent s : strip (strip s) = strip s.
Proof.
  unfold strip.
  rewrite (lstrip_fixed (rstrip (lstrip s)))
    by apply rstrip_not_starting, lstrip_not_starting.
  apply rstrip_idempotent.
Qed.

(** The text neither begins nor ends with white space. *)
Definition trimmed (s : string) : Prop :=
  not_starting isspace s
  /\ forall pre c, s = pre +:+ String c EmptyString -> isspace c = false.

Lemma rstrip_not_ending s pre c :
  rstrip s = pre +:+ String c EmptyString -> isspace c = false.
Proof.
  revert pre. induction s as [|a s IH]; intros pre; [destruct pre; discriminate|].
  rewrite rstrip_cons.
  - destruct (rstrip s) as [|b r] eqn:Hr.
    + destruct (isspace a) eqn:Ha.
      * destruct pre; discriminate.
      * destruct pre as [|p pre]; [now intros [= <-]|].
        rewrite append_cons. intros [= _ H]. destruct pre; discriminate.
    + destruct pre as [|p pre]; [discriminate|].
      rewrite append_cons. intros [= _ H]. now apply (IH pre).
Qed.

Lemma strip_trimmed s : trimmed (strip s).
Proof.
  split.
  - apply rstrip_not_starting, lstrip_not_starting.
  - intros pre c. apply rstrip_not_ending.
Qed.

Lemma scrape_rows_entries rows acc entries e :
  scrape_rows rows acc = Ok entries ->
  e ∈ entries ->
  e ∈ acc \/ exists cells, Cells cells ∈ rows /\ scrape_row cells = Ok (Some e).
Proof.
  revert acc. induction rows as [|r rows IH]; intros acc.
  - intros [= <-] He. now left.
  - destruct r as [cells|]; [|discriminate].
    cbn [scrape_rows]. destruct (scrape_row cells) as [o|] eqn:Ho; [|discriminate].
    cbn [rbind]. intros Hrows He.
    destruct (IH _ Hrows He) as [Hacc|(cells' & Hin & Hrow)].
    + destruct o as [e'|]; [|now left].
      apply elem_of_app in Hacc as [Hacc|Hacc]; [now left|].
      apply list_elem_of_singleton in Hacc as ->.
      right. exists cells. split; [left|exact Ho].
    + right. exists cells'. split; [now right|exact Hrow].
Qed.

Lemma scrape_rows_length rows acc entries :
  scrape_rows rows acc = Ok entries ->
  (length entries <= length acc + length rows)%nat.
Proof.
  revert acc. induction rows as [|r rows IH]; intros acc.
  - intros [= <-]. cbn. lia.
  - destruct r as [cells|]; [|discriminate].
    cbn [scrape_rows]. destruct (scrape_row cells) as [o|]; [|discriminate].
    cbn [rbind]. intros Hrows. apply IH in Hrows.
    destruct o; rewrite ?length_app in Hrows; cbn [length] in *; lia.
Qed.

(** What a page yields, by the kind of page. *)
Lemma yields_cases driver page_num :
  yields driver page_num
  = match driver page_num with
    | Table trs =>
        match scrape_rows (drop 1 trs) [] with
        | Ok entries => entries
        | Raised => []
        end
    | _ => []
    end.
Proof.
  unfold yields, scrape_gradcafe_page, on_error, eval, bind, ret.
  rewrite !run_emit.
  destruct (driver page_num) as [| |trs]; rewrite ?run_emit; try reflexivity.
  destruct (scrape_rows (drop 1 trs) []); rewrite ?run_emit; reflexivity.
Qed.

(** An entry, once scraped, names the target institution, programme
    and degree; its texts carry no white space at either end; and its
    four numbers are what [parse_stats] reads in its own [stats_raw]. *)
Definition well_formed_entry (e : Entry) : Prop :=
  occurs_in "Yale" (e_institution e)
  /\ occurs_in "Political Science" (e_program e)
  /\ occurs_in "PhD" (e_degree e)
  /\ Forall trimmed [e_institution e; e_program e; e_degree e;
                     e_season e; e_decision e; e_stats_raw e]
  /\ parse_stats (e_stats_raw e)
     = Ok {| stats_gpa := e_gpa e;
             stats_gre_verbal := e_gre_verbal e;
             stats_gre_quant := e_gre_quant e;
             stats_gre_writing := e_gre_writing e |}.

Lemma scrape_row_well_formed cells e :
  scrape_row cells = Ok (Some e) -> well_formed_entry e.
Proof.
  intros He.
  destruct (Nat.lt_ge_cases (length cells) 7) as [Hlt|Hge].
  { rewrite scrape_row_short in He by exact Hlt. discriminate. }
  destruct cells as [|c0 [|c1 [|c2 [|c3 [|c4 [|c5 [|c6 more]]]]]]];
    cbn [length] in Hge; try lia.
  rewrite scrape_row_long in He.
  destruct (contains "Yale" (strip c0)) eqn:H0; [|discriminate].
  destruct (contains "Political Science" (strip c1)) eqn:H1; [|discriminate].
  destruct (contains "PhD" (strip c2)) eqn:H2; [|discriminate].
  destruct (parse_stats (strip c6)) as [stats|] eqn:Hstats; [|discriminate].
  injection He as <-. unfold well_formed_entry, entry_of.
  cbn [e_institution e_program e_degree e_season e_decision e_stats_raw
       e_gpa e_gre_verbal e_gre_quant e_gre_writing].
  rewrite <- !contains_spec. repeat split; try assumption.
  - repeat constructor; apply strip_trimmed.
  - rewrite Hstats. now destruct stats.
Qed.

Lemma yields_well_formed driver page_num e :
  e ∈ yields driver page_num -> well_formed_entry e.
Proof.
  rewrite yields_cases. destruct (driver page_num) as [| |trs];
    try (intros H; now apply elem_of_nil in H).
  destruct (scrape_rows (drop 1 trs) []) as [entries|] eqn:Hrows;
    [|intros H; now apply elem_of_nil in H].
  intros He. destruct (scrape_rows_entries _ _ _ _ Hrows He) as [H|(cells & _ & Hrow)].
  - now apply elem_of_nil in H.
  - now apply (scrape_row_well_formed cells).
Qed.

Lemma for_pages_entries driver pages acc t e :
  e ∈ eval (for_pages driver pages acc) t ->
  e ∈ acc \/ exists p, p ∈ pages /\ e ∈ yields driver p.
Proof.
  revert acc t. induction pages as [|p pages IH]; intros acc t; [now left|].
  unfold eval in *. destruct (yields driver p) as [|e0 es] eqn:Hy.
  - rewrite for_pages_cons_empty by exact Hy. now left.
  - rewrite for_pages_cons_rows by congruence. rewrite Hy. intros He.
    destruct (IH _ _ He) as [Hacc|(q & Hq & Hin)].
    + apply elem_of_app in Hacc as [Hacc|Hacc]; [now left|].
      right. exists p. split; [left|]. now rewrite Hy.
    + right. exists q. split; [now right|exact Hin].
Qed.

(** Every row of the collected table comes from a page within the
    bounds and is a well-formed entry of that page, with its raw
    decision present: the table never holds a row of another
    institution, programme or degree. *)
Theorem collected_rows_are_well_formed
    (driver : browser) (s e : Z) (t : trace) (r : Row) :
  r ∈ eval (scrape_all_pages driver s e) t ->
  exists p entry,
    s <= p <= e
    /\ entry ∈ yields driver p
    /\ r = Row_of_Entry entry
    /\ well_formed_entry entry
    /\ decision r = Some (e_decision entry).
Proof.
  unfold scrape_all_pages. rewrite eval_bind. cbn [eval ret fst].
  unfold DataFrame_of. intros Hr.
  apply list_elem_of_fmap in Hr as (entry & -> & He).
  apply for_pages_entries in He as [He|(p & Hp & He)]; [now apply elem_of_nil in He|].
  exists p, entry. apply elem_of_range in Hp.
  repeat split; try lia; try assumption.
  1-5: now apply (yields_well_formed driver p entry He).
Qed.

Lemma collected_rows_are_well_formed_witness :
  exists r,
    r ∈ eval (scrape_all_pages sample_driver 1 170) []
    /\ occurs_in "Yale" (institution r).
Proof.
  eexists. split; [left|].
  destruct (collected_rows_are_well_formed sample_driver 1 170 [] _
              (list_elem_of_here _ _))
    as (p & entry & _ & _ & Hr & (Hyale & _) & _).
  rewrite Hr. exact Hyale.
Defined.

End ScrapeMore.

(** ** What a page request leaves behind *)

Section PageEffects.
Import Py fetch_data.

Lemma page_trace driver page_num :
  exec (scrape_gradcafe_page driver page_num) []
  = match driver page_num with
    | GetRaises => [Get page_num; Save (ErrorPageSource page_num)]
    | NoTable =>
        [Get page_num; Sleep PAGE_LOAD_DELAY; Save (PageSource page_num)]
    | Table trs =>
        match scrape_rows (drop 1 trs) [] with
        | Ok _ => [Get page_num; Sleep PAGE_LOAD_DELAY]
        | Raised =>
            [Get page_num; Sleep PAGE_LOAD_DELAY; Save (ErrorPageSource page_num)]
        end
    end.
Proof.
  unfold scrape_gradcafe_page, on_error, exec, bind, ret.
  rewrite !run_emit.
  destruct (driver page_num) as [| |trs]; rewrite ?run_emit; try reflexivity.
  destruct (scrape_rows (drop 1 trs) []); rewrite ?run_emit; reflexivity.
Qed.

(** An exception leaves the [try] body of [scrape_gradcafe_page]:
    the request fails, or a row after the first raises, because it
    cannot be read or because it passes the test and [int] refuses a
    numeral of its stats text. *)
Definition page_raises (pg : page) : Prop :=
  pg = GetRaises
  \/ exists trs r, pg = Table trs /\ r ∈ drop 1 trs /\ row_raises r.

Local Ltac page_case :=
  intuition
    (repeat match goal with
            | H : exists _, _ |- _ => destruct H as (? & ?)
            | H : _ /\ _ |- _ => destruct H as [? ?]
            | H : Table _ = Table _ |- _ => injection H as ->
            end;
     subst; try discriminate; try congruence; eauto).

(** A page source is saved exactly when the page has no table, and
    an error page source exactly when an exception is raised, each
    under the page's own name; a page that is read without error
    saves nothing, even when it yields no row; and the page-load
    delay is slept through unless the request itself fails. *)
Theorem snapshots_saved (driver : browser) (page_num : Z) :
  let t := exec (scrape_gradcafe_page driver page_num) [] in
  (Save (PageSource page_num) ∈ t <-> driver page_num = NoTable)
  /\ (Save (ErrorPageSource page_num) ∈ t <-> page_raises (driver page_num))
  /\ (forall file, Save file ∈ t ->
                   file = PageSource page_num \/ file = ErrorPageSource page_num)
  /\ (Sleep PAGE_LOAD_DELAY ∈ t <-> driver page_num <> GetRaises)
  /\ (yields driver page_num <> [] -> forall file, Save file ∉ t).
Proof.
  cbv zeta. rewrite page_trace, yields_cases. unfold page_raises.
  destruct (driver page_num) as [| |trs].
  - rewrite !elem_of_cons, !elem_of_nil.
    split; [page_case|]. split; [page_case|]. split; [|page_case].
    intros file. rewrite !elem_of_cons, elem_of_nil. page_case.
  - rewrite !elem_of_cons, !elem_of_nil.
    split; [page_case|]. split; [page_case|]. split; [|page_case].
    intros file. rewrite !elem_of_cons, elem_of_nil. page_case.
  - destruct (scrape_rows (drop 1 trs) []) as [entries|] eqn:Hrows.
    + assert (Hread : forall r, r ∈ drop 1 trs -> ~ row_raises r).
      { intros r Hin Hraise.
        assert (Hraised : scrape_rows (drop 1 trs) [] = Raised)
          by (apply scrape_rows_Raised; now exists r).
        congruence. }
      rewrite !elem_of_cons, !elem_of_nil.
      split; [page_case|]. split; [|split; [|split]].
      * split; [page_case|]. intros [H|(trs' & r & [= <-] & Hin & Hraise)];
          [discriminate|]. destruct (Hread r Hin Hraise).
      * intros file. rewrite !elem_of_cons, elem_of_nil. page_case.
      * page_case.
      * intros _ file. rewrite !elem_of_cons, elem_of_nil. page_case.
    + apply scrape_rows_Raised in Hrows as (r & Hin & Hraise).
      rewrite !elem_of_cons, !elem_of_nil.
      split; [page_case|]. split; [|split; [|page_case]].
      * split; [|page_case]. intros _. right. now exists trs, r.
      * intros file. rewrite !elem_of_cons, elem_of_nil. page_case.
Qed.

(** The first [tr] of the table is passed over unseen: what the page
    yields and does is the same whatever that row holds, even a row
    that cannot be read; and the page yields at most one entry for
    each further row. *)
Theorem first_row_is_skipped
    (driver other : browser) (page_num : Z) (first first' : tr) (rows : list tr) :
  driver page_num = Table (first :: rows) ->
  other page_num = Table (first' :: rows) ->
  scrape_gradcafe_page driver page_num = scrape_gradcafe_page other page_num
  /\ (length (yields driver page_num) <= length rows)%nat.
Proof.
  intros Hd Ho. split.
  - unfold scrape_gradcafe_page. now rewrite Hd, Ho.
  - rewrite yields_cases, Hd. change (drop 1 (first :: rows)) with rows.
    destruct (scrape_rows rows []) as [entries|] eqn:Hrows; [|cbn; lia].
    apply scrape_rows_length in Hrows. cbn in Hrows. lia.
Qed.

Lemma first_row_is_skipped_witness :
  (length (yields (fun _ => Table [Unreadable; Cells qualifying_cells]) 1) <= 1)%nat
  /\ yields (fun _ => Table [Unreadable; Cells qualifying_cells]) 1
     = yields (fun _ => Table [Cells qualifying_cells; Cells qualifying_cells]) 1.
Proof.
  destruct (first_row_is_skipped
              (fun _ => Table [Unreadable; Cells qualifying_cells])
              (fun _ => Table [Cells qualifying_cells; Cells qualifying_cells])
              1 Unreadable (Cells qualifying_cells) [Cells qualifying_cells]
              eq_refl eq_refl) as [Hsame Hlen].
  split; [exact Hlen|]. unfold yields. now rewrite Hsame.
Defined.

End PageEffects.

(** ** More on the pagination loop *)

Section PaginationMore.
Import Py fetch_data.

Lemma for_pages_all driver pages acc t :
  (forall p, p ∈ pages -> yields driver p <> []) ->
  exists t',
    for_pages driver pages acc t = (acc ++ concat (yields driver <$> pages), t ++ t')
    /\ requested t' = pages.
Proof.
  revert acc t. induction pages as [|p pages IH]; intros acc t Hall.
  - exists []. cbn. now rewrite !app_nil_r.
  - rewrite for_pages_cons_rows by (apply Hall; left).
    edestruct IH as (t' & -> & Hreq).
    { intros q Hq. apply Hall. now right. }
    eexists. split.
    + cbn [fmap list_fmap concat]. now rewrite <- !app_assoc.
    + rewrite !requested_app, requested_scrape_gradcafe_page, Hreq. reflexivity.
Qed.

(** When every page from the start page to the end bound yields a
    row, the loop runs to the bound: each of these pages is requested
    once, in order, and the table holds all their rows.  With an end
    bound below the start page nothing is requested and the table is
    empty. *)
Theorem pagination_runs_to_the_bound (driver : browser) (s e : Z) (t : trace) :
  (forall p, s <= p <= e -> yields driver p <> []) ->
  exists t',
    scrape_all_pages driver s e t
    = (DataFrame_of (concat (yields driver <$> range s (e + 1))), t ++ t')
    /\ requested t' = range s (e + 1)
    /\ (e < s -> scrape_all_pages driver s e t = ([], t)).
Proof.
  intros Hall.
  destruct (for_pages_all driver (range s (e + 1)) [] t) as (t' & Hrun & Hreq).
  { intros p Hp. apply elem_of_range in Hp. apply Hall. lia. }
  exists t'. unfold scrape_all_pages, bind. rewrite Hrun.
  split; [reflexivity|]. split; [exact Hreq|].
  intros Hlt. unfold range in *.
  replace (Z.to_nat (e + 1 - s)) with 0%nat in * by lia.
  cbn in Hrun. injection Hrun as Ht. unfold ret. now rewrite <- Ht.
Qed.

Lemma pagination_runs_to_the_bound_witness :
  exists df t',
    scrape_all_pages (fun _ => Table [Cells []; Cells qualifying_cells]) 4 6 []
    = (df, t')
    /\ length df = 3%nat /\ requested t' = [4; 5; 6].
Proof.
  destruct (pagination_runs_to_the_bound
              (fun _ => Table [Cells []; Cells qualifying_cells]) 4 6 [])
    as (t' & Hrun & Hreq & _).
  - intros p _. discriminate.
  - eexists _, t'. split; [exact Hrun|]. split; [reflexivity|exact Hreq].
Defined.

(** *** The delay between requests *)

(** No request is recorded in this stretch of the trace. *)
Definition no_request (t : trace) : Prop := requested t = [].

Lemma page_trace_shape driver page_num :
  exists rest,
    exec (scrape_gradcafe_page driver page_num) [] = Get page_num :: rest
    /\ no_request rest.
Proof.
  rewrite page_trace.
  destruct (driver page_num) as [| |trs]; [eexists; split; reflexivity..|].
  destruct (scrape_rows (drop 1 trs) []); eexists; split; reflexivity.
Qed.

Lemma no_request_split t1 p t2 rest :
  no_request rest -> rest = t1 ++ Get p :: t2 -> False.
Proof.
  unfold no_request. intros H ->. rewrite requested_app in H. cbn in H.
  now apply app_eq_nil in H as [_ H].
Qed.

(** The events that precede a request, when there are any, end with
    the delay between requests. *)
Definition after_delay (before : trace) : Prop :=
  before = [] \/ exists t0, before = t0 ++ [Sleep REQUEST_DELAY].

Lemma exec_for_pages_cons_empty driver page pages acc t :
  yields driver page = [] ->
  exec (for_pages driver (page :: pages) acc) t
  = t ++ exec (scrape_gradcafe_page driver page) [].
Proof. intros Hy. unfold exec at 1. now rewrite for_pages_cons_empty. Qed.

Lemma exec_for_pages_cons_rows driver page pages acc t :
  yields driver page <> [] ->
  exec (for_pages driver (page :: pages) acc) t
  = exec (for_pages driver pages (acc ++ yields driver page))
      (t ++ exec (scrape_gradcafe_page driver page) [] ++ [Sleep REQUEST_DELAY]).
Proof. intros Hy. unfold exec at 1. now rewrite for_pages_cons_rows. Qed.

(** A request found in [rest ++ delay :: later], where [rest] holds
    no request, lies in [later]. *)
Lemma request_after_rest rest later before p after :
  no_request rest ->
  rest ++ Sleep REQUEST_DELAY :: later = before ++ Get p :: after ->
  exists b1, before = rest ++ Sleep REQUEST_DELAY :: b1
             /\ later = b1 ++ Get p :: after.
Proof.
  revert before. induction rest as [|r rest IHr]; intros before Hrest H.
  - cbn [app] in H. destruct before as [|b before]; [discriminate|].
    injection H as <- H. now exists before.
  - assert (Hr : no_request rest /\ forall x, r <> Get x).
    { unfold no_request in *. destruct r; cbn in Hrest;
        try discriminate; split; try exact Hrest; intros x; discriminate. }
    destruct Hr as [Hrest' Hr].
    destruct before as [|b before].
    + cbn [app] in H. injection H as H _. now destruct (Hr p).
    + cbn [app] in H. injection H as <- H.
      destruct (IHr before Hrest' H) as (b1 & -> & Ht).
      now exists b1.
Qed.

Lemma for_pages_delays driver pages acc t t' :
  exec (for_pages driver pages acc) t = t ++ t' ->
  forall before p after, t' = before ++ Get p :: after -> after_delay before.
Proof.
  revert acc t t'. induction pages as [|q pages IH]; intros acc t t' Hrun.
  - cbn in Hrun. rewrite <- (app_nil_r t) in Hrun at 1.
    apply app_inv_head in Hrun as <-. intros before p after H.
    now destruct before.
  - destruct (page_trace_shape driver q) as (rest & Hq & Hrest).
    destruct (yields driver q) as [|e0 es] eqn:Hy.
    + rewrite exec_for_pages_cons_empty in Hrun by exact Hy.
      apply app_inv_head in Hrun as <-. rewrite Hq.
      intros before p after H. destruct before as [|b before]; [now left|].
      injection H as _ H. now destruct (no_request_split _ _ _ _ Hrest H).
    + assert (Hne : yields driver q <> []) by congruence.
      rewrite exec_for_pages_cons_rows in Hrun by exact Hne.
      destruct (for_pages_requested driver pages (acc ++ yields driver q)
                  (t ++ exec (scrape_gradcafe_page driver q) [] ++ [Sleep REQUEST_DELAY]))
        as (t'' & Ht'' & _).
      pose proof (IH _ _ _ Ht'') as Hlater.
      rewrite Ht'' in Hrun. rewrite <- !app_assoc in Hrun.
      apply app_inv_head in Hrun as <-. rewrite Hq.
      intros before p after H.
      destruct before as [|b before]; [now left|].
      cbn [app] in H. injection H as <- H.
      destruct (request_after_rest rest t'' before p after Hrest H)
        as (b1 & -> & Ht).
      destruct (Hlater b1 p after Ht) as [->|(t0 & ->)].
      * right. now exists (Get q :: rest).
      * right. exists (Get q :: rest ++ Sleep REQUEST_DELAY :: t0).
        cbn [app]. f_equal. rewrite <- app_assoc. reflexivity.
Qed.

(** Between two requests the script always sleeps: whatever comes
    before a request in the run, unless it is the first request,
    ends with the delay between requests. *)
Theorem requests_are_spaced (driver : browser) (s e : Z) :
  forall before p after,
    exec (scrape_all_pages driver s e) [] = before ++ Get p :: after ->
    before = [] \/ exists t0, before = t0 ++ [Sleep REQUEST_DELAY].
Proof.
  intros before p after H.
  unfold scrape_all_pages in H. rewrite exec_bind in H. cbn [exec ret snd] in H.
  apply (for_pages_delays driver (range s (e + 1)) [] []
           (snd (for_pages driver (range s (e + 1)) [] [])) eq_refl before p after).
  exact H.
Qed.

Lemma requests_are_spaced_witness :
  exists t0, [Get 1; Sleep PAGE_LOAD_DELAY; Sleep REQUEST_DELAY]
             = t0 ++ [Sleep REQUEST_DELAY].
Proof.
  destruct (requests_are_spaced sample_driver 1 170
              [Get 1; Sleep PAGE_LOAD_DELAY; Sleep REQUEST_DELAY] 2
              [Sleep PAGE_LOAD_DELAY; Sleep REQUEST_DELAY; Get 3; Sleep PAGE_LOAD_DELAY]
              eq_refl) as [H|H]; [discriminate H|exact H].
Defined.

End PaginationMore.

(** ** The whole run *)

Section MainMore.
Import Py fetch_data.

(** The events of scraping: requests, sleeps and saved page
    sources. *)
Definition scraping_event (e : event) : Prop :=
  match e with
  | Get _ | Sleep _ | Save _ => True
  | ToCsv _ | Quit => False
  end.




Lemma scraping_event_ToCsv t df : Forall scraping_event t -> ToCsv df ∉ t.
Proof. rewrite Forall_forall. intros H Hin. exact (H _ Hin). Qed.

Lemma scraping_event_Quit t : Forall scraping_event t -> Quit ∉ t.
Proof. rewrite Forall_forall. intros H Hin. exact (H _ Hin). Qed.


End MainMore.

(** ** More on the normalization *)

Section NormalizationMore.
Import fetch_data.
Local Open Scope Qc_scope.

(** The statistic that fills a column. *)
Definition col_stat (c : numcol) (df : DataFrame) : option Qc :=
  match c with
  | GPA => Series.mean (num_value c <$> df)
  | _ => Series.median (num_value c <$> df)
  end.

Lemma num_value_processed c df r :
  num_value c (processed_row df r) = imputed (col_stat c df) (num_value c r).
Proof. destruct c; reflexivity. Qed.

Lemma col_stat_None c df :
  col_stat c df = None <-> Series.dropna (num_value c <$> df) = [].
Proof. destruct c; first [apply mean_None|apply median_None]. Qed.

Lemma dropna_nil_iff {A} (g : A -> option Qc) (l : list A) :
  Series.dropna (g <$> l) = [] <-> forall x, x ∈ l -> g x = None.
Proof.
  split; [|apply dropna_all_missing].
  unfold Series.dropna. induction l as [|x l IH]; intros H y Hy.
  - now apply elem_of_nil in Hy.
  - csimpl in H. destruct (g x) as [v|] eqn:Hx; [discriminate|].
    apply elem_of_cons in Hy as [->|Hy]; [exact Hx|]. now apply IH.
Qed.

(** Normalization never touches the five text columns, nor the
    order or the number of the rows. *)
Theorem normalization_keeps_texts (df : DataFrame) :
  df <> [] ->
  exists df',
    process_data (Some df) = Some df'
    /\ institution <$> df' = institution <$> df
    /\ program <$> df' = program <$> df
    /\ degree <$> df' = degree <$> df
    /\ season <$> df' = season <$> df
    /\ stats_raw <$> df' = stats_raw <$> df.
Proof.
  intros Hne. exists (processed_row df <$> df).
  split; [now apply process_data_nonempty|].
  repeat split; rewrite <- list_fmap_compose; apply list_fmap_ext; now intros.
Qed.

Lemma normalization_keeps_texts_witness :
  sample_df <> [] /\
  exists df', process_data (Some sample_df) = Some df'
              /\ stats_raw <$> df' = stats_raw <$> sample_df.
Proof.
  assert (Hne : sample_df <> []) by discriminate.
  split; [exact Hne|].
  destruct (normalization_keeps_texts sample_df Hne) as (df' & Hp & _ & _ & _ & _ & Hs).
  exists df'. split; [exact Hp|exact Hs].
Defined.

(** After normalization a numeric column has no missing value
    exactly when it had at least one value before: the output table
    is fully populated if and only if each of the four columns was
    reported by some row. *)
Theorem column_is_filled_iff_reported (df : DataFrame) (c : numcol) :
  df <> [] ->
  exists df',
    process_data (Some df) = Some df'
    /\ ((forall r', r' ∈ df' -> is_Some (num_value c r'))
        <-> exists r, r ∈ df /\ is_Some (num_value c r)).
Proof.
  intros Hne. exists (processed_row df <$> df).
  split; [now apply process_data_nonempty|].
  destruct (col_stat c df) as [v|] eqn:Hstat.
  - split.
    + intros _. assert (Hd : Series.dropna (num_value c <$> df) <> []).
      { intros Hd. apply col_stat_None in Hd. congruence. }
      destruct (Series.dropna (num_value c <$> df)) as [|x xs] eqn:Hx; [congruence|].
      assert (Hin : x ∈ Series.dropna (num_value c <$> df)) by (rewrite Hx; left).
      unfold Series.dropna in Hin. apply list_elem_of_omap in Hin as (o & Ho & Hox).
      apply list_elem_of_fmap in Ho as (r & -> & Hr).
      exists r. split; [exact Hr|]. cbn in Hox. rewrite Hox. eauto.
    + intros _ r' Hr'. apply list_elem_of_fmap in Hr' as (r & -> & Hr).
      rewrite num_value_processed, Hstat. unfold imputed.
      destruct (num_value c r); eauto.
  - pose proof (proj1 (col_stat_None c df) Hstat) as Hd.
    pose proof (proj1 (dropna_nil_iff _ _) Hd) as Hall.
    split.
    + intros Hfull. destruct df as [|r df]; [congruence|].
      destruct (Hfull (processed_row (r :: df) r)) as [v Hv]; [left|].
      rewrite num_value_processed, Hstat, (Hall r) in Hv by left. discriminate.
    + intros (r & Hr & [v Hv]). rewrite (Hall r Hr) in Hv. discriminate.
Qed.

Lemma column_is_filled_iff_reported_witness :
  sample_df <> [] /\
  exists df',
    process_data (Some sample_df) = Some df'
    /\ forall r', r' ∈ df' -> is_Some (num_value GRE_QUANT r').
Proof.
  assert (Hne : sample_df <> []) by discriminate.
  split; [exact Hne|].
  destruct (column_is_filled_iff_reported sample_df GRE_QUANT Hne) as (df' & Hp & Hiff).
  exists df'. split; [exact Hp|]. apply Hiff.
  eexists. split; [left|]. cbn. eauto.
Defined.

(** *** The mean survives the imputation *)

Lemma Qc_of_nat_S n : Series.Qc_of_nat (S n) = Series.Qc_of_nat n + 1.
Proof.
  apply Qc_is_canon. unfold Series.Qc_of_nat, Qcplus, Q2Qc. cbn [this].
  rewrite !Qred_correct, Nat2Z.inj_succ. unfold Z.succ.
  now rewrite inject_Z_plus.
Qed.

Lemma Qc_of_nat_0 : Series.Qc_of_nat 0 = 0.
Proof. now apply Qc_is_canon. Qed.

Lemma Qc_of_nat_pos n : n <> O -> 0 < Series.Qc_of_nat n.
Proof.
  intros Hn. unfold Qclt, Series.Qc_of_nat. cbn [this Q2Qc].
  rewrite !Qred_correct. apply (inject_Z_lt 0 (Z.of_nat n)). lia.
Qed.

(** The number of missing values of a column. *)
Definition missing {A} (s : list (option A)) : nat :=
  length (filter (fun x => x = None) s).

Lemma missing_cons {A} (x : option A) (s : list (option A)) :
  missing (x :: s) = match x with Some _ => missing s | None => S (missing s) end.
Proof.
  unfold missing. destruct x.
  - now rewrite filter_cons_False by discriminate.
  - now rewrite filter_cons_True by reflexivity.
Qed.

Lemma dropna_cons {A} (x : option A) (s : list (option A)) :
  Series.dropna (x :: s)
  = match x with Some v => v :: Series.dropna s | None => Series.dropna s end.
Proof. now destruct x. Qed.

Lemma fill_present (v : Qc) (s : list (option Qc)) :
  Series.sum (Series.dropna (imputed (Some v) <$> s))
  = Series.sum (Series.dropna s) + Series.Qc_of_nat (missing s) * v
  /\ length (Series.dropna (imputed (Some v) <$> s))
     = (length (Series.dropna s) + missing s)%nat.
Proof.
  induction s as [|x s [IHs IHl]].
  - cbn. rewrite Qc_of_nat_0. split; [ring|reflexivity].
  - rewrite fmap_cons, !dropna_cons, missing_cons.
    destruct x as [w|]; cbn [imputed Series.sum foldr length].
    + fold (Series.sum (Series.dropna (imputed (Some v) <$> s))).
      fold (Series.sum (Series.dropna s)).
      rewrite IHs, IHl. split; [ring|reflexivity].
    + fold (Series.sum (Series.dropna (imputed (Some v) <$> s))).
      rewrite IHs, IHl, Qc_of_nat_S. split; [ring|lia].
Qed.

Lemma Qc_of_nat_add a b :
  Series.Qc_of_nat (a + b) = Series.Qc_of_nat a + Series.Qc_of_nat b.
Proof.
  induction a as [|a IH]; cbn [Nat.add].
  - rewrite Qc_of_nat_0. ring.
  - rewrite !Qc_of_nat_S, IH. ring.
Qed.

Lemma mean_fill (s : list (option Qc)) :
  Series.mean (imputed (Series.mean s) <$> s) = Series.mean s.
Proof.
  destruct (Series.mean s) as [m|] eqn:Hm.
  - destruct (mean_Some s m Hm) as [Hne Hsum].
    destruct (fill_present m s) as [Hs Hl].
    unfold Series.mean in *.
    destruct (Series.dropna s) as [|x xs] eqn:Hx; [congruence|].
    destruct (Series.dropna (imputed (Some m) <$> s)) as [|y ys] eqn:Hy.
    { cbn [length] in Hl. lia. }
    f_equal. rewrite Hs, Hl, Qc_of_nat_add, <- Hsum.
    assert (Hn : Series.Qc_of_nat (length (x :: xs)) + Series.Qc_of_nat (missing s) <> 0).
    { rewrite <- Qc_of_nat_add. intros H0.
      pose proof (Qc_of_nat_pos (length (x :: xs) + missing s)) as Hpos.
      rewrite H0 in Hpos. cbn [length] in Hpos.
      assert (H00 : 0 < 0) by (apply Hpos; lia). now apply Qclt_not_eq in H00. }
    field. exact Hn.
  - assert (Hid : imputed None <$> s = s).
    { transitivity (id <$> s); [|apply list_fmap_id].
      apply list_fmap_ext. intros _ x _. now destruct x. }
    now rewrite Hid.
Qed.

(** Filling the missing GPAs with the mean leaves the mean of the
    column where it was. *)
Theorem mean_imputation_keeps_the_mean (df : DataFrame) :
  df <> [] ->
  exists df',
    process_data (Some df) = Some df'
    /\ Series.mean (gpa <$> df') = Series.mean (gpa <$> df).
Proof.
  intros Hne. exists (processed_row df <$> df).
  split; [now apply process_data_nonempty|].
  rewrite <- list_fmap_compose.
  rewrite (list_fmap_ext (gpa ∘ processed_row df)
             (imputed (Series.mean (gpa <$> df)) ∘ gpa) df) by (intros; reflexivity).
  rewrite list_fmap_compose. apply mean_fill.
Qed.

Lemma mean_imputation_keeps_the_mean_witness :
  sample_df <> [] /\
  exists df',
    process_data (Some sample_df) = Some df'
    /\ Series.mean (gpa <$> df') = Series.mean (gpa <$> sample_df).
Proof.
  assert (Hne : sample_df <> []) by discriminate.
  split; [exact Hne|]. exact (mean_imputation_keeps_the_mean sample_df Hne).
Defined.

(** *** Imputed values stay within the reported ones *)

Lemma median_bounds (lo hi m : Qc) (s : list (option Qc)) :
  (forall v, v ∈ Series.dropna s -> lo <= v /\ v <= hi) ->
  Series.median s = Some m -> lo <= m /\ m <= hi.
Proof.
  intros H Hm. unfold Series.median in Hm. cbv zeta in Hm.
  pose proof (merge_sort_Permutation Qcle (Series.dropna s)) as Hp.
  pose proof (StronglySorted_merge_sort Qcle (Series.dropna s)) as Hs.
  set (l := merge_sort Qcle (Series.dropna s)) in *.
  assert (Hl : forall i v, l !! i = Some v -> lo <= v /\ v <= hi).
  { intros i v Hi. apply H. rewrite <- Hp. apply list_elem_of_lookup. now exists i. }
  destruct (length l) as [|n] eqn:En; [discriminate|].
  rewrite <- En in Hm.
  destruct (Nat.odd (length l)).
  - exact (Hl _ m Hm).
  - apply bind_Some in Hm as (a & Ea & Hm).
    apply bind_Some in Hm as (b & Eb & Hm). injection Hm as <-.
    assert (Hab : a <= b) by (eapply (sorted_lookup_le l); eauto; lia).
    destruct (Qc_midpoint a b Hab) as [H1 H2].
    destruct (Hl _ a Ea) as [Ha _]. destruct (Hl _ b Eb) as [_ Hb].
    split; [now apply (Qcle_trans _ a)|now apply (Qcle_trans _ b)].
Qed.

(** The median invents no value outside what is reported: in each
    of the three GRE columns, which are filled with the median,
    bounds that hold for every value before normalization hold for
    every value afterwards. *)
Theorem imputed_values_stay_within_bounds
    (df : DataFrame) (c : numcol) (lo hi : Qc) :
  df <> [] ->
  c <> GPA ->
  (forall r v, r ∈ df -> num_value c r = Some v -> lo <= v /\ v <= hi) ->
  exists df',
    process_data (Some df) = Some df'
    /\ forall r' v, r' ∈ df' -> num_value c r' = Some v -> lo <= v /\ v <= hi.
Proof.
  intros Hne Hc Hin. exists (processed_row df <$> df).
  split; [now apply process_data_nonempty|].
  intros r' v Hr' Hv. apply list_elem_of_fmap in Hr' as (r & -> & Hr).
  rewrite num_value_processed in Hv. unfold imputed in Hv.
  destruct (num_value c r) as [w|] eqn:Hw.
  - injection Hv as <-. now apply (Hin r).
  - assert (Hall : forall x, x ∈ Series.dropna (num_value c <$> df) ->
                             lo <= x /\ x <= hi).
    { intros x Hx. unfold Series.dropna in Hx.
      apply list_elem_of_omap in Hx as (o & Ho & Hox).
      apply list_elem_of_fmap in Ho as (r0 & -> & Hr0). now apply (Hin r0). }
    destruct c; [congruence|..]; cbn [col_stat] in Hv;
      now apply (median_bounds lo hi v _ Hall).
Qed.

Lemma imputed_values_stay_within_bounds_witness :
  sample_df <> [] /\
  exists df',
    process_data (Some sample_df) = Some df'
    /\ forall r' v, r' ∈ df' -> num_value GRE_VERBAL r' = Some v ->
                    Q2Qc 160 <= v /\ v <= Q2Qc 165.
Proof.
  assert (Hne : sample_df <> []) by discriminate.
  split; [exact Hne|].
  apply (imputed_values_stay_within_bounds sample_df GRE_VERBAL
           (Q2Qc 160) (Q2Qc 165) Hne); [discriminate|].
  intros r v Hr Hv. unfold sample_df in Hr.
  rewrite !elem_of_cons, elem_of_nil in Hr.
  destruct Hr as [-> | [-> | [-> | []]]]; cbn in Hv; try discriminate;
    injection Hv as <-; split; discriminate.
Defined.

(** *** Normalizing again *)

Lemma canonical_values raw :
  canonical raw ∈ ["Accept"; "Reject"; "Waitlist"; "Other"; "Unknown"].
Proof.
  unfold canonical. destruct (raw ≫= _) as [c|] eqn:Hc.
  - apply bind_Some in Hc as (x & _ & Hx). apply decision_mapping_values in Hx.
    cbn [default]. rewrite !elem_of_cons, elem_of_nil in Hx.
    rewrite !elem_of_cons. tauto.
  - cbn [default]. rewrite !elem_of_cons. tauto.
Qed.

Lemma canonical_twice raw :
  canonical (Some (canonical (Some (canonical raw))))
  = canonical (Some (canonical raw)).
Proof.
  pose proof (canonical_values raw) as H.
  rewrite !elem_of_cons, elem_of_nil in H.
  destruct H as [-> | [-> | [-> | [-> | [-> | []]]]]]; reflexivity.
Qed.

Lemma canonical_settled raw :
  canonical (Some (canonical raw)) = "Other"
  \/ canonical (Some (canonical raw)) = "Unknown".
Proof.
  pose proof (canonical_values raw) as H.
  rewrite !elem_of_cons, elem_of_nil in H.
  destruct H as [-> | [-> | [-> | [-> | [-> | []]]]]]; (now left) || (now right).
Qed.

(** After one pass a column is reported by every row or by none. *)
Lemma processed_column_uniform df c :
  (forall r', r' ∈ (processed_row df <$> df) -> is_Some (num_value c r'))
  \/ (forall r', r' ∈ (processed_row df <$> df) -> num_value c r' = None).
Proof.
  destruct (col_stat c df) as [v|] eqn:Hstat.
  - left. intros r' Hr'. apply list_elem_of_fmap in Hr' as (r & -> & Hr).
    rewrite num_value_processed, Hstat. unfold imputed.
    destruct (num_value c r); eauto.
  - right. intros r' Hr'. apply list_elem_of_fmap in Hr' as (r & -> & Hr).
    pose proof (proj1 (dropna_nil_iff _ _) (proj1 (col_stat_None c df) Hstat)) as Hall.
    now rewrite num_value_processed, Hstat, (Hall r Hr).
Qed.

Lemma processed_uniform_fixed df c r :
  (forall r', r' ∈ df -> is_Some (num_value c r'))
  \/ (forall r', r' ∈ df -> num_value c r' = None) ->
  r ∈ df ->
  imputed (col_stat c df) (num_value c r) = num_value c r.
Proof.
  intros [Hall|Hnone] Hr.
  - destruct (Hall r Hr) as [v ->]. reflexivity.
  - rewrite (Hnone r Hr).
    now rewrite (proj2 (col_stat_None c df) (proj2 (dropna_nil_iff _ _) Hnone)).
Qed.

Lemma processed_row_fixed df r :
  (forall c, imputed (col_stat c df) (num_value c r) = num_value c r) ->
  decision r = Some (canonical (decision r)) ->
  processed_row df r = r.
Proof.
  intros Hn Hd. destruct r. unfold processed_row. cbn in *. rewrite <- Hd.
  f_equal; [exact (Hn GPA)|exact (Hn GRE_VERBAL)|exact (Hn GRE_QUANT)
           |exact (Hn GRE_WRITING)].
Qed.

(** A second pass changes no number and leaves only "Other" and
    "Unknown" as decisions; from then on the table is a fixed point:
    a third pass returns the table of the second. *)
Theorem normalization_settles_after_two_passes (df : DataFrame) :
  df <> [] ->
  exists df1 df2,
    process_data (Some df) = Some df1
    /\ process_data (Some df1) = Some df2
    /\ process_data (Some df2) = Some df2
    /\ (forall c, num_value c <$> df2 = num_value c <$> df1)
    /\ (forall r, r ∈ df2 ->
                  decision r = Some "Other" \/ decision r = Some "Unknown").
Proof.
  intros Hne.
  set (df1 := processed_row df <$> df).
  assert (Hne1 : df1 <> []) by (destruct df; [congruence|discriminate]).
  assert (Hrow1 : forall r, r ∈ df1 ->
            processed_row df1 r
            = set_decision_value r (Some (canonical (decision r)))).
  { intros r Hr. unfold processed_row, set_decision_value. f_equal.
    - exact (processed_uniform_fixed df1 GPA r (processed_column_uniform df GPA) Hr).
    - exact (processed_uniform_fixed df1 GRE_VERBAL r
               (processed_column_uniform df GRE_VERBAL) Hr).
    - exact (processed_uniform_fixed df1 GRE_QUANT r
               (processed_column_uniform df GRE_QUANT) Hr).
    - exact (processed_uniform_fixed df1 GRE_WRITING r
               (processed_column_uniform df GRE_WRITING) Hr). }
  set (df2 := processed_row df1 <$> df1).
  assert (Hne2 : df2 <> []) by (destruct df1; [congruence|discriminate]).
  assert (Hdf2 : df2 = (fun r => set_decision_value r (Some (canonical (decision r))))
                         <$> df1).
  { apply list_fmap_ext. intros i r Hi. apply Hrow1.
    apply list_elem_of_lookup. now exists i. }
  assert (Hnum : forall c, num_value c <$> df2 = num_value c <$> df1).
  { intros c. rewrite Hdf2, <- list_fmap_compose. apply list_fmap_ext.
    intros _ r _. now destruct c. }
  exists df1, df2.
  split; [now apply process_data_nonempty|].
  split; [now apply process_data_nonempty|].
  split; [|split; [exact Hnum|]].
  - rewrite process_data_nonempty by exact Hne2. f_equal.
    transitivity (id <$> df2); [|apply list_fmap_id].
    apply list_fmap_ext. intros i r Hi.
    assert (Hr : r ∈ df2) by (apply list_elem_of_lookup; now exists i).
    assert (Hu : forall c,
               (forall r', r' ∈ df2 -> is_Some (num_value c r'))
               \/ (forall r', r' ∈ df2 -> num_value c r' = None)).
    { intros c. apply (processed_column_uniform df1 c). }
    unfold id. apply processed_row_fixed.
    + intros c. exact (processed_uniform_fixed df2 c r (Hu c) Hr).
    + unfold df2 in Hr. apply list_elem_of_fmap in Hr as (r1 & -> & Hr1).
      unfold df1 in Hr1. apply list_elem_of_fmap in Hr1 as (r0 & -> & Hr0).
      cbn [processed_row decision]. now rewrite canonical_twice.
  - intros r Hr. unfold df2 in Hr. apply list_elem_of_fmap in Hr as (r1 & -> & Hr1).
    unfold df1 in Hr1. apply list_elem_of_fmap in Hr1 as (r0 & -> & Hr0).
    cbn [processed_row decision].
    destruct (canonical_settled (decision r0)) as [-> | ->]; [now left|now right].
Qed.

Lemma normalization_settles_after_two_passes_witness :
  sample_df <> [] /\
  exists df2, process_data (Some df2) = Some df2 /\ length df2 = 3%nat.
Proof.
  assert (Hne : sample_df <> []) by discriminate.
  split; [exact Hne|].
  destruct (normalization_settles_after_two_passes sample_df Hne)
    as (df1 & df2 & H1 & H2 & H3 & Hnum & _).
  exists df2. split; [exact H3|].
  rewrite <- (length_fmap (num_value GPA) df2), (Hnum GPA), length_fmap.
  rewrite process_data_nonempty in H1 by exact Hne. injection H1 as <-.
  reflexivity.
Defined.

End NormalizationMore.

(** ** More on the Analyzer *)

Section AnalyzerMore.
Import Py Re analyze_gradcafe.

(** The test of the filter on one row. *)
Definition kept (r : Row) : bool :=
  value_matches "Yale" (uni_name r) && value_matches "Political Science" (major r).

Lemma yale_polisci_filter (df : DataFrame) : yale_polisci df = List.filter kept df.
Proof.
  unfold yale_polisci, str_contains_nocase.
  rewrite <- !list_fmap_compose.
  rewrite (mask_and_fmap (value_matches "Yale" ∘ uni_name)
             (value_matches "Political Science" ∘ major)).
  apply boolean_index_fmap.
Qed.

Lemma filter_filter {A} (f : A -> bool) (l : list A) :
  List.filter f (List.filter f l) = List.filter f l.
Proof.
  induction l as [|x l IH]; [reflexivity|]. cbn [List.filter].
  destruct (f x) eqn:Hx; [|exact IH]. cbn [List.filter]. now rewrite Hx, IH.
Qed.

(** Rows are judged one by one: filtering two tables put end to end
    gives the two filtered tables put end to end; filtering a
    filtered table changes nothing; and the rows kept are rows of the
    table, in their order. *)
Theorem filter_works_row_by_row :
  (forall df1 df2 : DataFrame,
      yale_polisci (df1 ++ df2) = yale_polisci df1 ++ yale_polisci df2)
  /\ (forall df : DataFrame, yale_polisci (yale_polisci df) = yale_polisci df)
  /\ (forall df : DataFrame, yale_polisci df `sublist_of` df).
Proof.
  split; [|split].
  - intros df1 df2. rewrite !yale_polisci_filter. apply List.filter_app.
  - intros df. rewrite !yale_polisci_filter. apply filter_filter.
  - intros df. rewrite yale_polisci_filter.
    induction df as [|r df IH]; [constructor|]. cbn [List.filter].
    destruct (kept r); now constructor.
Qed.

(** *** The decision summary *)

(** How often [x] occurs in the column. *)
Definition occurrences (x : string) (s : list (option string)) : nat :=
  length (List.filter (fun v => bool_decide (v = Some x)) s).

Lemma value_counts_lookup s x :
  value_counts s !! x
  = match occurrences x s with O => None | n => Some n end.
Proof.
  unfold occurrences. induction s as [|v s IH]; [reflexivity|].
  destruct v as [y|]; cbn [value_counts List.filter].
  - destruct (decide (y = x)) as [->|Hne].
    + rewrite lookup_insert_eq, IH, bool_decide_eq_true_2 by reflexivity.
      cbn [length]. now destruct (length _).
    + rewrite lookup_insert_ne by exact Hne.
      rewrite bool_decide_eq_false_2 by congruence. exact IH.
  - rewrite bool_decide_eq_false_2 by discriminate. exact IH.
Qed.

(** The sum of all the counts. *)
Definition total (counts : gmap string nat) : nat :=
  map_fold (fun _ n acc => (n + acc)%nat) 0%nat counts.

Lemma total_insert counts x n :
  total (<[x := n]> counts)
  = (n + total counts - match counts !! x with Some k => k | None => 0 end)%nat.
Proof.
  unfold total. destruct (counts !! x) as [k|] eqn:Hx.
  - rewrite <- (insert_delete_eq counts x n).
    rewrite map_fold_insert_L; [|intros; lia|apply lookup_delete_eq].
    rewrite (map_fold_delete_L _ _ x k counts); [lia|intros; lia|exact Hx].
  - rewrite map_fold_insert_L; [lia|intros; lia|exact Hx].
Qed.

Lemma total_value_counts s : total (value_counts s) = length (Series.dropna s).
Proof.
  induction s as [|v s IH]; [reflexivity|].
  rewrite dropna_cons. destruct v as [x|]; cbn [value_counts]; [|exact IH].
  rewrite total_insert, IH. cbn [length].
  destruct (value_counts s !! x) as [k|] eqn:Hx.
  - change (default 0%nat (Some k)) with k.
    assert (k <= length (Series.dropna s))%nat; [|lia].
    rewrite <- IH. unfold total.
    rewrite (map_fold_delete_L _ _ x k (value_counts s)); [lia|intros; lia|exact Hx].
  - change (default 0%nat None) with 0%nat. lia.
Qed.

Lemma decision_summary_lookup (df : DataFrame) (key : string) :
  decision_summary df !! key
  = match length (group key (yale_polisci df)) with
    | O => None
    | n => Some n
    end.
Proof.
  unfold decision_summary. rewrite value_counts_lookup.
  unfold occurrences, group.
  assert (Hlen : forall rows : DataFrame,
             length (List.filter (fun v => bool_decide (v = Some key)) (decision <$> rows))
             = length (List.filter (fun r => bool_decide (decision r = Some key)) rows)).
  { induction rows as [|r rows IH]; [reflexivity|]. csimpl.
    destruct (bool_decide (decision r = Some key)); cbn [length]; now rewrite IH. }
  now rewrite Hlen.
Qed.

(** The decision summary counts each decision of the kept rows: a
    decision is listed with the number of kept rows that carry it,
    one that no kept row carries is not listed, and the counts add up
    to the number of kept rows that have a decision. *)
Theorem decision_summary_counts (df : DataFrame) :
  (forall key,
      decision_summary df !! key
      = match length (group key (yale_polisci df)) with
        | O => None
        | n => Some n
        end)
  /\ total (decision_summary df)
     = length (Series.dropna (decision <$> yale_polisci df)).
Proof.
  split; [|apply total_value_counts].
  intros key. apply decision_summary_lookup.
Qed.

(** *** The statistics summary *)

Lemma this_Q2Qc (q : Q) : (this (Q2Qc q) == q)%Q.
Proof. apply Qred_correct. Qed.

Lemma this_minus (a b : Qc) : (this (a - b)%Qc == this a - this b)%Q.
Proof.
  unfold Qcminus, Qcplus, Qcopp. rewrite !this_Q2Qc. reflexivity.
Qed.

Lemma this_mult (a b : Qc) : (this (a * b)%Qc == this a * this b)%Q.
Proof. unfold Qcmult. apply this_Q2Qc. Qed.

Lemma this_hundredth (k : Z) :
  (this (Q2Qc (inject_Z k) / Q2Qc 100)%Qc == inject_Z k * (1 # 100))%Q.
Proof.
  unfold Qcdiv, Qcmult, Qcinv. rewrite !this_Q2Qc. reflexivity.
Qed.

Lemma round2_close (x : Qc) :
  (round2 x - x <= Q2Qc (1 # 200))%Qc /\ (x - round2 x <= Q2Qc (1 # 200))%Qc.
Proof.
  unfold round2. cbv zeta.
  pose proof (Qfloor_le (x * Q2Qc 100)%Qc) as Hlo.
  pose proof (Qlt_floor (x * Q2Qc 100)%Qc) as Hhi.
  set (below := Qfloor (x * Q2Qc 100)%Qc) in *.
  rewrite inject_Z_plus in Hhi. change (inject_Z 1) with 1%Q in Hhi.
  rewrite this_mult, this_Q2Qc in Hlo, Hhi.
  assert (Hrest : forall c : Q,
             ((x * Q2Qc 100 - Q2Qc (inject_Z below) < Q2Qc c)%Qc
              <-> (this x * 100 - inject_Z below < c)%Q)
             /\ ((Q2Qc c < x * Q2Qc 100 - Q2Qc (inject_Z below))%Qc
                 <-> (c < this x * 100 - inject_Z below)%Q)).
  { intros c. unfold Qclt.
    rewrite this_minus, this_mult, !this_Q2Qc. split; reflexivity. }
  assert (Hgoal : forall k : Z,
             (inject_Z k * (1 # 100) - this x <= 1 # 200)%Q ->
             (this x - inject_Z k * (1 # 100) <= 1 # 200)%Q ->
             (Q2Qc (inject_Z k) / Q2Qc 100 - x <= Q2Qc (1 # 200))%Qc
             /\ (x - Q2Qc (inject_Z k) / Q2Qc 100 <= Q2Qc (1 # 200))%Qc).
  { intros k H1 H2. unfold Qcle.
    rewrite !this_minus, this_hundredth, this_Q2Qc. now split. }
  destruct (decide (x * Q2Qc 100 - Q2Qc (inject_Z below) < Q2Qc (1 # 2))%Qc)
    as [Hlt|Hge].
  - apply (proj1 (proj1 (Hrest (1 # 2)))) in Hlt. apply Hgoal; lra.
  - destruct (decide (Q2Qc (1 # 2) < x * Q2Qc 100 - Q2Qc (inject_Z below))%Qc)
      as [Hgt|Hle].
    + apply (proj1 (proj2 (Hrest (1 # 2)))) in Hgt. apply Hgoal;
        rewrite inject_Z_plus; change (inject_Z 1) with 1%Q; lra.
    + assert (Hge' : ~ (this x * 100 - inject_Z below < 1 # 2)%Q)
        by (intros H; apply Hge, (proj2 (proj1 (Hrest (1 # 2)))), H).
      assert (Hle' : ~ (1 # 2 < this x * 100 - inject_Z below)%Q)
        by (intros H; apply Hle, (proj2 (proj2 (Hrest (1 # 2)))), H).
      apply Qnot_lt_le in Hge', Hle'.
      destruct (Z.odd below); apply Hgoal;
        rewrite ?inject_Z_plus; change (inject_Z 1) with 1%Q; lra.
Qed.

Lemma column_stats_spec (s : list (option Qc)) :
  (col_count (column_stats s) <= length s)%nat
  /\ (col_count (column_stats s) = length s <-> missing s = O)
  /\ (col_mean (column_stats s) = None <-> col_count (column_stats s) = O)
  /\ (forall m, col_mean (column_stats s) = Some m ->
       exists exact,
         Series.mean s = Some exact
         /\ (m - exact <= Q2Qc (1 # 200))%Qc /\ (exact - m <= Q2Qc (1 # 200))%Qc).
Proof.
  unfold column_stats. cbn [col_count col_mean].
  assert (Hlen : length s = (length (Series.dropna s) + missing s)%nat).
  { induction s as [|x s IH]; [reflexivity|].
    rewrite dropna_cons, missing_cons. destruct x; cbn [length]; lia. }
  split; [lia|]. split; [lia|]. split.
  - rewrite fmap_None, mean_None. split; [now intros ->|].
    now destruct (Series.dropna s).
  - intros m Hm. apply fmap_Some in Hm as (exact & Hexact & ->).
    exists exact. split; [exact Hexact|apply round2_close].
Qed.

(** The statistics summary has a line for each listed decision and
    no other.  In a line, the count of a column is the number of the
    group's rows that report it, so at most the size of the group and
    equal to it when none is missing; a mean is given exactly when
    the count is not zero, and lies within half a hundredth of the
    mean of the reported values. *)
Theorem stats_summary_lines (df : DataFrame) (key : string) :
  match stats_summary df !! key with
  | None => decision_summary df !! key = None
  | Some line =>
      let rows := group key (yale_polisci df) in
      decision_summary df !! key = Some (length rows)
      /\ line = {| ugrad_gpa_stats := column_stats (ugrad_gpa <$> rows);
                   gre_verbal_stats := column_stats (gre_verbal <$> rows);
                   gre_quant_stats := column_stats (gre_quant <$> rows);
                   gre_writing_stats := column_stats (gre_writing <$> rows) |}
      /\ Forall
           (fun stats : ColumnStats =>
              (col_count stats <= length rows)%nat
              /\ (col_mean stats = None <-> col_count stats = O))
           [ugrad_gpa_stats line; gre_verbal_stats line;
            gre_quant_stats line; gre_writing_stats line]
      /\ (forall m, col_mean (gre_verbal_stats line) = Some m ->
           exists exact,
             Series.mean (gre_verbal <$> rows) = Some exact
             /\ (m - exact <= Q2Qc (1 # 200))%Qc
             /\ (exact - m <= Q2Qc (1 # 200))%Qc)
  end.
Proof.
  unfold stats_summary. rewrite map_lookup_imap.
  rewrite decision_summary_lookup.
  destruct (length (group key (yale_polisci df))) as [|n] eqn:Hn; [reflexivity|].
  cbv [mbind option_bind]. cbv beta iota zeta.
  split; [reflexivity|]. split; [reflexivity|].
  cbn [ugrad_gpa_stats gre_verbal_stats gre_quant_stats gre_writing_stats].
  split.
  - assert (Hcol : forall s : list (option Qc),
             length s = S n ->
             (col_count (column_stats s) <= S n)%nat
             /\ (col_mean (column_stats s) = None
                 <-> col_count (column_stats s) = O)).
    { intros s Hs. destruct (column_stats_spec s) as (Hle & _ & Hnone & _).
      rewrite Hs in Hle. split; [exact Hle|exact Hnone]. }
    repeat apply Forall_cons_2; try apply Forall_nil_2;
      apply Hcol; rewrite length_fmap; exact Hn.
  - apply column_stats_spec.
Qed.

(** *** What main writes *)

(** Without the data file nothing is written.  With it the filtered
    table is always written, even when no row is kept, and the plot
    is saved before it only when a row is kept. *)
Theorem analyzer_main_writes (file : option DataFrame) (t : list event) :
  main file t
  = match file with
    | None => (tt, t)
    | Some df =>
        match yale_polisci df with
        | [] => (tt, t ++ [ToCsv []])
        | rows => (tt, t ++ [SaveFig rows; ToCsv rows])
        end
    end.
Proof.
  destruct file as [df|]; [|reflexivity].
  unfold main, load_data, analyze_yale_polisci, plot_gre_scores, bind, modify, ret.
  destruct (yale_polisci df) as [|r rows]; cbn [length Nat.eqb]; [reflexivity|].
  now rewrite <- app_assoc.
Qed.

End AnalyzerMore.
